(** * Beam-centre and flux determination of the HDF5Translator
      post-translation template

    A shallow embedding of [main] and of the command-line handling from
    [src/tools/post_translation_operation_template.py], and the properties
    of its numerical pipeline.

    Numbers.  The pipeline is embedded twice.

    - [main] and its steps ([frame_reducer], [validity_masker],
      [peak_segmenter], [region_analyzer], [beam_analysis]) work on frames
      of finite values in exact arithmetic: pixel intensities, centroids
      and the exposure time are rationals ([Q]), equal up to [Qeq] ([==]).
      This is what the code computes up to the rounding of continuous
      quantities.
    - Module [Float64] embeds what binary64 arithmetic adds and what can
      change an outcome: the special values (infinities and nan, type
      [npfloat]) in the validity mask, the maximum, the threshold and the
      peak label; the rounding of the threshold; and the rounding of
      [centroid - ROI_SIZE] and [centroid + ROI_SIZE] to the nearest
      double together with the conversion of the window bounds to 64-bit
      integers, from which [flux_integrator] is built.  The two embeddings
      agree on the mask and the maximum of a finite frame
      ([validity_masker_finite], [np_max_finite]) and on the window
      whenever no bound is rounded or out of range
      ([flux_integrator_exact]).

    Arrays.  A numpy array is its shape and its elements in row-major (C)
    order, as numpy stores it.

    Strings.  A Python string is the list of its characters; the
    statements about white space and digits are made for strings of ASCII
    characters, on which the embedded [str.strip] and [int] are the
    code's.

    Exceptions.  Python exceptions are the constructors of [exn]; a
    computation that may raise lives in the monad [py].  The HDF5 reads and
    the write-back through [process_translation_element] are outside this
    development: [main] takes the two values read from the file and returns
    the translation elements it would hand to the writer. *)

From stdpp Require Import gmap strings list.
From Stdlib Require Import ZArith QArith Qminmax Qround Qabs Qpower Ascii DecimalString DecimalPos Lia Lqa.

Local Open Scope Q_scope.

(** ** Exceptions and the exception monad *)

(** [KeyError], [ValueError], [TypeError], [IndexError] and
    [OverflowError] are the Python exceptions the statements of [main] can
    raise; [SystemExit] is how argparse leaves the script on a malformed
    command line.  [ShapeError], [NoRegionFound] and [InvalidExposureTime]
    are the conditions named by the specification; they are listed so that
    claims about them can be stated, and no statement of the code raises
    them. *)
Inductive exn : Set :=
  | KeyError | ValueError | TypeError | IndexError | OverflowError | SystemExit
  | ShapeError | NoRegionFound | InvalidExposureTime.

Inductive py (A : Type) : Type :=
  | Returns (a : A)
  | Raises (e : exn).
Arguments Returns {A} a.
Arguments Raises {A} e.

#[global] Instance py_ret : MRet py := fun A a => Returns a.

#[global] Instance py_bind : MBind py := fun A B k c =>
  match c with
  | Returns a => k a
  | Raises e => Raises e
  end.

Definition returns {A : Type} (c : py A) : bool :=
  match c with Returns _ => true | Raises _ => false end.

(** ** numpy arrays *)

Record ndarray (A : Type) : Type := NdArray { shape : list nat; data : list A }.
Arguments NdArray {A} shape data.
Arguments shape {A} n.
Arguments data {A} n.

Definition ndim {A : Type} (a : ndarray A) : nat := length (shape a).

Definition size_of (sh : list nat) : nat := fold_right Nat.mul 1%nat sh.

(** Every numpy array holds exactly as many elements as its shape says. *)
Definition well_formed {A : Type} (a : ndarray A) : Prop :=
  length (data a) = size_of (shape a).

(** [a[i, j]] of a 2-D array stored row-major with rows of [w] elements. *)
Definition pixel (w : nat) (d : list Q) (i j : nat) : Q := nth (i * w + j) d 0.
Definition label_at (w : nat) (d : list Z) (i j : nat) : Z := nth (i * w + j) d 0%Z.

(** [chunks n len l]: the [n] consecutive blocks of [len] elements of [l];
    the sub-arrays [a[0]], ..., [a[n-1]] along axis 0. *)
Fixpoint chunks {A : Type} (n len : nat) (l : list A) : list (list A) :=
  match n with
  | O => []
  | S n' => firstn len l :: chunks n' len (skipn len l)
  end.

Definition vadd (u v : list Q) : list Q := zip_with Qplus u v.

(** Element-wise sum of the sub-arrays along axis 0. *)
Definition sum_axis0 (len : nat) (blocks : list (list Q)) : list Q :=
  fold_left vadd blocks (repeat 0 len).

(** [np.mean(a, axis=0)]: the sum along axis 0 divided by the length of that
    axis, for an axis that is not empty.  (On an axis of length 0 numpy
    yields nan with a warning, which a frame of rationals cannot hold: the
    statements about the mean assume [0 < n0].  On a 0-d array it raises;
    [main] calls it only when [ndim > 2].) *)
Definition np_mean_axis0 (a : ndarray Q) : ndarray Q :=
  match shape a with
  | [] => a
  | n0 :: rest =>
      NdArray rest
        (map (fun s => s / inject_Z (Z.of_nat n0))
             (sum_axis0 (size_of rest) (chunks n0 (size_of rest) (data a))))
  end.

(** [np.sum] and [ndarray.max] on finite values; the latter raises
    ValueError on an array without elements.  ([Float64.np_max] is the
    maximum of an array that may hold nan.) *)
Definition np_sum (d : list Q) : Q := fold_left Qplus d 0.

Definition np_max (a : ndarray Q) : py Q :=
  match data a with
  | [] => Raises ValueError
  | x :: xs => Returns (fold_left Qmax xs x)
  end.

Definition Qgtb (x y : Q) : bool := negb (Qle_bool x y).

(** Python's [int(x)] on a float: truncation towards zero. *)
Definition py_int (x : Q) : Z := Z.quot (Qnum x) (Zpos (Qden x)).

(** Python's adjustment of the bounds of a slice [start:stop] (step 1) of a
    sequence of [len] elements: a negative bound counts from the end, and
    both are clipped to [0, len]. *)
Definition slice_bound (len : nat) (i : Z) : nat :=
  if (i <? 0)%Z then Z.to_nat (Z.max (i + Z.of_nat len) 0)
  else Z.to_nat (Z.min i (Z.of_nat len)).

Definition py_slice {A : Type} (start stop : Z) (l : list A) : list A :=
  let s := slice_bound (length l) start in
  let e := slice_bound (length l) stop in
  firstn (e - s) (skipn s l).

(** [a[r0:r1, c0:c1]] of a 2-D array. *)
Definition slice2 (a : ndarray Q) (r0 r1 c0 c1 : Z) : ndarray Q :=
  match shape a with
  | [h; w] =>
      let rows := map (py_slice c0 c1) (py_slice r0 r1 (chunks h w (data a))) in
      NdArray [length rows; (slice_bound w c1 - slice_bound w c0)%nat] (concat rows)
  | _ => a
  end.

(** The result of a numpy floating-point division: dividing by zero gives
    an infinity or nan (with a warning), never an exception. *)
Inductive npfloat : Set :=
  | Finite (q : Q)
  | PosInf
  | NegInf
  | NaN.

Definition np_divide (x t : Q) : npfloat :=
  if Qeq_bool t 0 then
    if Qeq_bool x 0 then NaN
    else if Qle_bool 0 x then PosInf else NegInf
  else Finite (x / t).

(** ** Step 1: reduction to two dimensions (lines 72-73)

    [while imageData.ndim > 2: imageData = np.mean(imageData, axis=0)].
    Each iteration removes one axis, so [ndim] iterations always suffice
    (see [reduce_loop_unfold] and [reduce_loop_done]). *)
Fixpoint reduce_loop (fuel : nat) (imageData : ndarray Q) : ndarray Q :=
  match fuel with
  | O => imageData
  | S fuel' =>
      if (2 <? ndim imageData)%nat
      then reduce_loop fuel' (np_mean_axis0 imageData)
      else imageData
  end.

Definition frame_reducer (imageData : ndarray Q) : py (ndarray Q) :=
  Returns (reduce_loop (ndim imageData) imageData).

(** ** Step 2: validity mask (lines 76-77)

    On a frame of finite values; [Float64.validity_masker] is the same
    step on a frame that may hold infinities and nan. *)

Definition in_valid_range (x : Q) : bool := Qle_bool 0 x && Qle_bool x 1000000.

Definition labeled_foreground_of (imageData : ndarray Q) : ndarray Z :=
  NdArray (shape imageData)
          (map (fun x => if in_valid_range x then 1%Z else 0%Z) (data imageData)).

(** [imageData * labeled_foreground], element by element. *)
Definition apply_mask (imageData : ndarray Q) (labeled : ndarray Z) : ndarray Q :=
  NdArray (shape imageData)
          (zip_with (fun x m => x * inject_Z m) (data imageData) (data labeled)).

Definition validity_masker (imageData : ndarray Q) : ndarray Z * ndarray Q :=
  let labeled_foreground := labeled_foreground_of imageData in
  (labeled_foreground, apply_mask imageData labeled_foreground).

(** ** Step 3: threshold and peak label (lines 78-79)

    On a masked frame of finite values; [Float64.peak_segmenter] is the
    same step on a frame that may hold nan. *)

Definition threshold_of (m : Q) : Q := Qmax 1 ((1 # 10000) * m).

Definition label_above (threshold_value : Q) (masked : ndarray Q) : ndarray Z :=
  NdArray (shape masked)
          (map (fun x => if Qgtb x threshold_value then 1%Z else 0%Z) (data masked)).

Definition peak_segmenter (maskedTwoDImage : ndarray Q) : py (Q * ndarray Z) :=
  m ← np_max maskedTwoDImage;
  let threshold_value := threshold_of m in
  Returns (threshold_value, label_above threshold_value maskedTwoDImage).

(** ** Step 4: region properties (lines 80-82)

    [skimage.measure.regionprops(label_image, intensity_image)] is library
    code; it is embedded by its documented behaviour: one region per label
    value [1, 2, ...] that occurs in the label image, in increasing order of
    the label, and none for the background label 0; images that are neither
    2-D nor 3-D are refused with a TypeError.  After step 1 the image has at
    most two axes, so only the 2-D case is spelled out.  A region carries
    its pixels (row, column) in scan order, each with the value of the
    intensity image at that pixel. *)
Record RegionProperties : Type := Region {
  label : Z;
  pixels : list (nat * nat * Q)
}.

Definition region_of (w : nat) (lab : list Z) (intensity : list Q) (l : Z)
  : RegionProperties :=
  let ps := List.filter (fun p => Z.eqb (nth p lab 0%Z) l) (seq 0 (length lab)) in
  Region l (map (fun p => ((p / w)%nat, (p mod w)%nat, nth p intensity 0)) ps).

Definition regionprops (label_image : ndarray Z) (intensity_image : ndarray Q)
  : py (list RegionProperties) :=
  match shape label_image with
  | [h; w] =>
      let max_label := fold_left Z.max (data label_image) 0%Z in
      Returns
        (flat_map
           (fun l =>
              let r := region_of w (data label_image) (data intensity_image)
                                 (Z.of_nat l) in
              match pixels r with [] => [] | _ :: _ => [r] end)
           (seq 1 (Z.to_nat max_label)))
  | _ => Raises TypeError
  end.

Definition row_of (p : nat * nat * Q) : Q := inject_Z (Z.of_nat (fst (fst p))).
Definition col_of (p : nat * nat * Q) : Q := inject_Z (Z.of_nat (snd (fst p))).
Definition weight_of (p : nat * nat * Q) : Q := snd p.

(** [centroid]: the mean of the pixel coordinates. *)
Definition centroid (r : RegionProperties) : Q * Q :=
  let n := inject_Z (Z.of_nat (length (pixels r))) in
  (np_sum (map row_of (pixels r)) / n, np_sum (map col_of (pixels r)) / n).

(** [weighted_centroid]: the mean of the pixel coordinates weighted with the
    intensity image. *)
Definition weighted_centroid (r : RegionProperties) : Q * Q :=
  let total := np_sum (map weight_of (pixels r)) in
  (np_sum (map (fun p => row_of p * weight_of p) (pixels r)) / total,
   np_sum (map (fun p => col_of p * weight_of p) (pixels r)) / total).

(** [properties[0]] raises IndexError on an empty list. *)
Definition region_analyzer (labeled_peak : ndarray Z) (imageData : ndarray Q)
  : py ((Q * Q) * (Q * Q)) :=
  properties ← regionprops labeled_peak imageData;
  match properties with
  | [] => Raises IndexError
  | p0 :: _ => Returns (centroid p0, weighted_centroid p0)
  end.


(** ** Step 5: intensity in the region of interest and flux
       (lines 84-87, 90 and 108) *)

(** [a.shape[k]]; read only for 2-D arrays. *)
Definition shape_at {A : Type} (a : ndarray A) (k : nat) : nat := nth k (shape a) 0%nat.

(** The window bounds and the sum over the window in exact arithmetic, as
    [beam_analysis] uses them: [centroid - ROI_SIZE] and
    [centroid + ROI_SIZE] are not rounded and the bounds are unbounded
    integers.  [flux_integrator] below is the same computation with the
    rounding and the 64-bit integers of the code. *)
Definition roi_start (c : Q) (ROI_SIZE : Z) : Z :=
  Z.max (py_int (c - inject_Z ROI_SIZE)) 0.

Definition roi_stop (c : Q) (ROI_SIZE : Z) (len : nat) : Z :=
  Z.min (py_int (c + inject_Z ROI_SIZE)) (Z.of_nat len).

Definition roi_sum (maskedTwoDImage : ndarray Q) (weighted_center_of_mass : Q * Q)
    (ROI_SIZE : Z) : Q :=
  np_sum (data (slice2 maskedTwoDImage
    (roi_start (fst weighted_center_of_mass) ROI_SIZE)
    (roi_stop (fst weighted_center_of_mass) ROI_SIZE (shape_at maskedTwoDImage 0))
    (roi_start (snd weighted_center_of_mass) ROI_SIZE)
    (roi_stop (snd weighted_center_of_mass) ROI_SIZE (shape_at maskedTwoDImage 1)))).

(** ** Binary64 arithmetic: special values, rounding, 64-bit integers *)

Module Float64.

(** *** Rounding

    The result of an arithmetic operation on doubles is its exact result
    rounded to the nearest double, ties to the even significand.  [round]
    is this rounding of a rational: to precision 53, with the least
    exponent of binary64.  The largest exponent is not modelled: where
    [round] is used below, a result beyond the range of binary64 is
    refused as an integer beyond the range of int64 in any case. *)

(** The integer nearest to [x], the even one of two that are equally near. *)
Definition round_half_even (x : Q) : Z :=
  let f := Qfloor x in
  match Qcompare (x - inject_Z f) (1 # 2) with
  | Lt => f
  | Gt => (f + 1)%Z
  | Eq => if Z.even f then f else (f + 1)%Z
  end.

(** For [0 < x]: the exponent [e] with [2 ^ e <= x < 2 ^ (e + 1)]. *)
Definition log2_floor (x : Q) : Z :=
  let e0 := (Z.log2 (Qnum x) - Z.log2 (Zpos (Qden x)))%Z in
  if Qle_bool (2 ^ e0) x then e0 else (e0 - 1)%Z.

Definition round (x : Q) : Q :=
  if Qeq_bool x 0 then 0
  else
    let k := Z.max (log2_floor (Qabs x) - 52) (-1074) in
    inject_Z (round_half_even (x / 2 ^ k)) * 2 ^ k.

(** *** Special values (lines 76-79)

    A comparison is false as soon as an operand is nan.  A product with a
    nan factor is nan, and so is the product of an infinity and zero.
    [np.maximum] and [ndarray.max] return nan when an operand is nan. *)

Definition is_finite (x : npfloat) : bool :=
  match x with Finite _ => true | _ => false end.

Definition less_equal (x y : npfloat) : bool :=
  match x, y with
  | NaN, _ | _, NaN => false
  | NegInf, _ | _, PosInf => true
  | Finite a, Finite b => Qle_bool a b
  | _, _ => false
  end.

Definition less (x y : npfloat) : bool :=
  match x, y with
  | NaN, _ | _, NaN => false
  | _, _ => negb (less_equal y x)
  end.

Definition greater (x y : npfloat) : bool := less y x.
Definition greater_equal (x y : npfloat) : bool := less_equal y x.

(** The infinity with the sign of [positive * a], nan when [a] is zero. *)
Definition infinity_times (positive : bool) (a : Q) : npfloat :=
  match Qcompare a 0 with
  | Eq => NaN
  | Gt => if positive then PosInf else NegInf
  | Lt => if positive then NegInf else PosInf
  end.

(** The exact product; the product of line 77 is a value times 0 or 1,
    which no rounding changes. *)
Definition multiply (x y : npfloat) : npfloat :=
  match x, y with
  | NaN, _ | _, NaN => NaN
  | Finite a, Finite b => Finite (a * b)
  | Finite a, PosInf | PosInf, Finite a => infinity_times true a
  | Finite a, NegInf | NegInf, Finite a => infinity_times false a
  | PosInf, PosInf | NegInf, NegInf => PosInf
  | PosInf, NegInf | NegInf, PosInf => NegInf
  end.

(** A finite result rounded to a double. *)
Definition rounded (x : npfloat) : npfloat :=
  match x with
  | Finite q => Finite (round q)
  | _ => x
  end.

Definition maximum (x y : npfloat) : npfloat :=
  match x, y with
  | NaN, _ | _, NaN => NaN
  | _, _ => if less x y then y else x
  end.

Definition np_max (a : ndarray npfloat) : py npfloat :=
  match data a with
  | [] => Raises ValueError
  | x :: xs => Returns (fold_left maximum xs x)
  end.

(** [a[i, j]] of a 2-D array of floats. *)
Definition pixel (w : nat) (d : list npfloat) (i j : nat) : npfloat :=
  nth (i * w + j) d NaN.

(** A frame of finite values as an array of floats. *)
Definition of_finite (a : ndarray Q) : ndarray npfloat :=
  NdArray (shape a) (map Finite (data a)).

(** Lines 76-77:
    [(np.logical_and(imageData >= 0, imageData <= 1e6)).astype(int)] and
    [imageData * labeled_foreground]. *)
Definition in_valid_range (x : npfloat) : bool :=
  greater_equal x (Finite 0) && less_equal x (Finite 1000000).

Definition labeled_foreground_of (imageData : ndarray npfloat) : ndarray Z :=
  NdArray (shape imageData)
          (map (fun x => if in_valid_range x then 1%Z else 0%Z) (data imageData)).

Definition apply_mask (imageData : ndarray npfloat) (labeled : ndarray Z)
  : ndarray npfloat :=
  NdArray (shape imageData)
          (zip_with (fun x m => multiply x (Finite (inject_Z m)))
                    (data imageData) (data labeled)).

Definition validity_masker (imageData : ndarray npfloat)
  : ndarray Z * ndarray npfloat :=
  let labeled_foreground := labeled_foreground_of imageData in
  (labeled_foreground, apply_mask imageData labeled_foreground).

(** Lines 78-79: [np.maximum(1, 0.0001 * maskedTwoDImage.max())] and
    [(maskedTwoDImage > threshold_value).astype(int)].  The literal 0.0001
    is the double nearest to 1/10000, and its product with the maximum is
    rounded to a double. *)
Definition point_0001 : Q := 7378697629483821 # 73786976294838206464.

Definition threshold_of (m : npfloat) : npfloat :=
  maximum (Finite 1) (rounded (multiply (Finite point_0001) m)).

Definition label_above (threshold_value : npfloat) (masked : ndarray npfloat)
  : ndarray Z :=
  NdArray (shape masked)
          (map (fun x => if greater x threshold_value then 1%Z else 0%Z) (data masked)).

Definition peak_segmenter (maskedTwoDImage : ndarray npfloat)
  : py (npfloat * ndarray Z) :=
  m ← np_max maskedTwoDImage;
  let threshold_value := threshold_of m in
  Returns (threshold_value, label_above threshold_value maskedTwoDImage).

(** *** 64-bit integers (lines 84-87)

    The centroid is a double and ROI_SIZE a Python integer:
    [centroid - ROI_SIZE] converts ROI_SIZE to a double and subtracts, and
    each of the two operations rounds.  [int] makes an unbounded integer
    of the result, which [np.maximum] and [np.minimum] convert to a 64-bit
    integer, raising OverflowError when it does not fit.  (The conversion
    of a ROI_SIZE beyond the range of binary64 to a double, and [int] of
    an infinity, raise that same OverflowError.) *)

Definition in_int64 (z : Z) : bool := ((- 2 ^ 63 <=? z) && (z <? 2 ^ 63))%Z.

Definition int64 (z : Z) : py Z :=
  if in_int64 z then Returns z else Raises OverflowError.

(** [centroid - ROI_SIZE] and [centroid + ROI_SIZE] in double precision. *)
Definition subtract (c : Q) (ROI_SIZE : Z) : Q := round (c - round (inject_Z ROI_SIZE)).
Definition add (c : Q) (ROI_SIZE : Z) : Q := round (c + round (inject_Z ROI_SIZE)).

(** [np.maximum(int(c - ROI_SIZE), 0)] and
    [np.minimum(int(c + ROI_SIZE), len)]. *)
Definition roi_start (c : Q) (ROI_SIZE : Z) : py Z :=
  lo ← int64 (py_int (subtract c ROI_SIZE));
  Returns (Z.max lo 0).

Definition roi_stop (c : Q) (ROI_SIZE : Z) (len : nat) : py Z :=
  hi ← int64 (py_int (add c ROI_SIZE));
  Returns (Z.min hi (Z.of_nat len)).

End Float64.

(** The Flux Integrator, lines 84-87 and 108, on a masked frame of finite
    values: the four bounds in the order in which the code evaluates them,
    the sum over the slice, and the quotient by the exposure time. *)
Definition flux_integrator (maskedTwoDImage : ndarray Q)
    (weighted_center_of_mass : Q * Q) (ROI_SIZE : Z) (recordingTime : Q)
  : py (Q * npfloat) :=
  r0 ← Float64.roi_start (fst weighted_center_of_mass) ROI_SIZE;
  r1 ← Float64.roi_stop (fst weighted_center_of_mass) ROI_SIZE
         (shape_at maskedTwoDImage 0);
  c0 ← Float64.roi_start (snd weighted_center_of_mass) ROI_SIZE;
  c1 ← Float64.roi_stop (snd weighted_center_of_mass) ROI_SIZE
         (shape_at maskedTwoDImage 1);
  let ITotal_region := np_sum (data (slice2 maskedTwoDImage r0 r1 c0 c1)) in
  Returns (ITotal_region, np_divide ITotal_region recordingTime).

(** ** Input parameters (line 60) *)

(** The white space [int] skips around an ASCII numeral: tab to carriage
    return, and the space. *)
Definition is_space (c : ascii) : bool :=
  let n := nat_of_ascii c in
  ((9 <=? n) && (n <=? 13) || (n =? 32))%nat.

(** ASCII characters, and texts made of them. *)
Definition is_ascii (c : ascii) : bool := (nat_of_ascii c <? 128)%nat.

Definition ascii_only (l : list ascii) : Prop := Forall (fun c => is_ascii c = true) l.

Definition ascii_string (s : string) : Prop := ascii_only (String.list_ascii_of_string s).

Definition digit_of (c : ascii) : option Z :=
  let n := nat_of_ascii c in
  if ((48 <=? n) && (n <=? 57))%nat then Some (Z.of_nat (n - 48)) else None.

Fixpoint lstrip (l : list ascii) : list ascii :=
  match l with
  | c :: r => if is_space c then lstrip r else l
  | [] => []
  end.

Definition strip (l : list ascii) : list ascii := rev (lstrip (rev (lstrip l))).

(** Decimal digits, single underscores allowed between two digits. *)
Fixpoint parse_digits (acc : Z) (after_digit : bool) (l : list ascii) : option Z :=
  match l with
  | [] => if after_digit then Some acc else None
  | c :: r =>
      match digit_of c with
      | Some d => parse_digits (10 * acc + d)%Z true r
      | None =>
          if Ascii.eqb c "_" && after_digit then parse_digits acc false r else None
      end
  end.

(** The number of digits of a numeral, underscores not counted, and the
    largest number of digits [int] accepts
    ([sys.int_info.default_max_str_digits]). *)
Definition count_digits (l : list ascii) : nat :=
  length (List.filter (fun c => match digit_of c with Some _ => true | None => false end) l).

Definition max_str_digits : nat := 4300.

(** Python's [int(s)] on a string of ASCII characters: surrounding white
    space is ignored, one sign is allowed, anything that is not a decimal
    integer literal raises ValueError, and so does a literal of more than
    4300 digits. *)
Definition parse_signed (l : list ascii) : option Z :=
  match l with
  | "-"%char :: r => Z.opp <$> parse_digits 0 false r
  | "+"%char :: r => parse_digits 0 false r
  | l => parse_digits 0 false l
  end.

Definition int_of_str (s : string) : py Z :=
  let body := strip (String.list_ascii_of_string s) in
  match parse_signed body with
  | Some z =>
      if (count_digits body <=? max_str_digits)%nat then Returns z
      else Raises ValueError
  | None => Raises ValueError
  end.

(** [ROI_SIZE = 25 if keyvals is None else int(keyvals['roi_size'])];
    the key-value pairs of the command line are strings. *)
Definition roi_size_of (keyvals : option (gmap string string)) : py Z :=
  match keyvals with
  | None => Returns 25%Z
  | Some kv =>
      match kv !! "roi_size"%string with
      | Some v => int_of_str v
      | None => Raises KeyError
      end
  end.

(** ** The pipeline *)

(** The local variables of [main] once line 87 has run. *)
Record analysis : Type := Analysis {
  imageData2D : ndarray Q;
  labeled_foreground : ndarray Z;
  maskedTwoDImage : ndarray Q;
  threshold_value : Q;
  labeled_peak : ndarray Z;
  center_of_mass : Q * Q;
  weighted_center_of_mass : Q * Q;
  ITotal_region : Q
}.

Definition beam_analysis (imageData : ndarray Q) (ROI_SIZE : Z) : py analysis :=
  imageData ← frame_reducer imageData;
  let '(labeled_foreground, maskedTwoDImage) := validity_masker imageData in
  '(threshold_value, labeled_peak) ← peak_segmenter maskedTwoDImage;
  '(center_of_mass, weighted_center_of_mass) ← region_analyzer labeled_peak imageData;
  let ITotal_region := roi_sum maskedTwoDImage weighted_center_of_mass ROI_SIZE in
  Returns (Analysis imageData labeled_foreground maskedTwoDImage threshold_value
                    labeled_peak center_of_mass weighted_center_of_mass
                    ITotal_region).

Inductive value : Type :=
  | Coordinates (c : Q * Q)
  | Scalar (x : npfloat).

Record TranslationElement : Type := {
  destination : string;
  minimum_dimensionality : nat;
  data_type : string;
  default_value : value;
  destination_units : string;
  attributes : list (string * string)
}.

Definition TElements_of (a : analysis) (recordingTime : Q) : list TranslationElement :=
  [ {| destination := "/entry/sample/beam/beamAnalysis/centerOfMass";
       minimum_dimensionality := 1;
       data_type := "float32";
       default_value := Coordinates (center_of_mass a);
       destination_units := "px";
       attributes := [("note"%string,
                       "Determined by a post-translation processing script."%string)] |};
    {| destination := "/entry/sample/beam/beamAnalysis/flux";
       minimum_dimensionality := 1;
       data_type := "float";
       default_value := Scalar (np_divide (ITotal_region a) recordingTime);
       destination_units := "counts/s";
       attributes := [("note"%string,
                       "Determined by a post-translation processing script."%string)] |} ].

(** [main], from the values read from the file ([imageData],
    [recordingTime]) to the elements handed to the writer. *)
Definition main (imageData : ndarray Q) (recordingTime : Q)
    (keyvals : option (gmap string string)) : py (list TranslationElement) :=
  ROI_SIZE ← roi_size_of keyvals;
  a ← beam_analysis imageData ROI_SIZE;
  Returns (TElements_of a recordingTime).


Definition center_path : string := "/entry/sample/beam/beamAnalysis/centerOfMass".

(** ** Key-value pairs of the command line (lines 142-152)

    [KeyValueAction.__call__]: every item is split at its first '=' into a
    key and a value, both are stripped of surrounding white space and stored
    in a dict, a later item replacing an earlier one with the same key.  An
    item without '=' makes the unpacking [key, value = item.split('=', 1)]
    raise ValueError, before the dict is stored in the namespace. *)

(** The ASCII characters that [str.strip()] removes: tab to carriage
    return, the separators 28-31 and the space.  ([str.strip()] removes
    further characters beyond the ASCII range, such as the no-break space;
    the statements about stripping are made for ASCII texts.) *)
Definition py_isspace (c : ascii) : bool :=
  let n := nat_of_ascii c in
  ((9 <=? n) && (n <=? 13) || (28 <=? n) && (n <=? 32))%nat.

Fixpoint py_lstrip (l : list ascii) : list ascii :=
  match l with
  | c :: r => if py_isspace c then py_lstrip r else l
  | [] => []
  end.

Definition py_strip (l : list ascii) : list ascii :=
  rev (py_lstrip (rev (py_lstrip l))).

(** A text that neither starts nor ends with white space. *)
Definition starts_clean (l : list ascii) : Prop :=
  match l with
  | c :: _ => py_isspace c = false
  | [] => True
  end.

Definition trimmed (l : list ascii) : Prop := starts_clean l /\ starts_clean (rev l).

Definition all_space (l : list ascii) : Prop := Forall (fun c => py_isspace c = true) l.

(** [item.split('=', 1)] when the item contains '=': the text before the
    first '=' and the text after it; [None] when there is no '='. *)
Fixpoint split_first_equals (l : list ascii) : option (list ascii * list ascii) :=
  match l with
  | [] => None
  | c :: r =>
      if Ascii.eqb c "="
      then Some ([], r)
      else match split_first_equals r with
           | Some (key, value) => Some (c :: key, value)
           | None => None
           end
  end.

Definition stripped (l : list ascii) : string := String.string_of_list_ascii (py_strip l).

Fixpoint key_value_loop (keyvals : gmap string string) (values : list string)
  : py (gmap string string) :=
  match values with
  | [] => Returns keyvals
  | item :: rest =>
      match split_first_equals (String.list_ascii_of_string item) with
      | Some (key, value) =>
          key_value_loop (<[stripped key := stripped value]> keyvals) rest
      | None => Raises ValueError
      end
  end.

Definition KeyValueAction_call (values : list string) : py (gmap string string) :=
  key_value_loop ∅ values.

(** ** The script (lines 155-204)

    [main(args.filename, args.auxilary_files, args.keyvals)], where
    [args.keyvals] is [None] without the option [-k] and the dict built by
    [KeyValueAction] from the items that follow [-k] otherwise.  The option
    is declared with [nargs='+']: without an item after [-k], argparse
    reports an error and leaves through SystemExit before the action or
    [main] run.  The validation of the file names and the logging are
    outside this development. *)
Definition run_script (k_items : option (list string)) (imageData : ndarray Q)
    (recordingTime : Q) : py (list TranslationElement) :=
  match k_items with
  | None => main imageData recordingTime None
  | Some [] => Raises SystemExit
  | Some values =>
      keyvals ← KeyValueAction_call values;
      main imageData recordingTime (Some keyvals)
  end.

(** Python's [str(n)] for an integer: its decimal numeral, with a minus
    sign when it is negative; used to state what [int] makes of it. *)
Definition py_str_of_int (z : Z) : string :=
  DecimalString.NilZero.string_of_int (Z.to_int z).

(** The characters of a sequence of decimal digits. *)
Definition digit_chars (u : Decimal.uint) : list ascii :=
  String.list_ascii_of_string (NilEmpty.string_of_uint u).

(** The pixels of rows [r0, ..., r1 - 1] and columns [c0, ..., c1 - 1] of a
    frame with rows of [w] pixels, row by row; used to state what a region
    of interest contains. *)
Definition window_pixels (w : nat) (d : list Q) (r0 r1 c0 c1 : nat) : list (list Q) :=
  map (fun i => map (fun j => pixel w d i j) (seq c0 (c1 - c0))) (seq r0 (r1 - r0)).

(** ** Example inputs *)

Definition stack_2x1x2 : ndarray Q := NdArray [2; 1; 2]%nat [1; 2; 3; 4].
Definition vector_3 : ndarray Q := NdArray [3]%nat [0; 5; 0].

(** A frame with a pixel beyond the valid range, (0,0), and two pixels
    above the threshold, (0,1) and (1,1). *)
Definition frame_2x3 : ndarray Q := NdArray [2; 3]%nat [2000000; 5; 0; 0; 100; 0].

(** A single bright pixel in the middle of a dark 3x3 frame. *)
Definition spot_3x3 : ndarray Q := NdArray [3; 3]%nat [0; 0; 0; 0; 1000; 0; 0; 0; 0].

Definition zeros_2x2 : ndarray Q := NdArray [2; 2]%nat [0; 0; 0; 0].

(** An all-ones frame. *)
Definition ones (h w : nat) : ndarray Q := NdArray [h; w] (repeat 1 (h * w)).

(** A row with an infinite, a nan, a negative and a valid pixel. *)
Definition row_inf_nan : ndarray npfloat :=
  NdArray [1; 4]%nat [PosInf; NaN; Finite (-3); Finite 7].

(** A column of five rows holding 1, 2, 3, 4 and 5. *)
Definition column_5 : ndarray Q := NdArray [5; 1]%nat [1; 2; 3; 4; 5].

(** The largest double below 4: [4 - 2 ^ -51], printed as
    3.9999999999999996. *)
Definition below_four : Q := 4 - (1 # 2251799813685248).

(** * Properties *)

(** ** Sums of rationals *)

Lemma fold_Qplus_acc (l : list Q) (a : Q) : fold_left Qplus l a == a + np_sum l.
Proof.
  unfold np_sum. revert a.
  induction l as [|x l IH]; intros a; simpl.
  - ring.
  - rewrite (IH (a + x)), (IH (0 + x)). ring.
Qed.

Lemma np_sum_cons (x : Q) (l : list Q) : np_sum (x :: l) == x + np_sum l.
Proof. unfold np_sum at 1. simpl. rewrite fold_Qplus_acc. ring. Qed.

Lemma np_sum_app (l1 l2 : list Q) : np_sum (l1 ++ l2) == np_sum l1 + np_sum l2.
Proof.
  induction l1 as [|x l1 IH]; simpl.
  - unfold np_sum at 2. simpl. ring.
  - rewrite !np_sum_cons, IH. ring.
Qed.

Lemma np_sum_concat (ls : list (list Q)) :
  np_sum (concat ls) == np_sum (map np_sum ls).
Proof.
  induction ls as [|l ls IH]; simpl.
  - reflexivity.
  - rewrite np_sum_app, np_sum_cons, IH. reflexivity.
Qed.

Lemma np_sum_map_ext {A : Type} (f g : A -> Q) (l : list A) :
  (forall x, In x l -> f x == g x) -> np_sum (map f l) == np_sum (map g l).
Proof.
  induction l as [|x l IH]; intros H; simpl.
  - reflexivity.
  - rewrite !np_sum_cons, IH, (H x); [reflexivity | now left |].
    intros y Hy. apply H. now right.
Qed.

Lemma np_sum_const {A : Type} (x : Q) (l : list A) :
  np_sum (map (fun _ => x) l) == inject_Z (Z.of_nat (length l)) * x.
Proof.
  induction l as [|y l IH].
  - simpl. unfold np_sum. simpl. ring.
  - cbn [map length]. rewrite np_sum_cons, IH, Nat2Z.inj_succ.
    unfold Z.succ. rewrite inject_Z_plus. ring.
Qed.

Lemma np_sum_nonneg (l : list Q) : (forall x, In x l -> 0 <= x) -> 0 <= np_sum l.
Proof.
  induction l as [|x l IH]; intros H.
  - unfold np_sum. simpl. apply Qle_refl.
  - rewrite np_sum_cons.
    replace 0 with (0 + 0) by reflexivity.
    apply Qplus_le_compat; [apply H; now left | apply IH; intros y Hy; apply H; now right].
Qed.

(** ** Rounding to binary64 *)

Lemma two_power_pos (z : Z) : 0 < 2 ^ z.
Proof. apply Qpower_0_lt. reflexivity. Qed.

Lemma two_power_succ (z : Z) : 2 ^ (z + 1) == 2 * 2 ^ z.
Proof. rewrite Qpower_plus by discriminate. rewrite Qpower_1_r. ring. Qed.

Lemma two_power_le (a b : Z) : (a <= b)%Z -> 2 ^ a <= 2 ^ b.
Proof. intros H. apply Qpower_le_compat_l; [exact H | discriminate]. Qed.

Lemma two_power_Z (n : Z) : (0 <= n)%Z -> 2 ^ n == inject_Z (2 ^ n).
Proof. intros H. now rewrite Zpower_Qpower. Qed.

(* 2^(a-b) as a quotient of integer powers *)
Lemma two_power_sub (a b : Z) : 2 ^ (a - b) == 2 ^ a / 2 ^ b.
Proof. apply Qpower_minus. discriminate. Qed.

Lemma Qdiv_le_cross (A B N D : Q) :
  0 <= A -> 0 < B -> 0 < D -> A <= N -> D <= B -> A / B <= N / D.
Proof.
  intros HA HB HD HAN HDB. apply Qle_shift_div_r; [exact HB|].
  unfold Qdiv. assert (Hu : 0 < / D) by now apply Qinv_lt_0_compat.
  assert (E : D * / D == 1) by (apply Qmult_inv_r; lra).
  assert (HNu : 0 <= N * / D) by (apply Qmult_le_0_compat; lra).
  revert Hu E HNu. generalize (/ D). intros u Hu E HNu. nra.
Qed.

Lemma Qdiv_lt_cross (N D P B : Q) :
  0 <= N -> 0 < B -> 0 < D -> N < P -> B <= D -> N / D < P / B.
Proof.
  intros HN HB HD HNP HBD. apply Qlt_shift_div_l; [exact HB|].
  unfold Qdiv. assert (Hu : 0 < / D) by now apply Qinv_lt_0_compat.
  assert (E : D * / D == 1) by (apply Qmult_inv_r; lra).
  assert (HNu : 0 <= N * / D) by (apply Qmult_le_0_compat; lra).
  revert Hu E HNu. generalize (/ D). intros u Hu E HNu. nra.
Qed.

Lemma log2_floor_spec (x : Q) :
  0 < x -> 2 ^ Float64.log2_floor x <= x /\ x < 2 ^ (Float64.log2_floor x + 1).
Proof.
  intros Hx. unfold Float64.log2_floor. cbv zeta.
  destruct x as [n d]. cbn [Qnum Qden].
  assert (Hn : (0 < n)%Z) by (unfold Qlt in Hx; simpl in Hx; lia).
  pose proof (Z.log2_spec n Hn) as [Ha0 Ha1].
  pose proof (Z.log2_spec (Z.pos d) (Pos2Z.is_pos d)) as [Hb0 Hb1].
  pose proof (Z.log2_nonneg n) as Ha. pose proof (Z.log2_nonneg (Z.pos d)) as Hb.
  set (a := Z.log2 n) in *. set (b := Z.log2 (Z.pos d)) in *.
  assert (Ex : n # d == inject_Z n / inject_Z (Z.pos d)) by apply Qmake_Qdiv.
  assert (Hdq : 0 < inject_Z (Z.pos d)) by reflexivity.
  assert (Hnq : 0 <= inject_Z n) by (change 0 with (inject_Z 0); rewrite <- Zle_Qle; lia).
  assert (Hpow : forall z : Z, (0 <= z)%Z -> 0 < inject_Z (2 ^ z)).
  { intros z Hz. rewrite <- (two_power_Z z) by exact Hz. apply two_power_pos. }
  assert (Hup : n # d < 2 ^ (a - b + 1)).
  { replace (a - b + 1)%Z with ((a + 1) - b)%Z by lia.
    rewrite two_power_sub, Ex.
    rewrite (two_power_Z (a + 1)) by lia. rewrite (two_power_Z b) by lia.
    apply Qdiv_lt_cross; [exact Hnq | apply Hpow; lia | exact Hdq | |].
    - rewrite <- Zlt_Qlt. replace (a + 1)%Z with (Z.succ a) by lia. exact Ha1.
    - rewrite <- Zle_Qle. exact Hb0. }
  assert (Hlow : 2 ^ (a - b - 1) <= n # d).
  { replace (a - b - 1)%Z with (a - (b + 1))%Z by lia.
    rewrite two_power_sub, Ex.
    rewrite (two_power_Z a) by lia. rewrite (two_power_Z (b + 1)) by lia.
    apply Qdiv_le_cross; [apply Qlt_le_weak, Hpow; lia | apply Hpow; lia | exact Hdq | |].
    - rewrite <- Zle_Qle. exact Ha0.
    - rewrite <- Zle_Qle. replace (b + 1)%Z with (Z.succ b) by lia. lia. }
  destruct (Qle_bool (2 ^ (a - b)) (n # d)) eqn:E.
  - apply Qle_bool_iff in E. split; [exact E | exact Hup].
  - split; [exact Hlow|].
    replace (a - b - 1 + 1)%Z with (a - b)%Z by lia.
    apply Qnot_le_lt. intros H. apply Qle_bool_iff in H. congruence.
Qed.

Lemma round_half_even_Z (n : Z) : Float64.round_half_even (inject_Z n) = n.
Proof.
  unfold Float64.round_half_even. cbv zeta. rewrite Qfloor_Z.
  assert (E : inject_Z n - inject_Z n == 0) by ring.
  destruct (Qcompare_spec (inject_Z n - inject_Z n) (1 # 2)) as [H|H|H];
    rewrite E in H; try discriminate; reflexivity.
Qed.

Lemma round_half_even_mono (u v : Q) :
  u <= v -> (Float64.round_half_even u <= Float64.round_half_even v)%Z.
Proof.
  intros Huv. pose proof (Qfloor_resp_le u v Huv) as Hf.
  unfold Float64.round_half_even. cbv zeta.
  pose proof (Qfloor_le u) as Hu0. pose proof (Qlt_floor u) as Hu1.
  pose proof (Qfloor_le v) as Hv0. pose proof (Qlt_floor v) as Hv1.
  destruct (Z.eq_dec (Qfloor u) (Qfloor v)) as [E|E].
  - rewrite <- E in *. 
    destruct (Qcompare_spec (u - inject_Z (Qfloor u)) (1 # 2)) as [H1|H1|H1];
      destruct (Qcompare_spec (v - inject_Z (Qfloor u)) (1 # 2)) as [H2|H2|H2];
      try (destruct (Z.even (Qfloor u))); try lia;
      exfalso; revert Huv H1 H2; generalize (inject_Z (Qfloor u)); intros f Huv H1 H2; lra.
  - assert (Hlt : (Qfloor u + 1 <= Qfloor v)%Z) by lia.
    assert (A : (Float64.round_half_even u <= Qfloor u + 1)%Z).
    { unfold Float64.round_half_even. cbv zeta.
      destruct (Qcompare _ _); [destruct (Z.even _)|..]; lia. }
    assert (B : (Qfloor v <= Float64.round_half_even v)%Z).
    { unfold Float64.round_half_even. cbv zeta.
      destruct (Qcompare _ _); [destruct (Z.even _)|..]; lia. }
    unfold Float64.round_half_even in A, B. cbv zeta in A, B. lia.
Qed.

Lemma log2_floor_mono (x y : Q) :
  0 < x -> x <= y -> (Float64.log2_floor x <= Float64.log2_floor y)%Z.
Proof.
  intros Hx Hxy.
  destruct (log2_floor_spec x Hx) as [Hx0 _].
  destruct (log2_floor_spec y) as [_ Hy1]; [lra|].
  assert (H : 2 ^ Float64.log2_floor x < 2 ^ (Float64.log2_floor y + 1)) by lra.
  apply Qpower_lt_compat_l_inv in H; [lia | reflexivity].
Qed.

Lemma Qabs_pos_eq (x : Q) : 0 < x -> Qabs x = x.
Proof.
  destruct x as [[|p|p] d]; unfold Qlt; simpl; intros H; try reflexivity; lia.
Qed.

Lemma round_pos_unfold (x : Q) :
  0 < x ->
  Float64.round x
  = inject_Z (Float64.round_half_even
                (x / 2 ^ Z.max (Float64.log2_floor x - 52) (-1074)))
    * 2 ^ Z.max (Float64.log2_floor x - 52) (-1074).
Proof.
  intros Hx. unfold Float64.round.
  destruct (Qeq_bool x 0) eqn:E.
  - apply Qeq_bool_iff in E. rewrite E in Hx. discriminate.
  - now rewrite (Qabs_pos_eq x Hx).
Qed.

Lemma Qdiv_two_power (a b : Z) : 2 ^ a / 2 ^ b == 2 ^ (a - b).
Proof. symmetry. apply two_power_sub. Qed.

(** Rounding to a double is monotone on the numbers that are not
    negative. *)
Lemma round_mono_pos (x y : Q) : 0 < x -> x <= y -> Float64.round x <= Float64.round y.
Proof.
  intros Hx Hxy. assert (Hy : 0 < y) by lra.
  rewrite (round_pos_unfold x Hx), (round_pos_unfold y Hy).
  pose proof (log2_floor_mono x y Hx Hxy) as He.
  destruct (log2_floor_spec x Hx) as [Hx0 Hx1].
  destruct (log2_floor_spec y Hy) as [Hy0 Hy1].
  set (ex := Float64.log2_floor x) in *. set (ey := Float64.log2_floor y) in *.
  set (kx := Z.max (ex - 52) (-1074)). set (ky := Z.max (ey - 52) (-1074)).
  assert (Hk : (kx <= ky)%Z) by (subst kx ky; lia).
  pose proof (two_power_pos kx) as Hpx. pose proof (two_power_pos ky) as Hpy.
  destruct (Z.eq_dec kx ky) as [E|E].
  - rewrite <- E in *.
    assert (Hm : (Float64.round_half_even (x / 2 ^ kx)
                  <= Float64.round_half_even (y / 2 ^ kx))%Z).
    { apply round_half_even_mono. apply Qle_shift_div_l; [exact Hpx|].
      unfold Qdiv. rewrite <- Qmult_assoc, (Qmult_comm (/ _)), Qmult_inv_r by lra.
      now rewrite Qmult_1_r. }
    rewrite Zle_Qle in Hm. revert Hm Hpx.
    generalize (inject_Z (Float64.round_half_even (x / 2 ^ kx)))
      (inject_Z (Float64.round_half_even (y / 2 ^ kx))) (2 ^ kx).
    intros a b p Hm Hp. nra.
  - assert (Hky : ky = (ey - 52)%Z) by (subst kx ky; lia).
    assert (Hex : (ex + 1 <= ey)%Z) by (subst kx ky; lia).
    assert (HN : (0 <= ey - kx)%Z) by (subst kx ky; lia).
    (* round y >= 2^ey *)
    assert (Hylow : 2 ^ ey <= inject_Z (Float64.round_half_even (y / 2 ^ ky)) * 2 ^ ky).
    { assert (Hm : (2 ^ 52 <= Float64.round_half_even (y / 2 ^ ky))%Z).
      { rewrite <- (round_half_even_Z (2 ^ 52)). apply round_half_even_mono.
        rewrite <- two_power_Z by lia. apply Qle_shift_div_l; [exact Hpy|].
        rewrite <- Qpower_plus by discriminate.
        replace (52 + ky)%Z with ey by lia. exact Hy0. }
      rewrite Zle_Qle in Hm. rewrite <- two_power_Z in Hm by lia.
      assert (E2 : 2 ^ ey == 2 ^ 52 * 2 ^ ky).
      { rewrite <- Qpower_plus by discriminate. now replace (52 + ky)%Z with ey by lia. }
      rewrite E2. apply Qmult_le_compat_r; [exact Hm | lra]. }
    (* round x <= 2^ey *)
    assert (Hxup : inject_Z (Float64.round_half_even (x / 2 ^ kx)) * 2 ^ kx <= 2 ^ ey).
    { assert (Hm : (Float64.round_half_even (x / 2 ^ kx) <= 2 ^ (ey - kx))%Z).
      { rewrite <- (round_half_even_Z (2 ^ (ey - kx))). apply round_half_even_mono.
        rewrite <- two_power_Z by lia. apply Qle_shift_div_r; [exact Hpx|].
        rewrite <- Qpower_plus by discriminate.
        replace (ey - kx + kx)%Z with ey by lia.
        apply Qlt_le_weak. eapply Qlt_le_trans; [exact Hx1|]. now apply two_power_le. }
      rewrite Zle_Qle in Hm. rewrite <- two_power_Z in Hm by lia.
      assert (E2 : 2 ^ ey == 2 ^ (ey - kx) * 2 ^ kx).
      { rewrite <- Qpower_plus by discriminate. now replace (ey - kx + kx)%Z with ey by lia. }
      rewrite E2. apply Qmult_le_compat_r; [exact Hm | lra]. }
    lra.
Qed.

Lemma round_half_even_near (y : Q) :
  y - (1 # 2) <= inject_Z (Float64.round_half_even y) /\
  inject_Z (Float64.round_half_even y) <= y + (1 # 2).
Proof.
  unfold Float64.round_half_even. cbv zeta.
  pose proof (Qfloor_le y) as Hlo. pose proof (Qlt_floor y) as Hhi.
  rewrite inject_Z_plus in Hhi. change (inject_Z 1) with 1 in Hhi.
  destruct (Qcompare_spec (y - inject_Z (Qfloor y)) (1 # 2)) as [E|E|E].
  - destruct (Z.even (Qfloor y)); rewrite ?inject_Z_plus; change (inject_Z 1) with 1;
      revert E Hlo Hhi; generalize (inject_Z (Qfloor y)); intros f E Hlo Hhi; lra.
  - revert E Hlo Hhi; generalize (inject_Z (Qfloor y)); intros f E Hlo Hhi; lra.
  - rewrite inject_Z_plus. change (inject_Z 1) with 1.
    revert E Hlo Hhi; generalize (inject_Z (Qfloor y)); intros f E Hlo Hhi; lra.
Qed.

Lemma round_half_even_small (y : Q) :
  - (1 # 2) < y -> y < 1 # 2 -> Float64.round_half_even y = 0%Z.
Proof.
  intros H1 H2. destruct (round_half_even_near y) as [Hlo Hhi].
  assert (A : (-1 < Float64.round_half_even y)%Z).
  { rewrite Zlt_Qlt. revert Hlo. generalize (inject_Z (Float64.round_half_even y)).
    intros r Hlo. change (inject_Z (-1)) with (-1). lra. }
  assert (B : (Float64.round_half_even y < 1)%Z).
  { rewrite Zlt_Qlt. revert Hhi. generalize (inject_Z (Float64.round_half_even y)).
    intros r Hhi. change (inject_Z 1) with 1. lra. }
  lia.
Qed.

Lemma round_half_even_double (y : Q) :
  - (2 * Qabs y) <= inject_Z (Float64.round_half_even y) /\
  inject_Z (Float64.round_half_even y) <= 2 * Qabs y.
Proof.
  destruct (Qlt_le_dec (- (1 # 2)) y) as [H1|H1].
  - destruct (Qlt_le_dec y (1 # 2)) as [H2|H2].
    + rewrite (round_half_even_small y H1 H2). pose proof (Qabs_nonneg y).
      change (inject_Z 0) with 0. lra.
    + destruct (round_half_even_near y) as [Hlo Hhi].
      rewrite (Qabs_pos y) by lra. lra.
  - destruct (round_half_even_near y) as [Hlo Hhi].
    rewrite (Qabs_neg y) by lra. lra.
Qed.

Lemma round_double (x : Q) :
  - (2 * Qabs x) <= Float64.round x /\ Float64.round x <= 2 * Qabs x.
Proof.
  unfold Float64.round. destruct (Qeq_bool x 0) eqn:E0.
  - pose proof (Qabs_nonneg x). lra.
  - cbv zeta. set (k := Z.max _ _).
    assert (Hk : 0 < 2 ^ k) by (apply Qpower_0_lt; reflexivity).
    destruct (round_half_even_double (x / 2 ^ k)) as [Hlo Hhi].
    assert (Habs : Qabs (x / 2 ^ k) * 2 ^ k == Qabs x).
    { unfold Qdiv. rewrite Qabs_Qmult. rewrite (Qabs_pos (/ 2 ^ k)).
      - field. lra.
      - apply Qlt_le_weak. now apply Qinv_lt_0_compat. }
    revert Hlo Hhi Habs. generalize (inject_Z (Float64.round_half_even (x / 2 ^ k))).
    generalize (Qabs (x / 2 ^ k)). generalize (Qabs x). generalize (2 ^ k) Hk.
    intros p Hp ax ay r Hlo Hhi Habs. split; nra.
Qed.

Lemma round_half_even_nonneg (y : Q) : 0 <= y -> (0 <= Float64.round_half_even y)%Z.
Proof.
  intros Hy. rewrite <- (round_half_even_Z 0). now apply round_half_even_mono.
Qed.

(** Rounding keeps the sign, and zero. *)
Lemma round_nonneg (x : Q) : 0 <= x -> 0 <= Float64.round x.
Proof.
  intros Hx. unfold Float64.round. destruct (Qeq_bool x 0); [apply Qle_refl|].
  cbv zeta. set (k := Z.max _ _).
  assert (Hk : 0 < 2 ^ k) by apply two_power_pos.
  apply Qmult_le_0_compat; [|now apply Qlt_le_weak].
  change 0 with (inject_Z 0). rewrite <- Zle_Qle.
  apply round_half_even_nonneg. apply Qle_shift_div_l; [exact Hk|].
  now rewrite Qmult_0_l.
Qed.

Lemma round_zero (x : Q) : x == 0 -> Float64.round x = 0.
Proof.
  intros E. unfold Float64.round. now rewrite (proj2 (Qeq_bool_iff x 0) E).
Qed.

Lemma round_mono_nonneg (x y : Q) :
  0 <= x -> x <= y -> Float64.round x <= Float64.round y.
Proof.
  intros Hx Hxy. destruct (Qlt_le_dec 0 x) as [Hpos|H0].
  - now apply round_mono_pos.
  - assert (E : x == 0) by lra. rewrite (round_zero x E).
    apply round_nonneg. lra.
Qed.

(** ** The reduction loop *)

Lemma ndim_np_mean_axis0 (a : ndarray Q) : ndim (np_mean_axis0 a) = (ndim a - 1)%nat.
Proof.
  unfold np_mean_axis0, ndim. destruct (shape a) as [|n0 rest] eqn:E; simpl.
  - now rewrite E.
  - lia.
Qed.

(** The fuel is no restriction: any amount of at least [ndim a - 2] gives the
    same array. *)
Lemma reduce_loop_fuel (f : nat) : forall a : ndarray Q,
  (ndim a - 2 <= f)%nat -> reduce_loop f a = reduce_loop (ndim a - 2) a.
Proof.
  induction f as [|f IH]; intros a Hf.
  - replace (ndim a - 2)%nat with 0%nat by lia. reflexivity.
  - simpl. destruct (2 <? ndim a)%nat eqn:E.
    + apply Nat.ltb_lt in E.
      destruct (ndim a - 2)%nat as [|k] eqn:Ek; [lia|].
      simpl. apply Nat.ltb_lt in E. rewrite E.
      rewrite IH by (rewrite ndim_np_mean_axis0; lia).
      f_equal. rewrite ndim_np_mean_axis0. lia.
    + apply Nat.ltb_ge in E.
      replace (ndim a - 2)%nat with 0%nat by lia. reflexivity.
Qed.

(** The equation of the [while] loop. *)
Lemma reduce_loop_unfold (a : ndarray Q) :
  reduce_loop (ndim a) a =
  if (2 <? ndim a)%nat
  then reduce_loop (ndim (np_mean_axis0 a)) (np_mean_axis0 a)
  else a.
Proof.
  destruct (2 <? ndim a)%nat eqn:E.
  - rewrite (reduce_loop_fuel (ndim a)) by lia.
    rewrite (reduce_loop_fuel (ndim (np_mean_axis0 a))) by lia.
    apply Nat.ltb_lt in E.
    destruct (ndim a - 2)%nat as [|k] eqn:Ek; [lia|].
    simpl. apply Nat.ltb_lt in E. rewrite E.
    rewrite reduce_loop_fuel by (rewrite ndim_np_mean_axis0; lia).
    reflexivity.
  - apply Nat.ltb_ge in E. destruct (ndim a) eqn:En; simpl; [reflexivity|].
    apply Nat.ltb_ge in E. now rewrite En, E.
Qed.

(** The loop ends with its condition false. *)
Lemma reduce_loop_done (f : nat) : forall a : ndarray Q,
  (ndim a <= f + 2)%nat -> (ndim (reduce_loop f a) <= 2)%nat.
Proof.
  induction f as [|f IH]; intros a Hf; simpl.
  - lia.
  - destruct (2 <? ndim a)%nat eqn:E.
    + apply IH. rewrite ndim_np_mean_axis0. lia.
    + apply Nat.ltb_ge in E. exact E.
Qed.

Lemma reduce_loop_keeps_two (f : nat) : forall a : ndarray Q,
  (2 <= ndim a)%nat -> (2 <= ndim (reduce_loop f a))%nat.
Proof.
  induction f as [|f IH]; intros a Ha; simpl.
  - exact Ha.
  - destruct (2 <? ndim a)%nat eqn:E.
    + apply Nat.ltb_lt in E. apply IH. rewrite ndim_np_mean_axis0. lia.
    + exact Ha.
Qed.

Lemma reduce_loop_small (f : nat) (a : ndarray Q) :
  (ndim a <= 2)%nat -> reduce_loop f a = a.
Proof.
  intros Ha. destruct f; simpl; [reflexivity|].
  apply Nat.ltb_ge in Ha. now rewrite Ha.
Qed.

(** ** The mean over axis 0 *)

Lemma nth_firstn_lt {A : Type} (n j : nat) (l : list A) (d : A) :
  (j < n)%nat -> nth j (firstn n l) d = nth j l d.
Proof.
  revert j l. induction n as [|n IH]; intros j l Hj; [lia|].
  destruct l as [|x l]; simpl; [now destruct j|].
  destruct j as [|j]; [reflexivity|]. apply IH. lia.
Qed.

Lemma nth_skipn_add {A : Type} (n j : nat) (l : list A) (d : A) :
  nth j (skipn n l) d = nth (n + j) l d.
Proof.
  revert l. induction n as [|n IH]; intros l; [reflexivity|].
  destruct l as [|x l]; simpl; [now destruct j | apply IH].
Qed.

(** Element [j] of block [i] is element [i * len + j] of the flat data. *)
Lemma chunks_column {A : Type} (len j : nat) (d0 : A) (n : nat) :
  (j < len)%nat -> forall l : list A,
  map (fun b => nth j b d0) (chunks n len l) =
  map (fun i => nth (i * len + j) l d0) (seq 0 n).
Proof.
  intros Hj. induction n as [|n IH]; intros l; [reflexivity|].
  cbn [chunks map seq]. f_equal.
  - now rewrite nth_firstn_lt.
  - rewrite IH, <- seq_shift, map_map. apply map_ext. intros i.
    rewrite nth_skipn_add. f_equal. lia.
Qed.

Lemma chunks_length {A : Type} (len n : nat) : forall l : list A,
  length (chunks n len l) = n.
Proof. induction n as [|n IH]; intros l; simpl; [reflexivity | now rewrite IH]. Qed.

Lemma chunks_block_length {A : Type} (len n : nat) : forall l : list A,
  (n * len <= length l)%nat -> Forall (fun b => length b = len) (chunks n len l).
Proof.
  induction n as [|n IH]; intros l Hl; simpl; constructor.
  - rewrite length_firstn. lia.
  - apply IH. rewrite length_skipn. lia.
Qed.

Lemma chunks_nth {A : Type} (len n i : nat) (l : list A) :
  (i < n)%nat -> nth i (chunks n len l) [] = firstn len (skipn (i * len) l).
Proof.
  revert i l. induction n as [|n IH]; intros i l Hi; [lia|].
  destruct i as [|i]; simpl; [reflexivity|].
  rewrite IH by lia. now rewrite skipn_skipn, Nat.add_comm.
Qed.

Lemma nth_vadd (j : nat) : forall u v : list Q,
  (j < length u)%nat -> (j < length v)%nat ->
  nth j (vadd u v) 0 = nth j u 0 + nth j v 0.
Proof.
  unfold vadd. induction j as [|j IH]; intros [|x u] [|y v] Hu Hv; simpl in *;
    try lia; [reflexivity | apply IH; lia].
Qed.

Lemma length_vadd (u v : list Q) :
  length u = length v -> length (vadd u v) = length u.
Proof. intros H. unfold vadd. rewrite length_zip_with. lia. Qed.

Lemma fold_vadd_spec (blocks : list (list Q)) : forall (acc : list Q) (j : nat),
  Forall (fun b => length b = length acc) blocks ->
  length (fold_left vadd blocks acc) = length acc /\
  ((j < length acc)%nat ->
   nth j (fold_left vadd blocks acc) 0 ==
   nth j acc 0 + np_sum (map (fun b => nth j b 0) blocks)).
Proof.
  induction blocks as [|b blocks IH]; intros acc j Hall; simpl.
  - split; [reflexivity|]. intros _. unfold np_sum. simpl. ring.
  - inversion Hall as [|b' bs Hb Hbs]; subst.
    assert (Hlen : length (vadd acc b) = length acc) by (apply length_vadd; congruence).
    destruct (IH (vadd acc b) j) as [IH1 IH2].
    { rewrite Hlen. exact Hbs. }
    split; [congruence|]. intros Hj.
    rewrite IH2 by lia. rewrite nth_vadd by lia. rewrite np_sum_cons. ring.
Qed.

(** Every element of [np.mean(a, axis=0)] is the arithmetic mean of the
    elements at that position in the [n0] sub-arrays. *)
Lemma np_mean_axis0_spec (n0 : nat) (rest : list nat) (d : list Q) (j : nat) :
  length d = size_of (n0 :: rest) -> (j < size_of rest)%nat ->
  shape (np_mean_axis0 (NdArray (n0 :: rest) d)) = rest /\
  length (data (np_mean_axis0 (NdArray (n0 :: rest) d))) = size_of rest /\
  nth j (data (np_mean_axis0 (NdArray (n0 :: rest) d))) 0 ==
  np_sum (map (fun i => nth (i * size_of rest + j) d 0) (seq 0 n0))
  / inject_Z (Z.of_nat n0).
Proof.
  intros Hwf Hj. cbn [np_mean_axis0 shape data]. unfold sum_axis0.
  change (size_of (n0 :: rest)) with (n0 * size_of rest)%nat in Hwf.
  set (len := size_of rest) in *.
  destruct (fold_vadd_spec (chunks n0 len d) (repeat 0 len) j) as [Hlen Hnth].
  { rewrite repeat_length. apply chunks_block_length. lia. }
  rewrite repeat_length in Hlen, Hnth.
  split; [reflexivity|]. split; [now rewrite length_map|].
  rewrite (nth_indep _ 0 (0 / inject_Z (Z.of_nat n0))) by (rewrite length_map; lia).
  rewrite (map_nth (fun s => s / inject_Z (Z.of_nat n0))).
  rewrite Hnth by exact Hj. rewrite nth_repeat.
  rewrite (chunks_column len j 0 n0 Hj). rewrite Qplus_0_l. reflexivity.
Qed.

Lemma length_concat_repeat {A : Type} (s : list A) (n : nat) :
  length (concat (repeat s n)) = (n * length s)%nat.
Proof. induction n as [|n IH]; simpl; [reflexivity|]. rewrite length_app, IH. lia. Qed.

(** In a stack of [n] copies of [s], every sub-array along axis 0 is [s]. *)
Lemma nth_concat_repeat {A : Type} (s : list A) (d0 : A) (j : nat) :
  (j < length s)%nat -> forall n i : nat, (i < n)%nat ->
  nth (i * length s + j) (concat (repeat s n)) d0 = nth j s d0.
Proof.
  intros Hj. induction n as [|n IH]; intros i Hi; [lia|].
  cbn [repeat concat]. destruct i as [|i].
  - simpl. now rewrite app_nth1.
  - rewrite app_nth2 by (simpl; lia).
    replace (S i * length s + j - length s)%nat with (i * length s + j)%nat
      by (simpl; lia).
    apply IH. lia.
Qed.

Lemma mean_of_copies (x : Q) (n : nat) :
  (0 < n)%nat ->
  np_sum (map (fun _ : nat => x) (seq 0 n)) / inject_Z (Z.of_nat n) == x.
Proof.
  intros Hn. rewrite np_sum_const, length_seq.
  field. intros H. apply (Qeq_bool_neq (inject_Z (Z.of_nat n)) 0); [|exact H].
  unfold Qeq_bool, inject_Z. simpl. apply Z.eqb_neq. lia.
Qed.

(** C8.  For every input array of rank at least 2 the Frame Reducer returns
    an array of rank exactly 2.  An input of rank 2 is returned as it is.
    For a higher rank the loop runs once more on [np.mean(a, axis=0)],
    each element of which is the arithmetic mean (the sum divided by the
    length of axis 0, for an axis that is not empty) of the elements at its
    position, so that a stack of [n > 0] identical 2-D slices reduces to
    that slice. *)
Theorem frame_reducer_rank_two (a : ndarray Q) :
  (2 <= ndim a)%nat ->
  exists r : ndarray Q,
    frame_reducer a = Returns r /\
    ndim r = 2%nat /\
    (ndim a = 2%nat -> r = a) /\
    ((2 < ndim a)%nat -> frame_reducer a = frame_reducer (np_mean_axis0 a)) /\
    (forall (n0 : nat) (rest : list nat) (j : nat),
        shape a = n0 :: rest -> (0 < n0)%nat -> well_formed a ->
        (j < size_of rest)%nat ->
        shape (np_mean_axis0 a) = rest /\
        nth j (data (np_mean_axis0 a)) 0 ==
        np_sum (map (fun i => nth (i * size_of rest + j) (data a) 0) (seq 0 n0))
        / inject_Z (Z.of_nat n0)) /\
    (forall (n h w : nat) (s : list Q),
        (0 < n)%nat -> length s = (h * w)%nat ->
        a = NdArray [n; h; w] (concat (repeat s n)) ->
        shape r = [h; w] /\ length (data r) = length s /\
        forall j : nat, (j < length s)%nat -> nth j (data r) 0 == nth j s 0).
Proof.
  intros Ha. exists (reduce_loop (ndim a) a).
  split; [reflexivity|]. split.
  { pose proof (reduce_loop_done (ndim a) a).
    pose proof (reduce_loop_keeps_two (ndim a) a Ha). lia. }
  split.
  { intros H2. apply reduce_loop_small. lia. }
  split.
  { intros Hgt. unfold frame_reducer. rewrite reduce_loop_unfold.
    apply Nat.ltb_lt in Hgt. now rewrite Hgt. }
  split.
  { intros n0 rest j Hs _ Hwf Hj. destruct a as [sh d]. cbn [shape data] in *. subst sh.
    destruct (np_mean_axis0_spec n0 rest d j Hwf Hj) as (H1 & _ & H3). now split. }
  intros n h w s Hn Hs ->.
  assert (Hsz : size_of [h; w] = length s) by (cbn; lia).
  assert (Hwf : length (concat (repeat s n)) = size_of [n; h; w]).
  { rewrite length_concat_repeat. change (size_of [n; h; w]) with (n * size_of [h; w])%nat.
    now rewrite Hsz. }
  rewrite reduce_loop_unfold. change (ndim (NdArray [n; h; w] (concat (repeat s n)))) with 3%nat.
  cbn [Nat.ltb Nat.leb]. rewrite reduce_loop_small
    by (rewrite ndim_np_mean_axis0; cbn; lia).
  destruct (length s) as [|k] eqn:Ek.
  { cbn [np_mean_axis0 shape data]. split; [reflexivity|].
    split; [|intros j Hj; lia].
    rewrite length_map. unfold sum_axis0.
    destruct (fold_vadd_spec (chunks n (size_of [h; w]) (concat (repeat s n)))
                (repeat 0 (size_of [h; w])) 0%nat) as [Hl _].
    { rewrite repeat_length. apply chunks_block_length. rewrite Hwf.
      change (size_of [n; h; w]) with (n * size_of [h; w])%nat. lia. }
    rewrite Hl, repeat_length. exact Hsz. }
  rewrite <- Ek in *.
  split; [reflexivity|]. split.
  { destruct (np_mean_axis0_spec n [h; w] (concat (repeat s n)) 0%nat Hwf) as (_ & H2 & _);
      [lia|]. now rewrite H2. }
  intros j Hj.
  destruct (np_mean_axis0_spec n [h; w] (concat (repeat s n)) j Hwf) as (_ & _ & H3);
    [lia|].
  rewrite H3, Hsz.
  rewrite (np_sum_map_ext _ (fun _ => nth j s 0)).
  - now apply mean_of_copies.
  - intros i Hi. apply in_seq in Hi. rewrite nth_concat_repeat by lia. reflexivity.
Qed.

Lemma frame_reducer_rank_two_witness :
  (2 <= ndim stack_2x1x2)%nat /\
  exists r : ndarray Q, frame_reducer stack_2x1x2 = Returns r /\ ndim r = 2%nat.
Proof.
  assert (H : (2 <= ndim stack_2x1x2)%nat) by (vm_compute; lia).
  split; [exact H|].
  destruct (frame_reducer_rank_two stack_2x1x2 H) as (r & Hr & Hn & _).
  exists r. split; [exact Hr | exact Hn].
Defined.

(** C4 as stated fails: a rank-1 array is returned, not refused. *)
Lemma frame_reducer_low_rank_counterexample :
  (ndim vector_3 < 2)%nat /\
  frame_reducer vector_3 = Returns vector_3 /\
  frame_reducer vector_3 <> Raises ShapeError.
Proof. split; [vm_compute; lia|]. split; [reflexivity | discriminate]. Qed.

(** C4, amended.  For every input array of rank less than 2 the Frame
    Reducer runs zero iterations and returns the input unchanged; it raises
    nothing, and no ShapeError in particular. *)
Theorem frame_reducer_low_rank (a : ndarray Q) :
  (ndim a < 2)%nat ->
  frame_reducer a = Returns a /\ frame_reducer a <> Raises ShapeError.
Proof.
  intros Ha. unfold frame_reducer. rewrite reduce_loop_small by lia.
  split; [reflexivity | discriminate].
Qed.

Lemma frame_reducer_low_rank_witness :
  (ndim vector_3 < 2)%nat /\ frame_reducer vector_3 = Returns vector_3.
Proof.
  assert (H : (ndim vector_3 < 2)%nat) by (vm_compute; lia).
  split; [exact H | exact (proj1 (frame_reducer_low_rank vector_3 H))].
Defined.

(** ** The validity mask *)

Lemma in_valid_range_spec (x : Q) :
  in_valid_range x = true <-> 0 <= x /\ x <= 1000000.
Proof.
  unfold in_valid_range. rewrite andb_true_iff, !Qle_bool_iff. reflexivity.
Qed.

Lemma nth_zip_with {A B C : Type} (f : A -> B -> C) (a0 : A) (b0 : B) (c0 : C) :
  forall (p : nat) (u : list A) (v : list B),
  (p < length u)%nat -> (p < length v)%nat ->
  nth p (zip_with f u v) c0 = f (nth p u a0) (nth p v b0).
Proof.
  induction p as [|p IH]; intros [|x u] [|y v] Hu Hv; simpl in *; try lia;
    [reflexivity | apply IH; lia].
Qed.

Lemma nth_map_lt {A B : Type} (f : A -> B) (a0 : A) (b0 : B) (p : nat) (l : list A) :
  (p < length l)%nat -> nth p (map f l) b0 = f (nth p l a0).
Proof.
  intros Hp. rewrite (nth_indep _ b0 (f a0)) by (rewrite length_map; lia).
  apply map_nth.
Qed.

Lemma labeled_foreground_nth (imageData : ndarray Q) (p : nat) :
  (p < length (data imageData))%nat ->
  nth p (data (labeled_foreground_of imageData)) 0%Z =
  if in_valid_range (nth p (data imageData) 0) then 1%Z else 0%Z.
Proof.
  intros Hp. cbn [labeled_foreground_of data].
  exact (nth_map_lt (fun x => if in_valid_range x then 1%Z else 0%Z) 0 0%Z p _ Hp).
Qed.

Lemma apply_mask_nth (imageData : ndarray Q) (p : nat) :
  (p < length (data imageData))%nat ->
  nth p (data (apply_mask imageData (labeled_foreground_of imageData))) 0 =
  nth p (data imageData) 0
  * inject_Z (nth p (data (labeled_foreground_of imageData)) 0%Z).
Proof.
  intros Hp. cbn [apply_mask data labeled_foreground_of].
  apply (nth_zip_with (fun (x : Q) (m : Z) => x * inject_Z m) 0 0%Z 0);
    [exact Hp | now rewrite length_map].
Qed.

(** *** The validity mask of a frame with infinities and nan *)

Lemma Float64_in_valid_range_spec (x : npfloat) :
  Float64.in_valid_range x = true <->
  exists q : Q, x = Finite q /\ 0 <= q /\ q <= 1000000.
Proof.
  unfold Float64.in_valid_range, Float64.greater_equal, Float64.less_equal.
  destruct x as [q| | |]; cbn.
  - rewrite andb_true_iff, !Qle_bool_iff. split.
    + intros [H0 H1]. exists q. auto.
    + intros (q' & E & H). injection E as <-. exact H.
  - split; [discriminate | intros (q & E & _); discriminate].
  - split; [discriminate | intros (q & E & _); discriminate].
  - split; [discriminate | intros (q & E & _); discriminate].
Qed.

Lemma zip_with_map_l {A A' B C : Type} (f : A' -> B -> C) (g : A -> A') :
  forall (u : list A) (v : list B),
  zip_with f (map g u) v = zip_with (fun x y => f (g x) y) u v.
Proof.
  induction u as [|x u IH]; intros [|y v]; simpl; [reflexivity..|].
  now rewrite IH.
Qed.

Lemma map_zip_with {A B C D : Type} (f : A -> B -> C) (g : C -> D) :
  forall (u : list A) (v : list B),
  map g (zip_with f u v) = zip_with (fun x y => g (f x y)) u v.
Proof.
  induction u as [|x u IH]; intros [|y v]; simpl; [reflexivity..|].
  now rewrite IH.
Qed.

(** On a frame of finite values the two embeddings of the Validity Masker
    agree. *)
Lemma validity_masker_finite (a : ndarray Q) :
  Float64.validity_masker (Float64.of_finite a)
  = (fst (validity_masker a), Float64.of_finite (snd (validity_masker a))).
Proof.
  unfold Float64.validity_masker, validity_masker. cbn [fst snd].
  assert (Hl : Float64.labeled_foreground_of (Float64.of_finite a)
               = labeled_foreground_of a).
  { unfold Float64.labeled_foreground_of, labeled_foreground_of, Float64.of_finite.
    cbn [shape data]. f_equal. rewrite map_map. reflexivity. }
  rewrite Hl. f_equal.
  unfold Float64.apply_mask, apply_mask, Float64.of_finite. cbn [shape data]. f_equal.
  rewrite zip_with_map_l, map_zip_with. reflexivity.
Qed.

(** C6 as stated fails: an infinite or nan pixel is not valid, and its
    masked value is the product with the mask value 0, which is nan, not
    0. *)
Lemma validity_masker_counterexample :
  data (fst (Float64.validity_masker row_inf_nan)) = [0; 0; 0; 1]%Z /\
  Float64.pixel 4 (data (snd (Float64.validity_masker row_inf_nan))) 0 0 = NaN /\
  Float64.pixel 4 (data (snd (Float64.validity_masker row_inf_nan))) 0 1 = NaN /\
  forall q : Q,
    Float64.pixel 4 (data (snd (Float64.validity_masker row_inf_nan))) 0 0 <> Finite q.
Proof.
  split; [reflexivity|]. split; [reflexivity|]. split; [reflexivity|].
  intros q. discriminate.
Qed.

(** C6, amended.  For every 2-D frame, whatever floats it holds, the mask
    is 1 at a pixel exactly when the pixel is a finite intensity in
    [0, 1e6], and 0 at every other pixel, infinities and nan included; the
    masked frame is the product frame * mask: the intensity where the mask
    is 1, zero where the mask is 0 and the pixel is finite, and nan where
    the pixel is an infinity or nan.  Mask and masked frame have the shape
    of the frame. *)
Theorem validity_masker_pixels (imageData : ndarray npfloat) (h w i j : nat) :
  shape imageData = [h; w] -> well_formed imageData ->
  (i < h)%nat -> (j < w)%nat ->
  let x := Float64.pixel w (data imageData) i j in
  let mask := fst (Float64.validity_masker imageData) in
  let masked := snd (Float64.validity_masker imageData) in
  let m := label_at w (data mask) i j in
  let y := Float64.pixel w (data masked) i j in
  shape mask = [h; w] /\ shape masked = [h; w] /\
  (m = 1%Z <-> exists q : Q, x = Finite q /\ 0 <= q /\ q <= 1000000) /\
  (m = 0%Z <-> ~ exists q : Q, x = Finite q /\ 0 <= q /\ q <= 1000000) /\
  y = Float64.multiply x (Finite (inject_Z m)) /\
  (forall q : Q, x = Finite q -> m = 1%Z -> exists q' : Q, y = Finite q' /\ q' == q) /\
  (forall q : Q, x = Finite q -> m = 0%Z -> exists q' : Q, y = Finite q' /\ q' == 0) /\
  (Float64.is_finite x = false -> m = 0%Z /\ y = NaN).
Proof.
  intros Hs Hwf Hi Hj x mask masked m y.
  assert (Hp : (i * w + j < length (data imageData))%nat).
  { rewrite Hwf, Hs. cbn. nia. }
  assert (Hm : m = if Float64.in_valid_range x then 1%Z else 0%Z).
  { subst m mask x. unfold label_at, Float64.pixel.
    cbn [Float64.validity_masker fst Float64.labeled_foreground_of data].
    exact (nth_map_lt (fun x => if Float64.in_valid_range x then 1%Z else 0%Z)
             NaN 0%Z _ _ Hp). }
  assert (Hy : y = Float64.multiply x (Finite (inject_Z m))).
  { subst y masked m mask x. unfold label_at, Float64.pixel.
    cbn [Float64.validity_masker fst snd Float64.apply_mask data].
    apply (nth_zip_with (fun (x : npfloat) (m : Z) =>
                           Float64.multiply x (Finite (inject_Z m))) NaN 0%Z NaN);
      [exact Hp|].
    cbn [Float64.labeled_foreground_of data]. now rewrite length_map. }
  pose proof (Float64_in_valid_range_spec x) as Hv.
  split; [exact Hs|]. split; [exact Hs|].
  split; [|split; [|split; [exact Hy|split; [|split]]]].
  - rewrite Hm, <- Hv. destruct (Float64.in_valid_range x); split; congruence.
  - rewrite Hm, <- Hv. destruct (Float64.in_valid_range x); split; congruence.
  - intros q Hx H1. rewrite Hy, Hx, H1. cbn. exists (q * inject_Z 1).
    split; [reflexivity | ring].
  - intros q Hx H0. rewrite Hy, Hx, H0. cbn. exists (q * inject_Z 0).
    split; [reflexivity | ring].
  - intros Hf. assert (H0 : m = 0%Z).
    { rewrite Hm. destruct (Float64.in_valid_range x); [|reflexivity].
      destruct (proj1 Hv eq_refl) as (q & E & _). rewrite E in Hf. discriminate. }
    split; [exact H0|]. rewrite Hy, H0.
    destruct x; [discriminate|reflexivity..].
Qed.

Lemma validity_masker_pixels_witness :
  label_at 4 (data (fst (Float64.validity_masker row_inf_nan))) 0 0 = 0%Z /\
  Float64.pixel 4 (data (snd (Float64.validity_masker row_inf_nan))) 0 0 = NaN.
Proof.
  assert (Hs : shape row_inf_nan = [1; 4]%nat) by reflexivity.
  assert (Hwf : well_formed row_inf_nan) by reflexivity.
  assert (Hi : (0 < 1)%nat) by lia.
  assert (Hj : (0 < 4)%nat) by lia.
  destruct (validity_masker_pixels row_inf_nan 1 4 0 0 Hs Hwf Hi Hj)
    as (_ & _ & _ & _ & _ & _ & _ & Hnf).
  exact (Hnf eq_refl).
Defined.

(** ** Threshold and peak label *)

Lemma Qmax_cases (x y : Q) : Qmax x y = x \/ Qmax x y = y.
Proof.
  unfold Qmax, GenericMinMax.gmax. destruct (x ?= y); auto.
Qed.

Lemma fold_Qmax_spec (xs : list Q) : forall x : Q,
  In (fold_left Qmax xs x) (x :: xs) /\
  forall y : Q, In y (x :: xs) -> y <= fold_left Qmax xs x.
Proof.
  induction xs as [|z xs IH]; intros x; simpl.
  - split; [now left|]. intros y [<-|[]]. apply Qle_refl.
  - destruct (IH (Qmax x z)) as [Hin Hub]. split.
    + destruct Hin as [Hm|Hin]; [|now right; right].
      rewrite <- Hm. destruct (Qmax_cases x z) as [->| ->]; [now left | now right; left].
    + intros y [<-|[<-|Hy]].
      * eapply Qle_trans; [apply Q.le_max_l | apply Hub; now left].
      * eapply Qle_trans; [apply Q.le_max_r | apply Hub; now left].
      * apply Hub. now right.
Qed.

Lemma Qgtb_spec (x y : Q) : Qgtb x y = true <-> y < x.
Proof.
  unfold Qgtb. rewrite negb_true_iff. split.
  - intros H. apply Qnot_le_lt. intros Hle. apply Qle_bool_iff in Hle. congruence.
  - intros H. destruct (Qle_bool x y) eqn:E; [|reflexivity].
    apply Qle_bool_iff in E. exfalso. exact (Qlt_not_le _ _ H E).
Qed.

Lemma label_above_nth (t : Q) (masked : ndarray Q) (p : nat) :
  (p < length (data masked))%nat ->
  nth p (data (label_above t masked)) 0%Z =
  if Qgtb (nth p (data masked) 0) t then 1%Z else 0%Z.
Proof.
  intros Hp. cbn [label_above data].
  exact (nth_map_lt (fun x => if Qgtb x t then 1%Z else 0%Z) 0 0%Z p _ Hp).
Qed.

Lemma label_above_01 (t : Q) (masked : ndarray Q) (l : Z) :
  In l (data (label_above t masked)) -> l = 0%Z \/ l = 1%Z.
Proof.
  cbn [label_above data]. rewrite in_map_iff. intros (x & <- & _).
  destruct (Qgtb x t); auto.
Qed.

(** *** The threshold of a frame with nan *)

Lemma maximum_finite (a b : Q) :
  Float64.maximum (Finite a) (Finite b) = Finite (Qmax a b).
Proof.
  unfold Float64.maximum, Float64.less, Float64.less_equal, Qmax, GenericMinMax.gmax,
    Qle_bool, Qcompare.
  destruct (Z.compare_spec (Qnum a * QDen b) (Qnum b * QDen a)),
    (Z.leb_spec (Qnum b * QDen a) (Qnum a * QDen b)); simpl; reflexivity || lia.
Qed.

Lemma fold_maximum_finite (xs : list Q) : forall x : Q,
  fold_left Float64.maximum (map Finite xs) (Finite x) = Finite (fold_left Qmax xs x).
Proof.
  induction xs as [|y xs IH]; intros x; cbn [fold_left map]; [reflexivity|].
  now rewrite maximum_finite, IH.
Qed.

Lemma np_max_finite (a : ndarray Q) :
  Float64.np_max (Float64.of_finite a)
  = match np_max a with
    | Returns m => Returns (Finite m)
    | Raises e => Raises e
    end.
Proof.
  unfold Float64.np_max, np_max, Float64.of_finite. cbn [data].
  destruct (data a) as [|x xs]; cbn [map]; [reflexivity|].
  now rewrite fold_maximum_finite.
Qed.

Lemma label_above_finite (t : Q) (a : ndarray Q) :
  Float64.label_above (Finite t) (Float64.of_finite a) = label_above t a.
Proof.
  unfold Float64.label_above, label_above, Float64.of_finite. cbn [shape data].
  f_equal. rewrite map_map. reflexivity.
Qed.

Lemma maximum_nan_r (x : npfloat) : Float64.maximum x NaN = NaN.
Proof. now destruct x. Qed.

Lemma fold_maximum_from_nan (xs : list npfloat) :
  fold_left Float64.maximum xs NaN = NaN.
Proof. induction xs as [|y xs IH]; simpl; [reflexivity | exact IH]. Qed.

(** One nan makes the maximum nan. *)
Lemma fold_maximum_nan (xs : list npfloat) : forall x : npfloat,
  In NaN (x :: xs) -> fold_left Float64.maximum xs x = NaN.
Proof.
  induction xs as [|y xs IH]; intros x [Hx|Hin]; simpl.
  - now symmetry.
  - destruct Hin.
  - subst x. apply fold_maximum_from_nan.
  - destruct Hin as [Hy|Hin].
    + subst y. rewrite maximum_nan_r. apply fold_maximum_from_nan.
    + apply IH. now right.
Qed.

Lemma less_equal_refl (x : npfloat) : x <> NaN -> Float64.less_equal x x = true.
Proof.
  destruct x as [q| | |]; cbn; try reflexivity; [|congruence].
  intros _. apply Qle_bool_iff. apply Qle_refl.
Qed.

Lemma less_equal_trans (x y z : npfloat) :
  Float64.less_equal x y = true -> Float64.less_equal y z = true ->
  Float64.less_equal x z = true.
Proof.
  destruct x as [a| | |], y as [b| | |], z as [c| | |]; cbn;
    try reflexivity; try discriminate.
  rewrite !Qle_bool_iff. apply Qle_trans.
Qed.

Lemma less_equal_total (x y : npfloat) :
  x <> NaN -> y <> NaN ->
  Float64.less_equal y x = false -> Float64.less_equal x y = true.
Proof.
  destruct x as [a| | |], y as [b| | |]; cbn; try reflexivity; try discriminate;
    try congruence.
  intros _ _ H. apply Qle_bool_iff. apply Qlt_le_weak. apply Qnot_le_lt.
  intros Hle. apply Qle_bool_iff in Hle. congruence.
Qed.

Lemma maximum_cases (x y : npfloat) :
  x <> NaN -> y <> NaN ->
  (Float64.maximum x y = x \/ Float64.maximum x y = y) /\
  Float64.less_equal x (Float64.maximum x y) = true /\
  Float64.less_equal y (Float64.maximum x y) = true.
Proof.
  intros Hx Hy.
  assert (E : Float64.maximum x y = if negb (Float64.less_equal y x) then y else x).
  { destruct x, y; try reflexivity; congruence. }
  rewrite E. destruct (Float64.less_equal y x) eqn:Hle; simpl.
  - split; [now left|]. split; [now apply less_equal_refl | exact Hle].
  - split; [now right|]. split; [now apply less_equal_total | now apply less_equal_refl].
Qed.

(** Without nan the maximum is an element and an upper bound. *)
Lemma fold_maximum_spec (xs : list npfloat) : forall x : npfloat,
  ~ In NaN (x :: xs) ->
  In (fold_left Float64.maximum xs x) (x :: xs) /\
  forall y : npfloat, In y (x :: xs) ->
                      Float64.less_equal y (fold_left Float64.maximum xs x) = true.
Proof.
  induction xs as [|z xs IH]; intros x Hn; simpl.
  - split; [now left|]. intros y [<-|[]]. apply less_equal_refl.
    intros E. apply Hn. left. now symmetry.
  - assert (Hx : x <> NaN) by (intros E; apply Hn; left; now symmetry).
    assert (Hz : z <> NaN) by (intros E; apply Hn; right; left; now symmetry).
    destruct (maximum_cases x z Hx Hz) as (Hc & Hlx & Hlz).
    destruct (IH (Float64.maximum x z)) as [Hin Hub].
    { intros [E|Hin]; [destruct Hc as [Hc|Hc]; congruence|]. apply Hn. now right; right. }
    split.
    + destruct Hin as [Hm|Hin]; [|now right; right].
      rewrite <- Hm. destruct Hc as [-> | ->]; [now left | now right; left].
    + intros y [<-|[<-|Hy]].
      * eapply less_equal_trans; [exact Hlx | apply Hub; now left].
      * eapply less_equal_trans; [exact Hlz | apply Hub; now left].
      * apply Hub. now right.
Qed.

Lemma greater_nan (x : npfloat) : Float64.greater x NaN = false.
Proof. now destruct x. Qed.

Lemma Float64_label_above_nth (t : npfloat) (masked : ndarray npfloat) (p : nat) :
  (p < length (data masked))%nat ->
  nth p (data (Float64.label_above t masked)) 0%Z =
  if Float64.greater (nth p (data masked) NaN) t then 1%Z else 0%Z.
Proof.
  intros Hp. cbn [Float64.label_above data].
  exact (nth_map_lt (fun x => if Float64.greater x t then 1%Z else 0%Z) NaN 0%Z p _ Hp).
Qed.

Lemma threshold_of_finite (q : Q) :
  Float64.threshold_of (Finite q)
  = Finite (Qmax 1 (Float64.round (Float64.point_0001 * q))).
Proof.
  unfold Float64.threshold_of.
  change (Float64.rounded (Float64.multiply (Finite Float64.point_0001) (Finite q)))
    with (Finite (Float64.round (Float64.point_0001 * q))).
  apply maximum_finite.
Qed.

(** The threshold of a maximum that is not nan is at least 1. *)
Lemma threshold_at_least_one (m : npfloat) :
  m <> NaN -> Float64.less_equal (Finite 1) (Float64.threshold_of m) = true.
Proof.
  intros Hm. destruct m as [q| | |]; [| | |congruence].
  - rewrite threshold_of_finite. cbn [Float64.less_equal].
    apply Qle_bool_iff. apply Q.le_max_l.
  - reflexivity.
  - reflexivity.
Qed.

(** The product with 0.0001 is rounded: for the maximum 10008 the
    threshold is the double 1.0008000000000001, above 10008 / 10000, so
    that a pixel of that value is not above the threshold. *)
Lemma threshold_is_rounded :
  Float64.threshold_of (Finite 10008)
  = Finite (Qmax 1 (Float64.round (Float64.point_0001 * 10008))) /\
  Float64.round (Float64.point_0001 * 10008) == 4507202507072393 # 4503599627370496 /\
  10008 # 10000 < 4507202507072393 # 4503599627370496 /\
  Float64.greater (Finite (4507202507072393 # 4503599627370496))
                  (Float64.threshold_of (Finite 10008)) = false.
Proof.
  split; [apply threshold_of_finite|]. split; [vm_compute; reflexivity|].
  split; [reflexivity | vm_compute; reflexivity].
Qed.

(** C7 as stated fails: [max()] of a frame without elements raises
    ValueError, and a masked frame that holds a nan, as the masker makes
    it from an infinite or nan pixel, has the threshold nan, which is not
    at least 1, and an empty foreground although it holds a pixel above
    1. *)
Lemma peak_segmenter_counterexample :
  Float64.peak_segmenter (NdArray [0; 0]%nat []) = Raises ValueError /\
  (exists lp : ndarray Z,
     Float64.peak_segmenter (snd (Float64.validity_masker row_inf_nan))
     = Returns (NaN, lp) /\ data lp = [0; 0; 0; 0]%Z) /\
  Float64.less_equal (Finite 1) NaN = false /\
  Float64.pixel 4 (data (snd (Float64.validity_masker row_inf_nan))) 0 3
  = Finite (7 * 1).
Proof.
  split; [reflexivity|]. split; [eexists; split; reflexivity|].
  split; reflexivity.
Qed.

(** C7, amended.  A masked frame without elements makes the Peak Segmenter
    raise ValueError.  For every masked frame with at least one element the
    threshold is np.maximum(1, 0.0001 * max(masked frame)), the product
    rounded to a double, and the peak label is 1 exactly where the masked
    intensity is greater than the threshold in numpy's comparison.  When
    the frame holds a nan, maximum and threshold are nan and the peak label
    is 0 everywhere.  When it holds none, the maximum is an element and an
    upper bound of the frame and the threshold is at least 1.  When all
    elements are finite, the threshold is the rational
    max(1, round(0.0001 * max)), at least 1, the label is 1 exactly at the
    pixels strictly above it, and an all-zero frame gives threshold 1 and
    an all-zero label image, without an exception. *)
Theorem peak_segmenter_threshold (masked : ndarray npfloat) :
  (data masked = [] -> Float64.peak_segmenter masked = Raises ValueError) /\
  (data masked <> [] ->
   exists m : npfloat,
     Float64.np_max masked = Returns m /\
     let t := Float64.maximum (Finite 1)
                (Float64.rounded (Float64.multiply (Finite Float64.point_0001) m)) in
     Float64.peak_segmenter masked = Returns (t, Float64.label_above t masked) /\
     shape (Float64.label_above t masked) = shape masked /\
     (forall p : nat, (p < length (data masked))%nat ->
        nth p (data (Float64.label_above t masked)) 0%Z
        = if Float64.greater (nth p (data masked) NaN) t then 1%Z else 0%Z) /\
     (In NaN (data masked) ->
        m = NaN /\ t = NaN /\
        forall l : Z, In l (data (Float64.label_above t masked)) -> l = 0%Z) /\
     (~ In NaN (data masked) ->
        In m (data masked) /\
        (forall x : npfloat, In x (data masked) -> Float64.less_equal x m = true) /\
        Float64.less_equal (Finite 1) t = true) /\
     (forall d : list Q, data masked = map Finite d ->
        exists q : Q,
          let tq := Qmax 1 (Float64.round (Float64.point_0001 * q)) in
          m = Finite q /\ In q d /\ (forall x : Q, In x d -> x <= q) /\
          t = Finite tq /\ 1 <= tq /\
          (forall p : nat, (p < length d)%nat ->
             (nth p (data (Float64.label_above t masked)) 0%Z = 1%Z <-> tq < nth p d 0) /\
             (nth p (data (Float64.label_above t masked)) 0%Z = 0%Z <-> nth p d 0 <= tq)) /\
          ((forall x : Q, In x d -> x == 0) ->
             tq == 1 /\
             forall l : Z, In l (data (Float64.label_above t masked)) -> l = 0%Z))).
Proof.
  split.
  { intros He. unfold Float64.peak_segmenter, Float64.np_max. now rewrite He. }
  intros Hne. destruct masked as [sh dm]. cbn [data] in *.
  destruct dm as [|x xs]; [congruence|].
  exists (fold_left Float64.maximum xs x).
  split; [reflexivity|]. cbv zeta.
  set (m := fold_left Float64.maximum xs x).
  fold (Float64.threshold_of m). set (t := Float64.threshold_of m).
  split; [reflexivity|]. split; [reflexivity|].
  split; [intros p Hp; now apply Float64_label_above_nth|].
  split; [|split].
  - intros Hnan. assert (Em : m = NaN) by now apply fold_maximum_nan.
    assert (Et : t = NaN) by (subst t; now rewrite Em).
    split; [exact Em|]. split; [exact Et|].
    intros l. cbn [Float64.label_above data]. rewrite in_map_iff.
    intros (y & <- & _). now rewrite Et, greater_nan.
  - intros Hnn. destruct (fold_maximum_spec xs x Hnn) as [Hin Hub].
    split; [exact Hin|]. split; [exact Hub|].
    apply threshold_at_least_one. intros E. apply Hnn. fold m in Hin. now rewrite E in Hin.
  - intros d Hd.
    destruct d as [|x0 d0]; [discriminate|]. simpl in Hd. injection Hd as -> ->.
    destruct (fold_Qmax_spec d0 x0) as [Hin Hub].
    assert (Em : m = Finite (fold_left Qmax d0 x0)) by apply fold_maximum_finite.
    exists (fold_left Qmax d0 x0). cbv zeta.
    set (q := fold_left Qmax d0 x0) in *.
    set (tq := Qmax 1 (Float64.round (Float64.point_0001 * q))).
    assert (Et : t = Finite tq) by (subst t; rewrite Em; apply threshold_of_finite).
    split; [exact Em|]. split; [exact Hin|]. split; [exact Hub|].
    split; [exact Et|]. split; [apply Q.le_max_l|].
    assert (Hlab : forall p : nat, (p < length (x0 :: d0))%nat ->
              nth p (data (Float64.label_above t (NdArray sh (Finite x0 :: map Finite d0))))
                  0%Z
              = if Qgtb (nth p (x0 :: d0) 0) tq then 1%Z else 0%Z).
    { intros p Hp.
      rewrite Float64_label_above_nth
        by (cbn [data]; change (Finite x0 :: map Finite d0) with (map Finite (x0 :: d0));
            now rewrite length_map).
      cbn [data]. change (Finite x0 :: map Finite d0) with (map Finite (x0 :: d0)).
      rewrite (nth_map_lt Finite 0 NaN p (x0 :: d0) Hp), Et. reflexivity. }
    split.
    + intros p Hp. rewrite (Hlab p Hp).
      pose proof (Qgtb_spec (nth p (x0 :: d0) 0) tq) as Hg.
      destruct (Qgtb (nth p (x0 :: d0) 0) tq) eqn:E.
      * split; split; try reflexivity; try discriminate.
        -- intros _. now apply Hg.
        -- intros Hle. exfalso.
           apply (Qlt_not_le tq (nth p (x0 :: d0) 0)); [now apply Hg | exact Hle].
      * split; split; try reflexivity; try discriminate.
        -- intros Hlt. apply Hg in Hlt. discriminate.
        -- intros _. apply Qnot_lt_le. intros Hlt. apply Hg in Hlt. discriminate.
    + intros Hzero.
      assert (Ht1 : tq == 1).
      { subst tq. rewrite round_zero by (rewrite (Hzero _ Hin); ring).
        apply Q.max_l. discriminate. }
      split; [exact Ht1|].
      intros l Hl. destruct (In_nth _ _ 0%Z Hl) as (p & Hp & Hnth).
      cbn [Float64.label_above data] in Hp. rewrite length_map in Hp.
      change (Finite x0 :: map Finite d0) with (map Finite (x0 :: d0)) in Hp.
      rewrite length_map in Hp.
      rewrite (Hlab p Hp) in Hnth. subst l.
      destruct (Qgtb (nth p (x0 :: d0) 0) tq) eqn:E; [|reflexivity].
      apply Qgtb_spec in E. rewrite Ht1, (Hzero (nth p (x0 :: d0) 0)) in E;
        [discriminate | now apply nth_In].
Qed.

Lemma peak_segmenter_threshold_witness :
  exists m : npfloat,
    Float64.np_max (Float64.of_finite zeros_2x2) = Returns m /\
    Float64.peak_segmenter (Float64.of_finite zeros_2x2)
    = Returns (Float64.threshold_of m,
               Float64.label_above (Float64.threshold_of m) (Float64.of_finite zeros_2x2)).
Proof.
  assert (Hne : data (Float64.of_finite zeros_2x2) <> []) by discriminate.
  destruct (proj2 (peak_segmenter_threshold (Float64.of_finite zeros_2x2)) Hne)
    as (m & Hm & Hp & _).
  exists m. split; [exact Hm | exact Hp].
Defined.

(** ** The input parameters *)

Lemma int_of_str_raises (s : string) (e : exn) :
  int_of_str s = Raises e -> e = ValueError.
Proof.
  unfold int_of_str. cbv zeta.
  destruct (parse_signed _); [|congruence].
  destruct (_ <=? _)%nat; [discriminate | congruence].
Qed.


(** C10.  Without key-value input ROI_SIZE is 25.  With a key-value mapping,
    ROI_SIZE is [int] of the value stored under 'roi_size': a mapping
    without that key makes [main] raise KeyError whatever the frame and the
    exposure time are, there is no fall-back to 25, and a value of ASCII
    characters that is not an integer literal makes it raise ValueError. *)
Theorem roi_size_lookup :
  roi_size_of None = Returns 25%Z /\
  (forall kv : gmap string string,
      kv !! "roi_size"%string = None ->
      roi_size_of (Some kv) = Raises KeyError /\
      forall (imageData : ndarray Q) (recordingTime : Q),
        main imageData recordingTime (Some kv) = Raises KeyError) /\
  (forall (kv : gmap string string) (v : string),
      kv !! "roi_size"%string = Some v -> ascii_string v ->
      roi_size_of (Some kv) = int_of_str v /\
      (forall e : exn, int_of_str v = Raises e ->
         e = ValueError /\
         forall (imageData : ndarray Q) (recordingTime : Q),
           main imageData recordingTime (Some kv) = Raises ValueError)).
Proof.
  split; [reflexivity|]. split.
  - intros kv Hkv. unfold main, roi_size_of. rewrite Hkv. split; reflexivity.
  - intros kv v Hkv _. unfold main, roi_size_of. rewrite Hkv.
    split; [reflexivity|]. intros e He.
    pose proof (int_of_str_raises v e He) as ->. split; [reflexivity|].
    intros imageData recordingTime. now rewrite He.
Qed.

Lemma roi_size_lookup_witness :
  roi_size_of (Some (∅ : gmap string string)) = Raises KeyError /\
  main spot_3x3 2 (Some (∅ : gmap string string)) = Raises KeyError.
Proof.
  assert (H : (∅ : gmap string string) !! "roi_size"%string = None) by reflexivity.
  destruct roi_size_lookup as (_ & Hmissing & _).
  destruct (Hmissing ∅ H) as [H1 H2].
  split; [exact H1 | exact (H2 spot_3x3 2)].
Defined.

(** ** The pipeline, statement by statement *)

(** What [beam_analysis] does, by the outcome of each statement that can
    raise. *)
Lemma beam_analysis_cases (a : ndarray Q) (R : Z) :
  let img := reduce_loop (ndim a) a in
  let lf := labeled_foreground_of img in
  let masked := apply_mask img lf in
  match np_max masked with
  | Raises e => beam_analysis a R = Raises e /\ e = ValueError
  | Returns m =>
      let t := threshold_of m in
      let lp := label_above t masked in
      peak_segmenter masked = Returns (t, lp) /\
      match regionprops lp img with
      | Raises e => beam_analysis a R = Raises e /\ e = TypeError
      | Returns [] => beam_analysis a R = Raises IndexError
      | Returns (p0 :: _) =>
          beam_analysis a R =
          Returns (Analysis img lf masked t lp (centroid p0) (weighted_centroid p0)
                            (roi_sum masked (weighted_centroid p0) R))
      end
  end.
Proof.
  cbv zeta.
  unfold beam_analysis, frame_reducer, peak_segmenter, region_analyzer.
  cbn [mbind py_bind validity_masker].
  destruct (np_max _) as [m|e] eqn:Em; cbn [mbind py_bind].
  - split; [reflexivity|].
    destruct (regionprops _ _) as [[|p0 ps]|e] eqn:Er; cbn [mbind py_bind];
      try reflexivity.
    split; [reflexivity|]. unfold regionprops in Er.
    destruct (shape _) as [|? [|? [|? ?]]]; congruence.
  - split; [reflexivity|]. unfold np_max in Em.
    destruct (data _); congruence.
Qed.



Lemma main_returns (a : ndarray Q) (t : Q) (kv : option (gmap string string))
    (els : list TranslationElement) :
  main a t kv = Returns els ->
  exists (R : Z) (an : analysis),
    roi_size_of kv = Returns R /\ beam_analysis a R = Returns an /\
    els = TElements_of an t.
Proof.
  unfold main. destruct (roi_size_of kv) as [R|e'] eqn:ER; cbn [mbind py_bind];
    [|discriminate].
  destruct (beam_analysis a R) as [an|e'] eqn:EB; cbn [mbind py_bind]; [|discriminate].
  intros H. injection H as <-. now exists R, an.
Qed.

(** ** The exposure time *)






(** ** Region properties of a 0/1 label image *)

Lemma fold_Zmax_spec (l : list Z) : forall a : Z,
  (a <= fold_left Z.max l a)%Z /\
  (forall x : Z, In x l -> (x <= fold_left Z.max l a)%Z) /\
  (fold_left Z.max l a = a \/ In (fold_left Z.max l a) l).
Proof.
  induction l as [|y l IH]; intros a; simpl.
  - split; [lia|]. split; [intros x []|now left].
  - destruct (IH (Z.max a y)) as (H1 & H2 & H3). split; [lia|]. split.
    + intros x [<-|Hx]; [lia | now apply H2].
    + destruct H3 as [H3|H3]; [|now right; right].
      rewrite H3. destruct (Z.max_spec a y) as [[_ ->]|[_ ->]]; [right; now left | now left].
Qed.

Lemma region_of_pixels_in (w : nat) (lab : list Z) (intensity : list Q) (l : Z)
    (r c : nat) (x : Q) :
  In (r, c, x) (pixels (region_of w lab intensity l)) ->
  exists p : nat, (p < length lab)%nat /\ nth p lab 0%Z = l /\
    r = (p / w)%nat /\ c = (p mod w)%nat /\ x = nth p intensity 0.
Proof.
  cbn [region_of pixels]. rewrite in_map_iff. intros (p & Hp & Hin).
  apply filter_In in Hin. destruct Hin as [Hin Hl]. apply in_seq in Hin.
  apply Z.eqb_eq in Hl. injection Hp as <- <- <-.
  exists p. repeat split; [lia | exact Hl].
Qed.

Lemma index_div_mod (w p : nat) : ((p / w) * w + p mod w)%nat = p.
Proof.
  destruct w as [|w]; [simpl; lia|].
  pose proof (Nat.div_mod_eq p (S w)). lia.
Qed.

Lemma region_of_pixels_intro (w : nat) (lab : list Z) (intensity : list Q) (l : Z)
    (r c : nat) :
  (c < w)%nat -> (r * w + c < length lab)%nat -> nth (r * w + c) lab 0%Z = l ->
  In (r, c, nth (r * w + c) intensity 0) (pixels (region_of w lab intensity l)).
Proof.
  intros Hc Hp Hl. cbn [region_of pixels]. apply in_map_iff.
  exists (r * w + c)%nat. split.
  - rewrite <- (Nat.div_unique (r * w + c) w r c) by lia.
    rewrite <- (Nat.mod_unique (r * w + c) w r c) by lia. reflexivity.
  - apply filter_In. split; [apply in_seq; lia | now apply Z.eqb_eq].
Qed.

(** On a 2-D label image with labels 0 and 1 only, [regionprops] returns no
    region when no pixel is labelled 1, and otherwise the single region of
    label 1. *)
Lemma regionprops_binary (lp : ndarray Z) (img : ndarray Q) (h w : nat) :
  shape lp = [h; w] ->
  (forall l : Z, In l (data lp) -> l = 0%Z \/ l = 1%Z) ->
  regionprops lp img =
  Returns (match pixels (region_of w (data lp) (data img) 1) with
           | [] => []
           | _ :: _ => [region_of w (data lp) (data img) 1]
           end).
Proof.
  intros Hs H01. unfold regionprops. rewrite Hs.
  destruct (fold_Zmax_spec (data lp) 0) as (H1 & H2 & H3).
  assert (Hmax : fold_left Z.max (data lp) 0%Z = 0%Z \/ fold_left Z.max (data lp) 0%Z = 1%Z).
  { destruct H3 as [H3|H3]; [now left | now apply H01]. }
  destruct Hmax as [Hmax|Hmax]; rewrite Hmax in *; cbn [Z.to_nat Pos.to_nat Pos.iter_op seq flat_map].
  - destruct (pixels (region_of w (data lp) (data img) 1)) as [|[[r c] x] ps] eqn:E;
      [reflexivity|].
    exfalso. destruct (region_of_pixels_in w (data lp) (data img) 1 r c x)
      as (p & Hp & Hl & _); [rewrite E; now left|].
    assert (Hin : In (nth p (data lp) 0%Z) (data lp)) by (apply nth_In; exact Hp).
    apply H2 in Hin. lia.
  - change (Z.to_nat 1) with 1%nat. cbn [seq flat_map].
    change (Z.of_nat 1) with 1%Z.
    destruct (pixels (region_of w (data lp) (data img) 1)); reflexivity.
Qed.

Lemma regionprops_no_label (lp : ndarray Z) (img : ndarray Q) (h w : nat) :
  shape lp = [h; w] ->
  (forall l : Z, In l (data lp) -> l = 0%Z) ->
  regionprops lp img = Returns [].
Proof.
  intros Hs H0. rewrite (regionprops_binary lp img h w Hs).
  - destruct (pixels (region_of w (data lp) (data img) 1)) as [|[[r c] x] ps] eqn:E;
      [reflexivity|].
    exfalso. destruct (region_of_pixels_in w (data lp) (data img) 1 r c x)
      as (p & Hp & Hl & _); [rewrite E; now left|].
    assert (Hin : In (nth p (data lp) 0%Z) (data lp)) by (apply nth_In; exact Hp).
    apply H0 in Hin. lia.
  - intros l Hl. left. now apply H0.
Qed.

(** C3 as stated fails: on an all-zero frame the foreground is empty and
    [main] raises IndexError, from [properties[0]]. *)
Lemma no_region_counterexample :
  (forall l : Z,
      In l (data (label_above 1 (snd (validity_masker zeros_2x2)))) -> l = 0%Z) /\
  peak_segmenter (snd (validity_masker zeros_2x2))
  = Returns (1, label_above 1 (snd (validity_masker zeros_2x2))) /\
  region_analyzer (label_above 1 (snd (validity_masker zeros_2x2))) zeros_2x2
  = Raises IndexError /\
  main zeros_2x2 1 None = Raises IndexError /\
  main zeros_2x2 1 None <> Raises NoRegionFound.
Proof.
  split.
  { intros l Hl. vm_compute in Hl. intuition congruence. }
  split; [vm_compute; reflexivity|].
  split; [vm_compute; reflexivity|].
  split; [vm_compute; reflexivity | vm_compute; discriminate].
Qed.

(** C3, amended.  For every 2-D frame whose peak label image has no pixel
    set, [regionprops] returns the empty list and the Region Analyzer fails
    with the IndexError of [properties[0]]; so do [beam_analysis] and
    [main].  No NoRegionFound condition is signalled. *)
Theorem no_region_index_error (a : ndarray Q) (h w : nat) (t : Q) (lp : ndarray Z) :
  shape a = [h; w] ->
  peak_segmenter (snd (validity_masker a)) = Returns (t, lp) ->
  (forall l : Z, In l (data lp) -> l = 0%Z) ->
  regionprops lp a = Returns [] /\
  region_analyzer lp a = Raises IndexError /\
  region_analyzer lp a <> Raises NoRegionFound /\
  forall (R : Z) (recordingTime : Q),
    beam_analysis a R = Raises IndexError /\
    main a recordingTime None = Raises IndexError.
Proof.
  intros Hs Hseg H0.
  assert (Hlp : shape lp = [h; w]).
  { unfold peak_segmenter in Hseg.
    destruct (np_max (snd (validity_masker a))); cbn [mbind py_bind] in Hseg;
      [|discriminate].
    injection Hseg as _ <-. exact Hs. }
  pose proof (regionprops_no_label lp a h w Hlp H0) as Hrp.
  assert (Hra : region_analyzer lp a = Raises IndexError).
  { unfold region_analyzer. now rewrite Hrp. }
  split; [exact Hrp|]. split; [exact Hra|]. split; [rewrite Hra; discriminate|].
  assert (HB : forall R : Z, beam_analysis a R = Raises IndexError).
  { intros R. pose proof (beam_analysis_cases a R) as Hc. cbv zeta in Hc.
    rewrite (reduce_loop_small (ndim a) a) in Hc by (unfold ndim; rewrite Hs; simpl; lia).
    cbn [validity_masker snd] in Hseg.
    destruct (np_max _) as [m|e] eqn:Em.
    - destruct Hc as [Hseg' Hc]. rewrite Hseg in Hseg'. injection Hseg' as -> ->.
      rewrite Hrp in Hc. exact Hc.
    - unfold peak_segmenter in Hseg. rewrite Em in Hseg. discriminate. }
  intros R recordingTime. split; [apply HB|].
  unfold main. cbn [roi_size_of mbind py_bind]. now rewrite HB.
Qed.

Lemma no_region_index_error_witness :
  region_analyzer (label_above 1 (snd (validity_masker zeros_2x2))) zeros_2x2
  = Raises IndexError /\
  main zeros_2x2 1 None = Raises IndexError.
Proof.
  assert (Hs : shape zeros_2x2 = [2; 2]%nat) by reflexivity.
  assert (Hseg : peak_segmenter (snd (validity_masker zeros_2x2))
                 = Returns (1, label_above 1 (snd (validity_masker zeros_2x2))))
    by (vm_compute; reflexivity).
  assert (H0 : forall l : Z,
             In l (data (label_above 1 (snd (validity_masker zeros_2x2)))) -> l = 0%Z).
  { intros l Hl. vm_compute in Hl. intuition congruence. }
  destruct (no_region_index_error zeros_2x2 2 2 1 _ Hs Hseg H0) as (_ & Hra & _ & Hm).
  split; [exact Hra | exact (proj2 (Hm 25%Z 1))].
Defined.

(** ** The weighted centroid *)

Lemma regionprops_returns_2d (lp : ndarray Z) (img : ndarray Q)
    (ps : list RegionProperties) :
  regionprops lp img = Returns ps -> exists h w : nat, shape lp = [h; w].
Proof.
  unfold regionprops. destruct (shape lp) as [|h [|w [|? ?]]]; try discriminate.
  intros _. now exists h, w.
Qed.

(** A successful run, with the one region it found. *)
Lemma beam_analysis_returns (a : ndarray Q) (R : Z) (an : analysis) :
  beam_analysis a R = Returns an ->
  let img := reduce_loop (ndim a) a in
  let masked := apply_mask img (labeled_foreground_of img) in
  exists (m : Q) (h w : nat),
    np_max masked = Returns m /\
    shape img = [h; w] /\
    let lp := label_above (threshold_of m) masked in
    let p0 := region_of w (data lp) (data img) 1 in
    regionprops lp img = Returns [p0] /\
    pixels p0 <> [] /\
    an = Analysis img (labeled_foreground_of img) masked (threshold_of m) lp
                  (centroid p0) (weighted_centroid p0)
                  (roi_sum masked (weighted_centroid p0) R).
Proof.
  intros H. cbv zeta. pose proof (beam_analysis_cases a R) as Hc. cbv zeta in Hc.
  destruct (np_max _) as [m|e] eqn:Em.
  2:{ destruct Hc as [Hc _]. rewrite Hc in H. discriminate. }
  destruct Hc as [_ Hc].
  destruct (regionprops _ _) as [ps|e] eqn:Er.
  2:{ destruct Hc as [Hc _]. rewrite Hc in H. discriminate. }
  destruct (regionprops_returns_2d _ _ _ Er) as (h & w & Hs).
  pose proof (regionprops_binary _ (reduce_loop (ndim a) a) h w Hs
                (label_above_01 _ _)) as Hb.
  exists m, h, w. split; [reflexivity|]. split; [exact Hs|].
  remember (region_of w _ _ 1) as p0 eqn:Hp0.
  rewrite Hb in Er.
  destruct (pixels p0) as [|px pxs] eqn:Epx.
  - assert (Hps : ps = []) by congruence. subst ps.
    cbv beta iota in Hc. rewrite Hc in H. discriminate.
  - assert (Hps : ps = [p0]) by congruence. subst ps.
    cbv beta iota in Hc. rewrite Hc in H. injection H as <-.
    split; [exact Hb|]. split; [discriminate | reflexivity].
Qed.

(** ** Slices *)

Lemma firstn_skipn_seq {A : Type} (d : A) (l : list A) (s n : nat) :
  (n = 0 \/ s + n <= length l)%nat ->
  firstn n (skipn s l) = map (fun i => nth i l d) (seq s n).
Proof.
  intros [->|H]; [reflexivity|].
  apply (nth_ext _ _ d d).
  - rewrite length_firstn, length_skipn, length_map, length_seq. lia.
  - intros k Hk. rewrite length_firstn, length_skipn in Hk.
    rewrite nth_firstn_lt by lia. rewrite nth_skipn_add.
    rewrite (nth_map_lt (fun i => nth i l d) 0%nat d) by (rewrite length_seq; lia).
    cbv beta. rewrite seq_nth by lia. reflexivity.
Qed.

(** A slice whose bounds are not negative, and whose stop is within the
    sequence, takes the elements [start], ..., [stop - 1]. *)
Lemma py_slice_nonneg {A : Type} (d : A) (start stop : Z) (l : list A) :
  (0 <= start)%Z -> (0 <= stop <= Z.of_nat (length l))%Z ->
  py_slice start stop l =
  map (fun i => nth i l d) (seq (Z.to_nat start) (Z.to_nat stop - Z.to_nat start)).
Proof.
  intros Hs He. unfold py_slice, slice_bound.
  destruct (Z.ltb_spec start 0); [lia|]. destruct (Z.ltb_spec stop 0); [lia|].
  rewrite (Z.min_l stop) by lia.
  destruct (Z.le_gt_cases start (Z.of_nat (length l))) as [Hle|Hgt].
  - rewrite Z.min_l by lia. apply firstn_skipn_seq. lia.
  - rewrite Z.min_r by lia. rewrite Nat2Z.id.
    replace (Z.to_nat stop - length l)%nat with 0%nat by lia.
    replace (Z.to_nat stop - Z.to_nat start)%nat with 0%nat by lia. reflexivity.
Qed.

Lemma py_int_nonneg (q : Q) : 0 <= q -> (0 <= py_int q)%Z.
Proof.
  intros Hq. unfold py_int. apply Z.quot_pos; [|lia].
  unfold Qle in Hq. simpl in Hq. lia.
Qed.

(** Truncation towards zero is within one of its argument, and below it
    when the argument is not negative. *)
Lemma py_int_above (q : Q) : q - 1 < inject_Z (py_int q).
Proof.
  unfold py_int, Qlt, Qminus, Qplus, Qopp, inject_Z. destruct q as [n dn]. simpl.
  pose proof (Z.quot_rem' n (Z.pos dn)) as Hqr.
  assert (Hr : (Z.rem n (Z.pos dn) < Z.pos dn)%Z).
  { assert (Hb : Z.pos dn <> 0%Z) by lia.
    pose proof (Z.rem_bound_abs n (Z.pos dn) Hb). lia. }
  nia.
Qed.

Lemma py_int_below (q : Q) : 0 <= q -> inject_Z (py_int q) <= q.
Proof.
  unfold py_int, Qle, inject_Z. destruct q as [n dn]. simpl. intros Hn.
  pose proof (Z.quot_rem' n (Z.pos dn)) as Hqr.
  pose proof (Z.rem_bound_pos n (Z.pos dn)). nia.
Qed.

Lemma slice2_window (a : ndarray Q) (h w : nat) (r0 r1 c0 c1 : Z) :
  shape a = [h; w] -> well_formed a ->
  (0 <= r0)%Z -> (0 <= r1 <= Z.of_nat h)%Z ->
  (0 <= c0)%Z -> (0 <= c1 <= Z.of_nat w)%Z ->
  data (slice2 a r0 r1 c0 c1) =
  concat (window_pixels w (data a) (Z.to_nat r0) (Z.to_nat r1) (Z.to_nat c0) (Z.to_nat c1)).
Proof.
  intros Hs Hwf Hr0 Hr1 Hc0 Hc1. unfold slice2. rewrite Hs. cbn [data]. f_equal.
  rewrite (py_slice_nonneg [] r0 r1) by (rewrite ?chunks_length; lia).
  unfold window_pixels. rewrite map_map. apply map_ext_in. intros i Hi.
  apply in_seq in Hi.
  assert (Hih : (i < h)%nat) by lia.
  rewrite chunks_nth by exact Hih.
  assert (Hlen : length (data a) = (h * w)%nat).
  { unfold well_formed in Hwf. rewrite Hs in Hwf. cbn in Hwf. lia. }
  assert (Hrow : length (firstn w (skipn (i * w) (data a))) = w).
  { rewrite length_firstn, length_skipn. nia. }
  rewrite (py_slice_nonneg 0 c0 c1) by (rewrite ?Hrow; lia).
  apply map_ext_in. intros j Hj. apply in_seq in Hj.
  rewrite nth_firstn_lt by lia. rewrite nth_skipn_add. reflexivity.
Qed.

(** ** The region of interest *)

Lemma centre_plus_size_nonneg (c : Q) (R : Z) :
  0 <= c -> (0 <= R)%Z -> 0 <= c + inject_Z R.
Proof.
  intros Hc HR. rewrite <- (Qplus_0_l 0). apply Qplus_le_compat; [exact Hc|].
  unfold Qle, inject_Z. simpl. lia.
Qed.

Lemma roi_bounds (c : Q) (R : Z) (len : nat) :
  0 <= c -> (0 <= R)%Z ->
  (0 <= roi_start c R)%Z /\ (0 <= roi_stop c R len <= Z.of_nat len)%Z.
Proof.
  intros Hc HR. unfold roi_start, roi_stop.
  assert (H : (0 <= py_int (c + inject_Z R))%Z).
  { apply py_int_nonneg. now apply centre_plus_size_nonneg. }
  lia.
Qed.

(** The rows (or columns) of the window lie in the frame and within
    [ROI_SIZE] (+1 below, for the truncation) of the centroid. *)
Lemma roi_index_near (c : Q) (R : Z) (len i : nat) :
  0 <= c -> (0 <= R)%Z ->
  (Z.to_nat (roi_start c R) <= i < Z.to_nat (roi_stop c R len))%nat ->
  (i < len)%nat /\
  c - inject_Z R - 1 < inject_Z (Z.of_nat i) /\
  inject_Z (Z.of_nat i) < c + inject_Z R.
Proof.
  intros Hc HR Hi.
  destruct (roi_bounds c R len Hc HR) as [H0 H1].
  unfold roi_start, roi_stop in *.
  split; [lia|]. split.
  - eapply Qlt_le_trans; [apply py_int_above|]. rewrite <- Zle_Qle. lia.
  - eapply Qlt_le_trans; [|apply py_int_below].
    + rewrite <- Zlt_Qlt. lia.
    + now apply centre_plus_size_nonneg.
Qed.

Lemma roi_sum_window (masked : ndarray Q) (h w : nat) (cr cc : Q) (R : Z) :
  shape masked = [h; w] -> well_formed masked ->
  0 <= cr -> 0 <= cc -> (0 <= R)%Z ->
  data (slice2 masked (roi_start cr R) (roi_stop cr R h)
                      (roi_start cc R) (roi_stop cc R w)) =
  concat (window_pixels w (data masked)
            (Z.to_nat (roi_start cr R)) (Z.to_nat (roi_stop cr R h))
            (Z.to_nat (roi_start cc R)) (Z.to_nat (roi_stop cc R w))) /\
  roi_sum masked (cr, cc) R ==
  np_sum (map np_sum
            (window_pixels w (data masked)
               (Z.to_nat (roi_start cr R)) (Z.to_nat (roi_stop cr R h))
               (Z.to_nat (roi_start cc R)) (Z.to_nat (roi_stop cc R w)))).
Proof.
  intros Hs Hwf Hcr Hcc HR.
  destruct (roi_bounds cr R h Hcr HR) as [Hr0 Hr1].
  destruct (roi_bounds cc R w Hcc HR) as [Hc0 Hc1].
  pose proof (slice2_window masked h w _ _ _ _ Hs Hwf Hr0 Hr1 Hc0 Hc1) as Hd.
  split; [exact Hd|].
  unfold roi_sum, shape_at. rewrite Hs. cbn [nth fst snd].
  rewrite Hd. apply np_sum_concat.
Qed.

(** ** The hypotheses on the region of interest hold in every run *)

Lemma np_mean_axis0_wf (a : ndarray Q) :
  well_formed a -> well_formed (np_mean_axis0 a).
Proof.
  unfold well_formed, np_mean_axis0. destruct a as [[|n0 rest] d]; cbn [shape data];
    [trivial|].
  change (size_of (n0 :: rest)) with (n0 * size_of rest)%nat. intros Hwf.
  rewrite length_map. unfold sum_axis0.
  destruct (fold_vadd_spec (chunks n0 (size_of rest) d) (repeat 0 (size_of rest)) 0%nat)
    as [Hl _].
  { rewrite repeat_length. apply chunks_block_length. lia. }
  now rewrite Hl, repeat_length.
Qed.

Lemma reduce_loop_wf (f : nat) : forall a : ndarray Q,
  well_formed a -> well_formed (reduce_loop f a).
Proof.
  induction f as [|f IH]; intros a Hwf; simpl; [exact Hwf|].
  destruct (2 <? ndim a)%nat; [apply IH; now apply np_mean_axis0_wf | exact Hwf].
Qed.

Lemma apply_mask_wf (img : ndarray Q) :
  well_formed img -> well_formed (apply_mask img (labeled_foreground_of img)).
Proof.
  unfold well_formed. cbn [apply_mask labeled_foreground_of shape data]. intros Hwf.
  rewrite length_zip_with, length_map. lia.
Qed.

(** A pixel above a threshold of at least 1 is a valid pixel: there the
    masked and the unmasked intensity agree, and exceed 1. *)
Lemma foreground_pixels_valid (img : ndarray Q) (t : Q) (p : nat) :
  1 <= t -> (p < length (data img))%nat ->
  nth p (data (label_above t (apply_mask img (labeled_foreground_of img)))) 0%Z = 1%Z ->
  in_valid_range (nth p (data img) 0) = true /\
  nth p (data (apply_mask img (labeled_foreground_of img))) 0 == nth p (data img) 0 /\
  1 < nth p (data img) 0.
Proof.
  intros Ht Hp Hl.
  assert (Hpm : (p < length (data (apply_mask img (labeled_foreground_of img))))%nat).
  { cbn [apply_mask labeled_foreground_of data]. rewrite length_zip_with, length_map. lia. }
  rewrite label_above_nth in Hl by exact Hpm.
  destruct (Qgtb _ t) eqn:E; [|discriminate]. apply Qgtb_spec in E.
  rewrite apply_mask_nth, labeled_foreground_nth in E |- * by exact Hp.
  destruct (in_valid_range (nth p (data img) 0)).
  - split; [reflexivity|]. split; [ring|].
    eapply Qle_lt_trans; [exact Ht|].
    eapply Qlt_le_trans; [exact E|]. ring_simplify. apply Qle_refl.
  - exfalso. apply (Qlt_not_le _ _ E).
    eapply Qle_trans; [|exact Ht]. ring_simplify. discriminate.
Qed.

Lemma Qdiv_nonneg (x y : Q) : 0 <= x -> 0 <= y -> 0 <= x / y.
Proof.
  intros Hx Hy. unfold Qdiv. apply Qmult_le_0_compat; [exact Hx|].
  now apply Qinv_le_0_compat.
Qed.

Lemma weighted_centroid_nonneg (r : RegionProperties) :
  (forall p, In p (pixels r) -> 0 <= weight_of p) ->
  0 <= fst (weighted_centroid r) /\ 0 <= snd (weighted_centroid r).
Proof.
  intros Hw.
  assert (Hz : forall n : nat, 0 <= inject_Z (Z.of_nat n)).
  { intros n. unfold Qle, inject_Z. simpl. lia. }
  assert (Htot : 0 <= np_sum (map weight_of (pixels r))).
  { apply np_sum_nonneg. intros x Hx. apply in_map_iff in Hx.
    destruct Hx as (p & <- & Hp). now apply Hw. }
  unfold weighted_centroid. cbn [fst snd].
  split; (apply Qdiv_nonneg; [|exact Htot]); apply np_sum_nonneg; intros x Hx;
    apply in_map_iff in Hx; destruct Hx as (p & <- & Hp);
    (apply Qmult_le_0_compat; [apply Hz | now apply Hw]).
Qed.

(** In every successful run on a well-formed input, the masked frame is a
    well-formed 2-D array of the shape of the reduced frame, the region
    weights are the valid intensities above 1, and the weighted centroid has
    coordinates that are not negative. *)
Lemma beam_analysis_roi_inputs (a : ndarray Q) (R : Z) (an : analysis) :
  well_formed a -> beam_analysis a R = Returns an ->
  exists h w : nat,
    shape (maskedTwoDImage an) = [h; w] /\
    well_formed (maskedTwoDImage an) /\
    0 <= fst (weighted_center_of_mass an) /\
    0 <= snd (weighted_center_of_mass an) /\
    ITotal_region an = roi_sum (maskedTwoDImage an) (weighted_center_of_mass an) R.
Proof.
  intros Hwf H.
  destruct (beam_analysis_returns a R an H) as (m & h & w & Hm & Hs & Hrest).
  cbv zeta in Hrest. destruct Hrest as (_ & _ & ->).
  cbn [maskedTwoDImage weighted_center_of_mass ITotal_region].
  exists h, w. split; [exact Hs|].
  split; [apply apply_mask_wf; now apply reduce_loop_wf|].
  set (img := reduce_loop (ndim a) a) in *.
  destruct (weighted_centroid_nonneg
              (region_of w (data (label_above (threshold_of m)
                                    (apply_mask img (labeled_foreground_of img))))
                         (data img) 1)) as [H1 H2].
  { intros [[r c] x] Hin.
    destruct (region_of_pixels_in _ _ _ _ r c x Hin) as (p & Hp & Hl & _ & _ & ->).
    cbn [weight_of snd].
    assert (Hp' : (p < length (data img))%nat).
    { cbn [label_above apply_mask labeled_foreground_of data] in Hp.
      rewrite length_map, length_zip_with, length_map in Hp. lia. }
    destruct (foreground_pixels_valid img (threshold_of m) p) as (_ & _ & Hgt);
      [apply Q.le_max_l | exact Hp' | exact Hl |].
    apply Qlt_le_weak. eapply Qlt_trans; [|exact Hgt]. reflexivity. }
  split; [exact H1|]. split; [exact H2 | reflexivity].
Qed.

(** ** The window in double precision *)

Lemma add_nonneg (c : Q) (R : Z) : 0 <= c -> (0 <= R)%Z -> 0 <= Float64.add c R.
Proof.
  intros Hc HR. unfold Float64.add. apply round_nonneg.
  rewrite <- (Qplus_0_l 0). apply Qplus_le_compat; [exact Hc|].
  apply round_nonneg. change 0 with (inject_Z 0). now rewrite <- Zle_Qle.
Qed.

Lemma int64_returns (z r : Z) :
  Float64.int64 z = Returns r <-> Float64.in_int64 z = true /\ r = z.
Proof.
  unfold Float64.int64. destruct (Float64.in_int64 z); split.
  - intros H. injection H as <-. now split.
  - intros [_ ->]. reflexivity.
  - discriminate.
  - intros [H _]. discriminate.
Qed.

Lemma int64_raises (z : Z) :
  Float64.in_int64 z = false -> Float64.int64 z = Raises OverflowError.
Proof. unfold Float64.int64. now intros ->. Qed.

(** The window bounds when they fit into 64 bits. *)
Lemma Float64_roi_bounds (c : Q) (R : Z) (len : nat) :
  0 <= c -> (0 <= R)%Z ->
  Float64.in_int64 (py_int (Float64.subtract c R)) = true ->
  Float64.in_int64 (py_int (Float64.add c R)) = true ->
  Float64.roi_start c R = Returns (Z.max (py_int (Float64.subtract c R)) 0) /\
  Float64.roi_stop c R len
  = Returns (Z.min (py_int (Float64.add c R)) (Z.of_nat len)) /\
  (0 <= Z.max (py_int (Float64.subtract c R)) 0)%Z /\
  (0 <= Z.min (py_int (Float64.add c R)) (Z.of_nat len) <= Z.of_nat len)%Z.
Proof.
  intros Hc HR Hlo Hhi. unfold Float64.roi_start, Float64.roi_stop, Float64.int64.
  rewrite Hlo, Hhi. cbn [mbind py_bind].
  pose proof (py_int_nonneg _ (add_nonneg c R Hc HR)).
  repeat split; lia.
Qed.

(** The rows (or columns) of the window lie in the frame and between the
    two rounded bounds (one more below, for the truncation). *)
Lemma Float64_roi_index_near (c : Q) (R : Z) (len i : nat) :
  0 <= c -> (0 <= R)%Z ->
  (Z.to_nat (Z.max (py_int (Float64.subtract c R)) 0) <= i
   < Z.to_nat (Z.min (py_int (Float64.add c R)) (Z.of_nat len)))%nat ->
  (i < len)%nat /\
  Float64.subtract c R - 1 < inject_Z (Z.of_nat i) /\
  inject_Z (Z.of_nat i) < Float64.add c R.
Proof.
  intros Hc HR Hi.
  pose proof (py_int_nonneg _ (add_nonneg c R Hc HR)) as Hhi.
  split; [lia|]. split.
  - eapply Qlt_le_trans; [apply py_int_above|]. rewrite <- Zle_Qle. lia.
  - eapply Qlt_le_trans; [|apply py_int_below; now apply add_nonneg].
    rewrite <- Zlt_Qlt. lia.
Qed.

(** The Flux Integrator when the four bounds fit into 64 bits: its slice
    is the window of the rows and columns between the bounds. *)
Lemma flux_integrator_window (masked : ndarray Q) (h w : nat) (cr cc : Q)
    (R : Z) (t : Q) :
  shape masked = [h; w] -> well_formed masked ->
  0 <= cr -> 0 <= cc -> (0 <= R)%Z ->
  Float64.in_int64 (py_int (Float64.subtract cr R)) = true ->
  Float64.in_int64 (py_int (Float64.add cr R)) = true ->
  Float64.in_int64 (py_int (Float64.subtract cc R)) = true ->
  Float64.in_int64 (py_int (Float64.add cc R)) = true ->
  let r0 := Z.max (py_int (Float64.subtract cr R)) 0 in
  let r1 := Z.min (py_int (Float64.add cr R)) (Z.of_nat h) in
  let c0 := Z.max (py_int (Float64.subtract cc R)) 0 in
  let c1 := Z.min (py_int (Float64.add cc R)) (Z.of_nat w) in
  let I := np_sum (data (slice2 masked r0 r1 c0 c1)) in
  flux_integrator masked (cr, cc) R t = Returns (I, np_divide I t) /\
  data (slice2 masked r0 r1 c0 c1)
  = concat (window_pixels w (data masked)
              (Z.to_nat r0) (Z.to_nat r1) (Z.to_nat c0) (Z.to_nat c1)) /\
  I == np_sum (map np_sum
                 (window_pixels w (data masked)
                    (Z.to_nat r0) (Z.to_nat r1) (Z.to_nat c0) (Z.to_nat c1))).
Proof.
  intros Hs Hwf Hcr Hcc HR H1 H2 H3 H4 r0 r1 c0 c1 I.
  destruct (Float64_roi_bounds cr R h Hcr HR H1 H2) as (Er0 & Er1 & Hr0 & Hr1).
  destruct (Float64_roi_bounds cc R w Hcc HR H3 H4) as (Ec0 & Ec1 & Hc0 & Hc1).
  pose proof (slice2_window masked h w _ _ _ _ Hs Hwf Hr0 Hr1 Hc0 Hc1) as Hd.
  split; [|split; [exact Hd|]].
  - unfold flux_integrator, shape_at. rewrite Hs. cbn [nth fst snd].
    rewrite Er0, Er1, Ec0, Ec1. reflexivity.
  - subst I. fold r0 r1 c0 c1 in Hd. rewrite Hd. apply np_sum_concat.
Qed.

(** A bound that does not fit into 64 bits makes the Flux Integrator raise
    OverflowError. *)
Lemma flux_integrator_overflow (masked : ndarray Q) (c : Q * Q) (R : Z) (t : Q) :
  Float64.in_int64 (py_int (Float64.subtract (fst c) R))
  && Float64.in_int64 (py_int (Float64.add (fst c) R))
  && Float64.in_int64 (py_int (Float64.subtract (snd c) R))
  && Float64.in_int64 (py_int (Float64.add (snd c) R)) = false ->
  flux_integrator masked c R t = Raises OverflowError.
Proof.
  intros H. unfold flux_integrator, Float64.roi_start, Float64.roi_stop, Float64.int64.
  destruct (Float64.in_int64 (py_int (Float64.subtract (fst c) R)));
    cbn [mbind py_bind]; [|reflexivity].
  destruct (Float64.in_int64 (py_int (Float64.add (fst c) R)));
    cbn [mbind py_bind]; [|reflexivity].
  destruct (Float64.in_int64 (py_int (Float64.subtract (snd c) R)));
    cbn [mbind py_bind]; [|reflexivity].
  destruct (Float64.in_int64 (py_int (Float64.add (snd c) R)));
    cbn [mbind py_bind]; [discriminate | reflexivity].
Qed.

(** The exact window of [beam_analysis] is the one of the Flux Integrator
    whenever no bound is changed by rounding or refused as too large. *)
Lemma flux_integrator_exact (masked : ndarray Q) (c : Q * Q) (R : Z) (t : Q) :
  Float64.roi_start (fst c) R = Returns (roi_start (fst c) R) ->
  Float64.roi_stop (fst c) R (shape_at masked 0)
  = Returns (roi_stop (fst c) R (shape_at masked 0)) ->
  Float64.roi_start (snd c) R = Returns (roi_start (snd c) R) ->
  Float64.roi_stop (snd c) R (shape_at masked 1)
  = Returns (roi_stop (snd c) R (shape_at masked 1)) ->
  flux_integrator masked c R t
  = Returns (roi_sum masked c R, np_divide (roi_sum masked c R) t).
Proof.
  intros H1 H2 H3 H4. unfold flux_integrator. rewrite H1, H2, H3, H4. reflexivity.
Qed.

(** The double below 4 plus 1 is rounded to 5: around row
    3.9999999999999996 with ROI_SIZE 1 the window is the slice [2:5], one
    row more than the truncation of the exact sum would give. *)
Lemma rounding_moves_the_window :
  Float64.add below_four 1 == 5 /\
  py_int (below_four + 1) = 4%Z /\
  Float64.roi_start below_four 1 = Returns 2%Z /\
  Float64.roi_stop below_four 1 5 = Returns 5%Z /\
  flux_integrator column_5 (below_four, 0) 1 1 = Returns (12, Finite (12 / 1)).
Proof.
  split; [vm_compute; reflexivity|]. split; [vm_compute; reflexivity|].
  split; [vm_compute; reflexivity|]. split; vm_compute; reflexivity.
Qed.

(** Why ROI_SIZE must not be negative in the statements below: a stop
    index below zero counts from the far edge of the frame.  Around row 10
    with ROI_SIZE -30 the slice is [40:-20], that is rows 40, ..., 79. *)
Lemma negative_roi_size_wraps :
  Float64.roi_start 10 (-30) = Returns 40%Z /\
  Float64.roi_stop 10 (-30) 100 = Returns (-20)%Z /\
  py_slice 40 (-20) (seq 0 100) = seq 40 40.
Proof.
  split; [vm_compute; reflexivity|]. split; vm_compute; reflexivity.
Qed.

(** C1 as stated fails: around (50,50) with ROI_SIZE 25 the slice takes
    rows and columns 25, ..., 74, that is 50 x 50 pixels, not 51 x 51. *)
Lemma flux_integrator_counterexample :
  flux_integrator (ones 100 100) (50, 50) 25 2 = Returns (2500, Finite (2500 # 2)) /\
  Float64.roi_start 50 25 = Returns 25%Z /\
  Float64.roi_stop 50 25 100 = Returns 75%Z /\
  py_slice 25 75 (seq 0 100) = seq 25 50 /\
  ~ 2500 == 2601 /\
  ~ 2500 # 2 == 2601 # 2.
Proof.
  split; [vm_compute; reflexivity|]. split; [vm_compute; reflexivity|].
  split; [vm_compute; reflexivity|]. split; [vm_compute; reflexivity|].
  split; discriminate.
Qed.

(** C1, amended.  For every 2-D masked frame of finite values, centroid
    with coordinates that are not negative and half-width ROI_SIZE >= 0,
    the Flux Integrator computes [centroid - ROI_SIZE] and
    [centroid + ROI_SIZE] in double precision and truncates them.  When the
    four integers fit into 64 bits, it sums the masked intensity over the
    rows [r0, ..., r1 - 1] and columns [c0, ..., c1 - 1], where
    [r0 = max(int(centroid_row - ROI_SIZE), 0)],
    [r1 = min(int(centroid_row + ROI_SIZE), height)], and likewise for the
    columns: the lower end belongs to the window, the upper end does not.
    When one of them does not fit, it raises OverflowError.
    For the 100 x 100 all-ones frame, ROI_SIZE 25, centroid (50,50) and
    exposure time 2 the integrated intensity is 50 x 50 = 2500 and the
    flux 1250. *)
Theorem flux_integrator_half_open (masked : ndarray Q) (h w : nat) (cr cc : Q)
    (R : Z) (t : Q) :
  shape masked = [h; w] -> well_formed masked ->
  0 <= cr -> 0 <= cc -> (0 <= R)%Z ->
  let lo_r := py_int (Float64.round (cr - Float64.round (inject_Z R))) in
  let hi_r := py_int (Float64.round (cr + Float64.round (inject_Z R))) in
  let lo_c := py_int (Float64.round (cc - Float64.round (inject_Z R))) in
  let hi_c := py_int (Float64.round (cc + Float64.round (inject_Z R))) in
  let r0 := Z.to_nat (Z.max lo_r 0) in
  let r1 := Z.to_nat (Z.min hi_r (Z.of_nat h)) in
  let c0 := Z.to_nat (Z.max lo_c 0) in
  let c1 := Z.to_nat (Z.min hi_c (Z.of_nat w)) in
  (Float64.in_int64 lo_r && Float64.in_int64 hi_r
   && Float64.in_int64 lo_c && Float64.in_int64 hi_c = true ->
   exists I : Q,
     flux_integrator masked (cr, cc) R t = Returns (I, np_divide I t) /\
     I == np_sum (map (fun i =>
                    np_sum (map (fun j => pixel w (data masked) i j) (seq c0 (c1 - c0))))
                    (seq r0 (r1 - r0))) /\
     (r1 <= h)%nat /\ (c1 <= w)%nat) /\
  (Float64.in_int64 lo_r && Float64.in_int64 hi_r
   && Float64.in_int64 lo_c && Float64.in_int64 hi_c = false ->
   flux_integrator masked (cr, cc) R t = Raises OverflowError) /\
  flux_integrator (ones 100 100) (50, 50) 25 2 = Returns (2500, Finite (2500 # 2)) /\
  2500 # 2 == 1250.
Proof.
  intros Hs Hwf Hcr Hcc HR lo_r hi_r lo_c hi_c r0 r1 c0 c1.
  split; [|split; [|split; [vm_compute; reflexivity | reflexivity]]].
  - intros Hfit. apply andb_true_iff in Hfit. destruct Hfit as [Hfit H4].
    apply andb_true_iff in Hfit. destruct Hfit as [Hfit H3].
    apply andb_true_iff in Hfit. destruct Hfit as [H1 H2].
    destruct (flux_integrator_window masked h w cr cc R t Hs Hwf Hcr Hcc HR H1 H2 H3 H4)
      as (Hf & _ & Hsum).
    eexists. split; [exact Hf|]. split.
    { rewrite Hsum. unfold window_pixels. rewrite map_map. reflexivity. }
    pose proof (py_int_nonneg _ (add_nonneg cr R Hcr HR)).
    pose proof (py_int_nonneg _ (add_nonneg cc R Hcc HR)).
    subst r1 c1 hi_r hi_c. unfold Float64.add in *. lia.
  - intros Hno. exact (flux_integrator_overflow masked (cr, cc) R t Hno).
Qed.

Lemma flux_integrator_half_open_witness :
  exists I : Q,
    flux_integrator spot_3x3 (1, 1) 1 2 = Returns (I, np_divide I 2) /\
    I == np_sum (map (fun i =>
                   np_sum (map (fun j => pixel 3 (data spot_3x3) i j) (seq 0 2)))
                   (seq 0 2)).
Proof.
  assert (Hs : shape spot_3x3 = [3; 3]%nat) by reflexivity.
  assert (Hwf : well_formed spot_3x3) by reflexivity.
  assert (H1 : 0 <= 1) by discriminate.
  assert (HR : (0 <= 1)%Z) by lia.
  destruct (proj1 (flux_integrator_half_open spot_3x3 3 3 1 1 1 2 Hs Hwf H1 H1 HR) eq_refl)
    as (I & HI & Hsum & _).
  exists I. split; [exact HI | exact Hsum].
Defined.

(** C5 as stated fails in its example, and in that an error is never
    raised: around (2,2) with ROI_SIZE 25 the window is rows and columns
    0, ..., 26; row and column 27 are not part of it, and 27 x 27 pixels
    are summed, not 28 x 28.  With ROI_SIZE 2^63 - 1 the upper bound does
    not fit into 64 bits and OverflowError is raised. *)
Lemma roi_edge_counterexample :
  Float64.roi_start 2 25 = Returns 0%Z /\ Float64.roi_stop 2 25 100 = Returns 27%Z /\
  py_slice 0 27 (seq 0 100) = seq 0 27 /\
  ~ In 27%nat (py_slice 0 27 (seq 0 100)) /\
  flux_integrator (ones 100 100) (2, 2) 25 1 = Returns (729, Finite (729 / 1)) /\
  ~ 729 == 28 * 28 /\
  flux_integrator (ones 100 100) (2, 2) (2 ^ 63 - 1) 1 = Raises OverflowError.
Proof.
  split; [vm_compute; reflexivity|]. split; [vm_compute; reflexivity|].
  split; [vm_compute; reflexivity|].
  split.
  { intros H. vm_compute in H. repeat (destruct H as [H|H]; [discriminate|]). exact H. }
  split; [vm_compute; reflexivity|]. split; [discriminate|].
  vm_compute. reflexivity.
Qed.

(** C5, amended.  For every masked frame of finite values, centroid with
    coordinates that are not negative and ROI_SIZE >= 0: when the four
    truncated bounds fit into 64 bits, the window of the flux integration
    is clipped to the frame on both axes: its rows [r0, ..., r1 - 1] and
    columns [c0, ..., c1 - 1] lie in the frame and between the rounded
    [centroid - ROI_SIZE] (one more below, where the bound is truncated)
    and [centroid + ROI_SIZE], so exactly these in-bounds pixels are
    summed and nothing is raised; otherwise OverflowError is raised.  In
    every successful run on a well-formed input the masked frame is 2-D,
    the coordinates of the weighted centroid are not negative, and the
    integrated intensity is the one the Flux Integrator returns for the
    masked frame and the weighted centroid whenever rounding leaves the
    bounds as they are.
    Around (2,2) with ROI_SIZE 25 on a 100 x 100 frame the window is rows
    and columns 0, ..., 26 (the slice 0:27). *)
Theorem roi_clipped_to_frame (masked : ndarray Q) (h w : nat) (cr cc : Q) (R : Z) :
  shape masked = [h; w] -> well_formed masked ->
  0 <= cr -> 0 <= cc -> (0 <= R)%Z ->
  let lo_r := py_int (Float64.subtract cr R) in
  let hi_r := py_int (Float64.add cr R) in
  let lo_c := py_int (Float64.subtract cc R) in
  let hi_c := py_int (Float64.add cc R) in
  let r0 := Z.to_nat (Z.max lo_r 0) in
  let r1 := Z.to_nat (Z.min hi_r (Z.of_nat h)) in
  let c0 := Z.to_nat (Z.max lo_c 0) in
  let c1 := Z.to_nat (Z.min hi_c (Z.of_nat w)) in
  (Float64.in_int64 lo_r && Float64.in_int64 hi_r
   && Float64.in_int64 lo_c && Float64.in_int64 hi_c = true ->
   (forall t : Q,
      flux_integrator masked (cr, cc) R t
      = Returns (np_sum (data (slice2 masked (Z.max lo_r 0) (Z.min hi_r (Z.of_nat h))
                                             (Z.max lo_c 0) (Z.min hi_c (Z.of_nat w)))),
                 np_divide
                   (np_sum (data (slice2 masked (Z.max lo_r 0) (Z.min hi_r (Z.of_nat h))
                                                (Z.max lo_c 0) (Z.min hi_c (Z.of_nat w)))))
                   t)) /\
   data (slice2 masked (Z.max lo_r 0) (Z.min hi_r (Z.of_nat h))
                       (Z.max lo_c 0) (Z.min hi_c (Z.of_nat w))) =
   concat (map (fun i => map (fun j => pixel w (data masked) i j) (seq c0 (c1 - c0)))
               (seq r0 (r1 - r0)))) /\
  (Float64.in_int64 lo_r && Float64.in_int64 hi_r
   && Float64.in_int64 lo_c && Float64.in_int64 hi_c = false ->
   forall t : Q, flux_integrator masked (cr, cc) R t = Raises OverflowError) /\
  (forall i : nat, (r0 <= i < r1)%nat ->
     (i < h)%nat /\
     Float64.subtract cr R - 1 < inject_Z (Z.of_nat i) /\
     inject_Z (Z.of_nat i) < Float64.add cr R) /\
  (forall j : nat, (c0 <= j < c1)%nat ->
     (j < w)%nat /\
     Float64.subtract cc R - 1 < inject_Z (Z.of_nat j) /\
     inject_Z (Z.of_nat j) < Float64.add cc R) /\
  (forall (a : ndarray Q) (an : analysis) (t : Q),
     well_formed a -> beam_analysis a R = Returns an ->
     exists h' w' : nat,
       shape (maskedTwoDImage an) = [h'; w'] /\
       well_formed (maskedTwoDImage an) /\
       0 <= fst (weighted_center_of_mass an) /\
       0 <= snd (weighted_center_of_mass an) /\
       (Float64.roi_start (fst (weighted_center_of_mass an)) R
        = Returns (roi_start (fst (weighted_center_of_mass an)) R) ->
        Float64.roi_stop (fst (weighted_center_of_mass an)) R h'
        = Returns (roi_stop (fst (weighted_center_of_mass an)) R h') ->
        Float64.roi_start (snd (weighted_center_of_mass an)) R
        = Returns (roi_start (snd (weighted_center_of_mass an)) R) ->
        Float64.roi_stop (snd (weighted_center_of_mass an)) R w'
        = Returns (roi_stop (snd (weighted_center_of_mass an)) R w') ->
        flux_integrator (maskedTwoDImage an) (weighted_center_of_mass an) R t
        = Returns (ITotal_region an, np_divide (ITotal_region an) t))) /\
  Float64.roi_start 2 25 = Returns 0%Z /\ Float64.roi_stop 2 25 100 = Returns 27%Z /\
  py_slice 0 27 (seq 0 100) = seq 0 27 /\
  flux_integrator (ones 100 100) (2, 2) 25 1 = Returns (729, Finite (729 / 1)).
Proof.
  intros Hs Hwf Hcr Hcc HR lo_r hi_r lo_c hi_c r0 r1 c0 c1.
  split.
  { intros Hfit. apply andb_true_iff in Hfit. destruct Hfit as [Hfit H4].
    apply andb_true_iff in Hfit. destruct Hfit as [Hfit H3].
    apply andb_true_iff in Hfit. destruct Hfit as [H1 H2].
    split.
    - intros t.
      exact (proj1 (flux_integrator_window masked h w cr cc R t
                      Hs Hwf Hcr Hcc HR H1 H2 H3 H4)).
    - exact (proj1 (proj2 (flux_integrator_window masked h w cr cc R 0
                             Hs Hwf Hcr Hcc HR H1 H2 H3 H4))). }
  split.
  { intros Hno t. exact (flux_integrator_overflow masked (cr, cc) R t Hno). }
  split; [intros i Hi; now apply Float64_roi_index_near|].
  split; [intros j Hj; now apply Float64_roi_index_near|].
  split.
  { intros a an t Hwfa H.
    destruct (beam_analysis_roi_inputs a R an Hwfa H) as (h' & w' & Hs' & Hwf' & H0 & H1 & HI).
    exists h', w'. split; [exact Hs'|]. split; [exact Hwf'|].
    split; [exact H0|]. split; [exact H1|].
    intros E1 E2 E3 E4. rewrite HI.
    apply flux_integrator_exact; unfold shape_at; rewrite ?Hs'; cbn [nth]; assumption. }
  split; [vm_compute; reflexivity|]. split; [vm_compute; reflexivity|].
  split; vm_compute; reflexivity.
Qed.

Lemma roi_clipped_to_frame_witness :
  (Z.to_nat (Z.max (py_int (Float64.subtract 1 25)) 0) <= 2
   < Z.to_nat (Z.min (py_int (Float64.add 1 25)) (Z.of_nat 3)))%nat /\
  (2 < 3)%nat /\
  inject_Z (Z.of_nat 2) < Float64.add 1 25.
Proof.
  assert (Hs : shape spot_3x3 = [3; 3]%nat) by reflexivity.
  assert (Hwf : well_formed spot_3x3) by reflexivity.
  assert (H1 : 0 <= 1) by discriminate.
  assert (HR : (0 <= 25)%Z) by lia.
  assert (Hi : (Z.to_nat (Z.max (py_int (Float64.subtract 1 25)) 0) <= 2
                < Z.to_nat (Z.min (py_int (Float64.add 1 25)) (Z.of_nat 3)))%nat)
    by (vm_compute; lia).
  destruct (roi_clipped_to_frame spot_3x3 3 3 1 1 25 Hs Hwf H1 H1 HR)
    as (_ & _ & Hrows & _).
  destruct (Hrows 2%nat Hi) as (Hh & _ & Hnear).
  split; [exact Hi|]. split; [exact Hh | exact Hnear].
Defined.

(** * Further properties of the code *)

(** ** The key-value action *)

Lemma split_first_equals_none (l : list ascii) :
  split_first_equals l = None <-> ~ In "="%char l.
Proof.
  induction l as [|c l IH]; simpl.
  - split; [intros _ [] | reflexivity].
  - destruct (Ascii.eqb_spec c "="%char) as [->|Hne].
    + split; [discriminate | intros H; exfalso; apply H; now left].
    + destruct (split_first_equals l) as [[k v]|].
      * split; [discriminate|]. intros H. exfalso.
        assert (Hl : ~ In "="%char l) by (intros Hin; apply H; now right).
        apply IH in Hl. discriminate.
      * split; [|reflexivity]. intros _ [Hc|Hin]; [congruence|].
        now apply (proj1 IH).
Qed.

Lemma split_first_equals_some (l key value : list ascii) :
  split_first_equals l = Some (key, value) <->
  l = key ++ "="%char :: value /\ ~ In "="%char key.
Proof.
  revert key. induction l as [|c l IH]; intros key; simpl.
  - split; [discriminate|]. intros [H _]. now destruct key.
  - destruct (Ascii.eqb_spec c "="%char) as [->|Hne].
    + split.
      * intros H. injection H as <- <-. split; [reflexivity | intros []].
      * intros [H Hk]. destruct key as [|c' key]; simpl in H.
        -- now injection H as <-.
        -- injection H as <- _. exfalso. apply Hk. now left.
    + split.
      * destruct (split_first_equals l) as [[k v]|] eqn:E; [|discriminate].
        intros H. injection H as <- <-. destruct (proj1 (IH k) eq_refl) as [-> Hk].
        split; [reflexivity|]. intros [Hc|Hin]; [congruence | contradiction].
      * intros [H Hk]. destruct key as [|c' key]; simpl in H.
        -- injection H as -> _. congruence.
        -- injection H as <- ->.
           rewrite (proj2 (IH key)); [reflexivity|].
           split; [reflexivity|]. intros Hin. apply Hk. now right.
Qed.

Lemma key_value_loop_app (pre rest : list string) : forall acc : gmap string string,
  key_value_loop acc (pre ++ rest) =
  (acc' ← key_value_loop acc pre; key_value_loop acc' rest).
Proof.
  induction pre as [|item pre IH]; intros acc; simpl; [reflexivity|].
  destruct (split_first_equals _) as [[k v]|]; [apply IH | reflexivity].
Qed.

Lemma key_value_loop_outcome (values : list string) : forall acc : gmap string string,
  (exists kv, key_value_loop acc values = Returns kv /\
              forall item, In item values ->
                           In "="%char (String.list_ascii_of_string item)) \/
  (key_value_loop acc values = Raises ValueError /\
   exists item, In item values /\ ~ In "="%char (String.list_ascii_of_string item)).
Proof.
  induction values as [|item values IH]; intros acc; simpl.
  - left. exists acc. split; [reflexivity | intros item []].
  - destruct (split_first_equals (String.list_ascii_of_string item)) as [[k v]|] eqn:E.
    + assert (Hin : In "="%char (String.list_ascii_of_string item)).
      { destruct (in_dec ascii_dec "="%char (String.list_ascii_of_string item))
          as [H|H]; [exact H|].
        apply split_first_equals_none in H. congruence. }
      destruct (IH (<[stripped k := stripped v]> acc)) as [(kv & Hkv & Hall)|(Hr & it & Hit & Hno)].
      * left. exists kv. split; [exact Hkv|]. intros it [<-|Hit]; [exact Hin | now apply Hall].
      * right. split; [exact Hr|]. exists it. split; [now right | exact Hno].
    + right. split; [reflexivity|]. exists item. split; [now left|].
      now apply split_first_equals_none.
Qed.

(** X1.  The key-value action fails exactly when some item contains no '=';
    it then raises ValueError, whatever the other items are, and it raises
    nothing else. *)
Theorem KeyValueAction_raises_iff (values : list string) :
  (KeyValueAction_call values = Raises ValueError <->
   exists item, In item values /\ ~ In "="%char (String.list_ascii_of_string item)) /\
  (forall e : exn, KeyValueAction_call values = Raises e -> e = ValueError) /\
  (returns (KeyValueAction_call values) = true <->
   forall item, In item values -> In "="%char (String.list_ascii_of_string item)).
Proof.
  unfold KeyValueAction_call.
  destruct (key_value_loop_outcome values ∅) as [(kv & Hkv & Hall)|(Hr & it & Hit & Hno)].
  - rewrite Hkv. split; [|split].
    + split; [discriminate|]. intros (it & Hit & Hno). exfalso. apply Hno. now apply Hall.
    + discriminate.
    + split; [intros _; exact Hall | reflexivity].
  - rewrite Hr. split; [|split].
    + split; [intros _; now exists it | reflexivity].
    + congruence.
    + split; [discriminate|]. intros Hall. exfalso. apply Hno. now apply Hall.
Qed.

Lemma key_value_loop_other_keys (q : string) (post : list string) :
  forall acc kv : gmap string string,
  key_value_loop acc post = Returns kv ->
  (forall item key value,
      In item post ->
      split_first_equals (String.list_ascii_of_string item) = Some (key, value) ->
      stripped key <> q) ->
  kv !! q = acc !! q.
Proof.
  induction post as [|item post IH]; intros acc kv H Hother; simpl in H.
  - congruence.
  - destruct (split_first_equals (String.list_ascii_of_string item)) as [[k v]|] eqn:E;
      [|discriminate].
    rewrite (IH _ _ H).
    + apply lookup_insert_ne. apply (Hother item k v); [now left | exact E].
    + intros it k' v' Hit. apply Hother. now right.
Qed.

(** X2.  For items of ASCII characters: when the key-value action
    returns, the dict maps a key to the stripped value of the last item
    with that (stripped) key, and holds no key that no item has. *)
Theorem KeyValueAction_last_wins (values : list string) (kv : gmap string string) :
  Forall ascii_string values ->
  KeyValueAction_call values = Returns kv ->
  (forall (pre post : list string) (item : string) (key value : list ascii),
      values = pre ++ item :: post ->
      split_first_equals (String.list_ascii_of_string item) = Some (key, value) ->
      (forall item' key' value',
          In item' post ->
          split_first_equals (String.list_ascii_of_string item') = Some (key', value') ->
          stripped key' <> stripped key) ->
      kv !! stripped key = Some (stripped value)) /\
  (forall q : string,
      (forall item key value,
          In item values ->
          split_first_equals (String.list_ascii_of_string item) = Some (key, value) ->
          stripped key <> q) ->
      kv !! q = None).
Proof.
  unfold KeyValueAction_call. intros _ H. split.
  - intros pre post item key value -> Hsplit Hlast.
    rewrite key_value_loop_app in H.
    destruct (key_value_loop ∅ pre) as [acc|e]; cbn [mbind py_bind] in H; [|discriminate].
    simpl in H. rewrite Hsplit in H.
    rewrite (key_value_loop_other_keys _ post _ kv H Hlast).
    apply lookup_insert_eq.
  - intros q Hnone. rewrite (key_value_loop_other_keys q values ∅ kv H Hnone).
    apply lookup_empty.
Qed.

Lemma KeyValueAction_last_wins_witness :
  exists kv : gmap string string,
    KeyValueAction_call [" a = 1 "; "b=x=y"; "a=2"]%string = Returns kv /\
    kv !! stripped (String.list_ascii_of_string "a") = Some "2"%string.
Proof.
  eexists. split; [vm_compute; reflexivity|].
  assert (Hascii : Forall ascii_string [" a = 1 "; "b=x=y"; "a=2"]%string).
  { repeat constructor. }
  refine (proj1 (KeyValueAction_last_wins [" a = 1 "; "b=x=y"; "a=2"]%string _
                   Hascii eq_refl)
            [" a = 1 "; "b=x=y"]%string [] "a=2"%string
            (String.list_ascii_of_string "a") (String.list_ascii_of_string "2")
            eq_refl eq_refl _).
  intros item' key' value' [].
Defined.

(** *** Stripping *)

Lemma py_lstrip_space_app (ws l : list ascii) :
  all_space ws -> py_lstrip (ws ++ l) = py_lstrip l.
Proof.
  induction 1 as [|c ws Hc _ IH]; simpl; [reflexivity|]. now rewrite Hc.
Qed.

Lemma py_lstrip_clean (l : list ascii) : starts_clean l -> py_lstrip l = l.
Proof. destruct l as [|c l]; simpl; [reflexivity|]. now intros ->. Qed.

Lemma all_space_rev (ws : list ascii) : all_space ws -> all_space (rev ws).
Proof. apply List.Forall_rev. Qed.

Lemma starts_clean_app (l ws : list ascii) :
  l <> [] -> starts_clean l -> starts_clean (l ++ ws).
Proof. destruct l; [congruence | trivial]. Qed.

(** [strip] removes exactly the white space around a trimmed text. *)
Lemma py_strip_padded (ws1 l ws2 : list ascii) :
  all_space ws1 -> all_space ws2 -> trimmed l -> py_strip (ws1 ++ l ++ ws2) = l.
Proof.
  intros H1 H2 [Hl Hr]. unfold py_strip. rewrite py_lstrip_space_app by exact H1.
  destruct l as [|c l].
  - simpl. rewrite <- (app_nil_r ws2) at 1. rewrite py_lstrip_space_app by exact H2.
    reflexivity.
  - rewrite (py_lstrip_clean ((c :: l) ++ ws2))
      by (apply starts_clean_app; [discriminate | exact Hl]).
    rewrite rev_app_distr. rewrite py_lstrip_space_app by now apply all_space_rev.
    rewrite py_lstrip_clean by exact Hr. apply rev_involutive.
Qed.

Lemma all_space_no_equals (ws : list ascii) : all_space ws -> ~ In "="%char ws.
Proof.
  unfold all_space. rewrite List.Forall_forall. intros H Hin. apply H in Hin. discriminate.
Qed.

Lemma key_value_single (ws1 key ws2 ws3 value ws4 : list ascii) :
  all_space ws1 -> all_space ws2 -> all_space ws3 -> all_space ws4 ->
  trimmed key -> trimmed value -> ~ In "="%char key ->
  KeyValueAction_call
    [String.string_of_list_ascii (ws1 ++ key ++ ws2 ++ "="%char :: ws3 ++ value ++ ws4)]
  = Returns {[ String.string_of_list_ascii key := String.string_of_list_ascii value ]}.
Proof.
  intros H1 H2 H3 H4 Hk Hv Hne. unfold KeyValueAction_call. cbn [key_value_loop].
  rewrite String.list_ascii_of_string_of_list_ascii.
  assert (Hsplit : split_first_equals
                     (ws1 ++ key ++ ws2 ++ "="%char :: ws3 ++ value ++ ws4)
                   = Some (ws1 ++ key ++ ws2, ws3 ++ value ++ ws4)).
  { apply split_first_equals_some. split; [now rewrite <- !app_assoc|].
    rewrite !in_app_iff. intros [H|[H|H]];
      [now apply (all_space_no_equals ws1) | contradiction
      | now apply (all_space_no_equals ws2)]. }
  rewrite Hsplit. unfold stripped. now rewrite !py_strip_padded.
Qed.

(** X3.  One item of ASCII characters: the key is the text before the
    first '=', the value everything after it, further '=' included, and
    the white space around each of them is dropped. *)
Theorem KeyValueAction_single_item (ws1 key ws2 ws3 value ws4 : list ascii) :
  ascii_only key -> ascii_only value ->
  all_space ws1 -> all_space ws2 -> all_space ws3 -> all_space ws4 ->
  trimmed key -> trimmed value -> ~ In "="%char key ->
  exists kv : gmap string string,
    KeyValueAction_call
      [String.string_of_list_ascii (ws1 ++ key ++ ws2 ++ "="%char :: ws3 ++ value ++ ws4)]
    = Returns kv /\
    kv !! String.string_of_list_ascii key = Some (String.string_of_list_ascii value) /\
    forall q : string, q <> String.string_of_list_ascii key -> kv !! q = None.
Proof.
  intros _ _ H1 H2 H3 H4 Hk Hv Hne.
  exists {[ String.string_of_list_ascii key := String.string_of_list_ascii value ]}.
  split; [now apply key_value_single|]. split.
  - apply lookup_singleton_eq.
  - intros q Hq. apply lookup_singleton_ne. congruence.
Qed.

Lemma KeyValueAction_single_item_witness :
  exists kv : gmap string string,
    KeyValueAction_call [" url = a=b "%string] = Returns kv /\
    kv !! "url"%string = Some "a=b"%string.
Proof.
  assert (Hs : all_space (String.list_ascii_of_string " ")).
  { repeat constructor. }
  assert (Hak : ascii_only (String.list_ascii_of_string "url")) by (repeat constructor).
  assert (Hav : ascii_only (String.list_ascii_of_string "a=b")) by (repeat constructor).
  assert (Hk : trimmed (String.list_ascii_of_string "url")) by (split; reflexivity).
  assert (Hv : trimmed (String.list_ascii_of_string "a=b")) by (split; reflexivity).
  assert (Hne : ~ In "="%char (String.list_ascii_of_string "url")).
  { simpl. intros [H|[H|[H|[]]]]; discriminate. }
  destruct (KeyValueAction_single_item _ _ _ _ _ _ Hak Hav Hs Hs Hs Hs Hk Hv Hne)
    as (kv & Hkv & Hl & _).
  exists kv. split; [exact Hkv | exact Hl].
Defined.

(** ** The script *)

Lemma run_script_items (v : string) (vs : list string) (a : ndarray Q) (t : Q) :
  run_script (Some (v :: vs)) a t
  = (keyvals ← KeyValueAction_call (v :: vs); main a t (Some keyvals)).
Proof. reflexivity. Qed.

(** X4.  With [-k] and at least one item, the script fails before it looks
    at the frame when an item has no '=' (ValueError) and, when all items
    are ASCII texts with a '=', when none of them has the key 'roi_size'
    (KeyError): giving any other parameter alone does not leave ROI_SIZE at
    its default.  With [-k] and no item argparse ends the script. *)
Theorem run_script_without_roi_size (values : list string) (a : ndarray Q) (t : Q) :
  ((exists item, In item values /\ ~ In "="%char (String.list_ascii_of_string item)) ->
   run_script (Some values) a t = Raises ValueError) /\
  (values <> [] -> Forall ascii_string values ->
   (forall item, In item values -> In "="%char (String.list_ascii_of_string item)) ->
   (forall item key value,
       In item values ->
       split_first_equals (String.list_ascii_of_string item) = Some (key, value) ->
       stripped key <> "roi_size"%string) ->
   run_script (Some values) a t = Raises KeyError) /\
  (values = [] -> run_script (Some values) a t = Raises SystemExit).
Proof.
  destruct values as [|v vs].
  { split; [intros (it & [] & _)|]. split; [congruence | reflexivity]. }
  rewrite run_script_items. unfold KeyValueAction_call.
  destruct (key_value_loop_outcome (v :: vs) ∅)
    as [(kv & Hkv & Hall)|(Hr & it & Hit & Hno)].
  - rewrite Hkv. cbn [mbind py_bind]. split; [|split; [|discriminate]].
    + intros (it & Hit & Hno). exfalso. apply Hno. now apply Hall.
    + intros _ _ _ Hother.
      pose proof (key_value_loop_other_keys "roi_size" (v :: vs) ∅ kv Hkv Hother) as Hl.
      rewrite lookup_empty in Hl. unfold main, roi_size_of. now rewrite Hl.
  - rewrite Hr. cbn [mbind py_bind]. split; [reflexivity|]. split; [|discriminate].
    intros _ _ Hall. exfalso. apply Hno. now apply Hall.
Qed.

Lemma run_script_without_roi_size_witness :
  run_script (Some ["threshold=5"%string]) spot_3x3 1 = Raises KeyError.
Proof.
  refine (proj1 (proj2 (run_script_without_roi_size ["threshold=5"%string] spot_3x3 1))
            _ _ _ _).
  - discriminate.
  - repeat constructor.
  - intros item [<-|[]]. vm_compute. tauto.
  - intros item key value [<-|[]] H. vm_compute in H. injection H as <- <-.
    vm_compute. discriminate.
Defined.

(** *** Decimal numerals *)

Lemma is_space_py_isspace (c : ascii) : py_isspace c = false -> is_space c = false.
Proof.
  unfold py_isspace, is_space. cbv zeta. generalize (nat_of_ascii c). intros n.
  destruct (Nat.leb_spec 9 n), (Nat.leb_spec n 13), (Nat.leb_spec 28 n),
    (Nat.leb_spec n 32), (Nat.eqb_spec n 32); simpl; congruence || lia.
Qed.

Lemma lstrip_clean (l : list ascii) : starts_clean l -> lstrip l = l.
Proof.
  destruct l as [|c l]; simpl; [reflexivity|]. intros H.
  now rewrite (is_space_py_isspace c H).
Qed.

(** [int] finds nothing to strip from a trimmed text. *)
Lemma strip_trimmed (l : list ascii) : trimmed l -> strip l = l.
Proof.
  intros [Hl Hr]. unfold strip. rewrite (lstrip_clean l Hl), (lstrip_clean _ Hr).
  apply rev_involutive.
Qed.

Lemma parse_digit_chars (u : Decimal.uint) : forall d' : Decimal.uint,
  parse_digits (Z.of_N (DecimalPos.Unsigned.of_lu d')) true (digit_chars u) =
  Some (Z.of_N (DecimalPos.Unsigned.of_lu (Decimal.revapp u d'))).
Proof.
  unfold digit_chars.
  induction u as [|u IH|u IH|u IH|u IH|u IH|u IH|u IH|u IH|u IH|u IH]; intros d';
    [reflexivity|..];
    cbn [NilEmpty.string_of_uint String.list_ascii_of_string parse_digits Decimal.revapp];
    match goal with
    | |- context [digit_of ?c] =>
        let v := eval vm_compute in (digit_of c) in change (digit_of c) with v
    end; cbv beta iota; rewrite <- IH; f_equal;
    cbn [DecimalPos.Unsigned.of_lu]; lia.
Qed.

Lemma digit_chars_clean (u : Decimal.uint) :
  Forall (fun c => py_isspace c = false /\ c <> "-"%char /\ c <> "+"%char) (digit_chars u).
Proof.
  unfold digit_chars.
  induction u; cbn [NilEmpty.string_of_uint String.list_ascii_of_string];
    constructor; try assumption; (split; [reflexivity | split; discriminate]).
Qed.

Lemma Forall_clean_trimmed (l : list ascii) :
  Forall (fun c => py_isspace c = false) l -> trimmed l.
Proof.
  intros H. split.
  - destruct H; simpl; trivial.
  - apply List.Forall_rev in H. destruct H; simpl; trivial.
Qed.

Lemma py_str_of_int_trimmed (z : Z) :
  trimmed (String.list_ascii_of_string (py_str_of_int z)).
Proof.
  apply Forall_clean_trimmed. unfold py_str_of_int.
  assert (Hd : forall u, Forall (fun c => py_isspace c = false) (digit_chars u)).
  { intros u. eapply List.Forall_impl; [|apply digit_chars_clean]. now intros c [H _]. }
  destruct z as [|p|p]; cbn [Z.to_int NilZero.string_of_int].
  - repeat constructor.
  - unfold NilZero.string_of_uint.
    destruct (Pos.to_uint p) eqn:E; [repeat constructor|..]; rewrite <- E; apply Hd.
  - cbn [String.list_ascii_of_string]. constructor; [reflexivity|].
    unfold NilZero.string_of_uint.
    destruct (Pos.to_uint p) eqn:E; [repeat constructor|..]; rewrite <- E; apply Hd.
Qed.

Lemma parse_to_uint (p : positive) :
  parse_digits 0 false (digit_chars (Pos.to_uint p)) = Some (Z.pos p).
Proof.
  pose proof (DecimalPos.Unsigned.of_to p) as Hp.
  rewrite DecimalPos.Unsigned.of_uint_alt in Hp. unfold Decimal.rev in Hp.
  pose proof (DecimalPos.Unsigned.to_uint_nonnil p) as Hnn.
  destruct (Pos.to_uint p) as [|u|u|u|u|u|u|u|u|u|u]; [congruence|..];
    unfold digit_chars;
    cbn [NilEmpty.string_of_uint String.list_ascii_of_string parse_digits];
    match goal with
    | |- context [digit_of ?c] =>
        let v := eval vm_compute in (digit_of c) in change (digit_of c) with v
    end; cbv beta iota; cbn [Decimal.revapp] in Hp;
    match type of Hp with
    | DecimalPos.Unsigned.of_lu (Decimal.revapp _ ?d) = _ =>
        pose proof (parse_digit_chars u d) as Hq
    end;
    unfold digit_chars in Hq; rewrite Hp in Hq; exact Hq.
Qed.

Lemma sign_dispatch_digits (c : ascii) (cs : list ascii) :
  c <> "-"%char -> c <> "+"%char ->
  parse_signed (c :: cs) = parse_digits 0 false (c :: cs).
Proof.
  intros Hm Hp. unfold parse_signed.
  destruct c as [[] [] [] [] [] [] [] []]; try reflexivity;
    exfalso; (apply Hm; reflexivity) || (apply Hp; reflexivity).
Qed.

Lemma string_of_to_uint (p : positive) :
  String.list_ascii_of_string (NilZero.string_of_uint (Pos.to_uint p))
  = digit_chars (Pos.to_uint p).
Proof.
  pose proof (DecimalPos.Unsigned.to_uint_nonnil p) as Hnn.
  unfold NilZero.string_of_uint, digit_chars.
  destruct (Pos.to_uint p); [congruence|..]; reflexivity.
Qed.

Lemma int_of_str_parses (z : Z) :
  parse_signed (String.list_ascii_of_string (py_str_of_int z)) = Some z.
Proof.
  unfold parse_signed, py_str_of_int.
  destruct z as [|p|p]; cbn [Z.to_int NilZero.string_of_int]; [reflexivity|..].
  - rewrite string_of_to_uint.
    pose proof (parse_to_uint p) as Hp.
    pose proof (digit_chars_clean (Pos.to_uint p)) as Hc.
    destruct (digit_chars (Pos.to_uint p)) as [|c cs]; [discriminate|].
    inversion Hc as [|? ? (_ & Hm & Hpl) _]; subst.
    fold (parse_signed (c :: cs)).
    rewrite (sign_dispatch_digits c cs Hm Hpl), Hp. reflexivity.
  - cbn [String.list_ascii_of_string]. rewrite string_of_to_uint.
    rewrite (parse_to_uint p). reflexivity.
Qed.

(** [int(str(z))]: [int] reads a decimal numeral of at most 4300 digits
    back, and refuses a longer one. *)
Lemma int_of_str_of_int (z : Z) :
  int_of_str (py_str_of_int z)
  = if (count_digits (String.list_ascii_of_string (py_str_of_int z))
        <=? max_str_digits)%nat
    then Returns z else Raises ValueError.
Proof.
  unfold int_of_str. cbv zeta. rewrite (strip_trimmed _ (py_str_of_int_trimmed z)).
  now rewrite int_of_str_parses.
Qed.

(** X5.  The option [-k roi_size=<n>], for the decimal numeral of an
    integer [n], negative ones included, with any ASCII white space around
    the key and around the numeral: when the numeral has at most 4300
    digits the script runs the analysis with ROI_SIZE = [n]; when it has
    more, [int] refuses it and the script raises ValueError. *)
Theorem run_script_roi_size (z : Z) (ws1 ws2 ws3 ws4 : list ascii)
    (a : ndarray Q) (t : Q) :
  all_space ws1 -> all_space ws2 -> all_space ws3 -> all_space ws4 ->
  let item :=
    String.string_of_list_ascii
      (ws1 ++ String.list_ascii_of_string "roi_size" ++ ws2
           ++ "="%char :: ws3
           ++ String.list_ascii_of_string (py_str_of_int z) ++ ws4) in
  let digits := count_digits (String.list_ascii_of_string (py_str_of_int z)) in
  ((digits <= 4300)%nat ->
   run_script (Some [item]) a t
   = (an ← beam_analysis a z; Returns (TElements_of an t))) /\
  ((4300 < digits)%nat -> run_script (Some [item]) a t = Raises ValueError).
Proof.
  intros H1 H2 H3 H4 item digits.
  assert (Hrun : run_script (Some [item]) a t
                 = (R ← int_of_str (py_str_of_int z);
                    an ← beam_analysis a R; Returns (TElements_of an t))).
  { subst item. rewrite run_script_items.
    rewrite (key_value_single ws1 _ ws2 ws3 _ ws4 H1 H2 H3 H4).
    - cbn [mbind py_bind]. rewrite !String.string_of_list_ascii_of_string.
      unfold main, roi_size_of. now rewrite lookup_singleton_eq.
    - split; reflexivity.
    - apply py_str_of_int_trimmed.
    - simpl. intros H. repeat (destruct H as [H|H]; [discriminate|]). exact H. }
  rewrite Hrun, int_of_str_of_int. fold digits. unfold max_str_digits.
  split; intros Hd.
  - apply Nat.leb_le in Hd. now rewrite Hd.
  - apply Nat.leb_gt in Hd. now rewrite Hd.
Qed.

Lemma run_script_roi_size_witness :
  run_script (Some [" roi_size = -3 "%string]) spot_3x3 2
  = (an ← beam_analysis spot_3x3 (-3); Returns (TElements_of an 2)).
Proof.
  assert (Hs : all_space (String.list_ascii_of_string " ")) by (repeat constructor).
  refine (proj1 (run_script_roi_size (-3) _ _ _ _ spot_3x3 2 Hs Hs Hs Hs) _).
  vm_compute. lia.
Defined.

(** ** Which inputs [main] accepts *)

Lemma apply_mask_length (img : ndarray Q) :
  length (data (apply_mask img (labeled_foreground_of img))) = length (data img).
Proof.
  cbn [apply_mask labeled_foreground_of data]. rewrite length_zip_with, length_map. lia.
Qed.

Lemma np_max_returns (a : ndarray Q) :
  data a <> [] ->
  exists m : Q, np_max a = Returns m /\ In m (data a) /\
                forall x : Q, In x (data a) -> x <= m.
Proof.
  unfold np_max. destruct (data a) as [|x xs]; [congruence|]. intros _.
  destruct (fold_Qmax_spec xs x) as [Hin Hub]. eauto.
Qed.

(** X6.  What [main] does with an input of at most two axes that is not a
    non-empty 2-D frame, once ROI_SIZE is read: an array without elements
    makes [max()] raise ValueError, and a non-empty array of rank 0 or 1
    makes [regionprops] raise TypeError. *)
Theorem main_degenerate_input (a : ndarray Q) (t : Q)
    (kv : option (gmap string string)) (R : Z) :
  roi_size_of kv = Returns R -> (ndim a <= 2)%nat ->
  (data a = [] -> main a t kv = Raises ValueError) /\
  (data a <> [] -> (ndim a < 2)%nat -> main a t kv = Raises TypeError).
Proof.
  intros HR Hn. unfold main. rewrite HR. cbn [mbind py_bind].
  pose proof (beam_analysis_cases a R) as Hc. cbv zeta in Hc.
  rewrite (reduce_loop_small (ndim a) a Hn) in Hc.
  split.
  - intros He. unfold np_max in Hc. cbn [apply_mask data] in Hc. rewrite He in Hc.
    cbn [zip_with] in Hc. destruct Hc as [-> _]. reflexivity.
  - intros Hne Hlt.
    destruct (np_max_returns (apply_mask a (labeled_foreground_of a))) as (m & Hm & _).
    { intros E. apply Hne. apply length_zero_iff_nil.
      rewrite <- apply_mask_length, E. reflexivity. }
    rewrite Hm in Hc. destruct Hc as [_ Hc].
    unfold regionprops in Hc. cbn [label_above apply_mask shape] in Hc.
    unfold ndim in Hlt.
    destruct (shape a) as [|n0 [|n1 rest]]; [| |simpl in Hlt; lia];
      destruct Hc as [-> _]; reflexivity.
Qed.

Lemma main_degenerate_input_witness :
  main vector_3 1 None = Raises TypeError /\
  main (NdArray [0; 3]%nat []) 1 None = Raises ValueError.
Proof.
  split.
  - refine (proj2 (main_degenerate_input vector_3 1 None 25 eq_refl _) _ _).
    + vm_compute. lia.
    + discriminate.
    + vm_compute. lia.
  - refine (proj1 (main_degenerate_input (NdArray [0; 3]%nat []) 1 None 25 eq_refl _) _).
    + vm_compute. lia.
    + reflexivity.
Defined.

Lemma region_of_nonempty (w : nat) (lab : list Z) (intensity : list Q) (l : Z) (p : nat) :
  (p < length lab)%nat -> nth p lab 0%Z = l ->
  pixels (region_of w lab intensity l) <> [].
Proof.
  intros Hp Hl. cbn [region_of pixels].
  assert (Hin : In p (List.filter (fun p => Z.eqb (nth p lab 0%Z) l) (seq 0 (length lab)))).
  { apply filter_In. split; [apply in_seq; lia | now apply Z.eqb_eq]. }
  destruct (List.filter _ _); [destruct Hin | discriminate].
Qed.

Lemma threshold_below_max (m : Q) : 1 < m -> threshold_of m < m.
Proof.
  intros Hm. unfold threshold_of. apply Q.max_lub_lt; [exact Hm|].
  assert (H0 : 0 < m) by (eapply Qlt_trans; [|exact Hm]; reflexivity).
  destruct m as [n d]. unfold Qlt in *. cbn in *. nia.
Qed.

(** In exact arithmetic, where no window bound is refused as too large:
    once ROI_SIZE is read, the pipeline returns for a 2-D frame exactly
    when some pixel has an intensity above 1 and at most 1e6, and raises
    IndexError for every other non-empty 2-D frame. *)
Lemma exact_main_returns_iff_bright (a : ndarray Q) (h w : nat) (t : Q)
    (kv : option (gmap string string)) (R : Z) :
  roi_size_of kv = Returns R -> shape a = [h; w] ->
  (returns (main a t kv) = true <->
   exists x : Q, In x (data a) /\ 1 < x /\ x <= 1000000) /\
  (data a <> [] -> returns (main a t kv) = false -> main a t kv = Raises IndexError).
Proof.
  intros HR Hs.
  assert (Hn : (ndim a <= 2)%nat) by (unfold ndim; rewrite Hs; simpl; lia).
  assert (Hmain : main a t kv = (an ← beam_analysis a R; Returns (TElements_of an t))).
  { unfold main. now rewrite HR. }
  pose proof (beam_analysis_cases a R) as Hc. cbv zeta in Hc.
  rewrite (reduce_loop_small (ndim a) a Hn) in Hc.
  set (masked := apply_mask a (labeled_foreground_of a)) in *.
  split; [split|].
  - (* a successful run has a region, whose pixels are bright and valid *)
    clear Hc. intros Hret. rewrite Hmain in Hret.
    destruct (beam_analysis a R) as [an|e] eqn:EB; [|discriminate].
    destruct (beam_analysis_returns a R an EB) as (m & h' & w' & Hm & _ & Hrest).
    cbv zeta in Hrest. rewrite (reduce_loop_small (ndim a) a Hn) in Hrest, Hm.
    destruct Hrest as (_ & Hne & _).
    match type of Hne with
    | pixels ?reg <> [] => destruct (pixels reg) as [|[[r c] x] ps] eqn:Epx
    end; [congruence|].
    assert (Hin : In (r, c, x) ((r, c, x) :: ps)) by now left.
    rewrite <- Epx in Hin.
    destruct (region_of_pixels_in _ _ _ _ r c x Hin) as (p & Hp & Hl & _ & _ & ->).
    assert (Hp' : (p < length (data a))%nat).
    { cbn [label_above data] in Hp. rewrite length_map, apply_mask_length in Hp. exact Hp. }
    destruct (foreground_pixels_valid a (threshold_of m) p) as (Hv & _ & Hgt);
      [apply Q.le_max_l | exact Hp' | exact Hl |].
    exists (nth p (data a) 0). split; [now apply nth_In|]. split; [exact Hgt|].
    now apply in_valid_range_spec in Hv.
  - (* a bright valid pixel puts the maximum above the threshold *)
    intros (x & Hx & Hgt & Hle). rewrite Hmain.
    destruct (In_nth _ _ 0 Hx) as (p & Hp & Hnth).
    assert (Hmp : nth p (data masked) 0 == x).
    { subst masked. rewrite apply_mask_nth, labeled_foreground_nth by exact Hp.
      rewrite Hnth.
      assert (Hv : in_valid_range x = true).
      { apply in_valid_range_spec. split; [|exact Hle].
        apply Qlt_le_weak. eapply Qlt_trans; [|exact Hgt]. reflexivity. }
      rewrite Hv. ring. }
    destruct (np_max_returns masked) as (m & Hm & Hin & Hub).
    { intros E. pose proof (apply_mask_length a) as Hlen. fold masked in Hlen.
      rewrite E in Hlen. simpl in Hlen. lia. }
    assert (Hm1 : 1 < m).
    { eapply Qlt_le_trans; [exact Hgt|]. rewrite <- Hmp. apply Hub. apply nth_In.
      subst masked. now rewrite apply_mask_length. }
    rewrite Hm in Hc. destruct Hc as [_ Hc].
    destruct (In_nth _ _ 0 Hin) as (q & Hq & Hnq).
    assert (Hlab : nth q (data (label_above (threshold_of m) masked)) 0%Z = 1%Z).
    { rewrite label_above_nth by exact Hq. rewrite Hnq.
      rewrite (proj2 (Qgtb_spec m (threshold_of m)) (threshold_below_max m Hm1)).
      reflexivity. }
    rewrite (regionprops_binary _ a h w) in Hc
      by (exact Hs || apply label_above_01).
    pose proof (region_of_nonempty w (data (label_above (threshold_of m) masked))
                  (data a) 1 q) as Hne.
    destruct (pixels _) as [|px pxs] eqn:Epx.
    + exfalso. apply Hne; [|exact Hlab | reflexivity].
      cbn [label_above data]. now rewrite length_map.
    + cbv beta iota in Hc. rewrite Hc. reflexivity.
  - intros Hne Hret. rewrite Hmain in Hret |- *.
    destruct (np_max_returns masked) as (m & Hm & _).
    { intros E. pose proof (apply_mask_length a) as Hlen. fold masked in Hlen.
      rewrite E in Hlen. apply Hne. apply length_zero_iff_nil. simpl in Hlen. lia. }
    rewrite Hm in Hc. destruct Hc as [_ Hc].
    rewrite (regionprops_binary _ a h w) in Hc
      by (exact Hs || apply label_above_01).
    destruct (pixels _) as [|px pxs]; cbv beta iota in Hc; rewrite Hc in Hret |- *;
      [reflexivity | discriminate].
Qed.

(** ** Where the centroids lie *)

Lemma np_sum_le {A : Type} (f g : A -> Q) (l : list A) :
  (forall x, In x l -> f x <= g x) -> np_sum (map f l) <= np_sum (map g l).
Proof.
  induction l as [|x l IH]; intros H; simpl.
  - apply Qle_refl.
  - rewrite !np_sum_cons. apply Qplus_le_compat; [apply H; now left|].
    apply IH. intros y Hy. apply H. now right.
Qed.

Lemma np_sum_scale {A : Type} (f : A -> Q) (k : Q) (l : list A) :
  np_sum (map (fun x => k * f x) l) == k * np_sum (map f l).
Proof.
  induction l as [|x l IH]; simpl.
  - unfold np_sum. simpl. ring.
  - rewrite !np_sum_cons, IH. ring.
Qed.

Lemma np_sum_pos {A : Type} (f : A -> Q) (l : list A) :
  l <> [] -> (forall x, In x l -> 0 < f x) -> 0 < np_sum (map f l).
Proof.
  destruct l as [|x l]; [congruence|]. intros _ H. simpl. rewrite np_sum_cons.
  apply (Qlt_le_trans _ (f x + 0)).
  - rewrite Qplus_0_r. apply H. now left.
  - apply Qplus_le_compat; [apply Qle_refl|]. apply np_sum_nonneg.
    intros y Hy. apply in_map_iff in Hy. destruct Hy as (z & <- & Hz).
    apply Qlt_le_weak. apply H. now right.
Qed.

(** A mean with positive weights lies between the bounds of what is
    averaged. *)
Lemma weighted_mean_bounds {A : Type} (f wgt : A -> Q) (l : list A) (lo hi : Q) :
  l <> [] ->
  (forall x, In x l -> lo <= f x /\ f x <= hi) ->
  (forall x, In x l -> 0 < wgt x) ->
  lo <= np_sum (map (fun x => f x * wgt x) l) / np_sum (map wgt l) /\
  np_sum (map (fun x => f x * wgt x) l) / np_sum (map wgt l) <= hi.
Proof.
  intros Hne Hf Hw.
  pose proof (np_sum_pos wgt l Hne Hw) as Hpos.
  split.
  - apply Qle_shift_div_l; [exact Hpos|].
    rewrite <- np_sum_scale. apply np_sum_le. intros x Hx.
    apply Qmult_le_compat_r; [apply Hf, Hx | apply Qlt_le_weak, Hw, Hx].
  - apply Qle_shift_div_r; [exact Hpos|].
    rewrite <- np_sum_scale. apply np_sum_le. intros x Hx.
    apply Qmult_le_compat_r; [apply Hf, Hx | apply Qlt_le_weak, Hw, Hx].
Qed.

Lemma mean_bounds {A : Type} (f : A -> Q) (l : list A) (lo hi : Q) :
  l <> [] ->
  (forall x, In x l -> lo <= f x /\ f x <= hi) ->
  lo <= np_sum (map f l) / inject_Z (Z.of_nat (length l)) /\
  np_sum (map f l) / inject_Z (Z.of_nat (length l)) <= hi.
Proof.
  intros Hne Hf.
  destruct (weighted_mean_bounds f (fun _ => 1) l lo hi Hne Hf) as [H1 H2];
    [reflexivity|].
  assert (Hn : np_sum (map (fun x => f x * 1) l) == np_sum (map f l)).
  { apply np_sum_map_ext. intros x _. ring. }
  assert (Hd : np_sum (map (fun _ : A => 1) l) == inject_Z (Z.of_nat (length l))).
  { rewrite np_sum_const. ring. }
  rewrite Hn, Hd in H1, H2. now split.
Qed.

Lemma coordinate_bounds (k n : nat) :
  (k < n)%nat ->
  0 <= inject_Z (Z.of_nat k) /\ inject_Z (Z.of_nat k) <= inject_Z (Z.of_nat n) - 1.
Proof.
  intros H. unfold Qle, Qminus, Qplus, Qopp, inject_Z. simpl. lia.
Qed.

(** The centroids of a successful run lie inside the frame. *)
Lemma beam_analysis_centroid_bounds (a : ndarray Q) (R : Z) (an : analysis) (h w : nat) :
  well_formed a -> beam_analysis a R = Returns an ->
  shape (imageData2D an) = [h; w] ->
  let top := inject_Z (Z.of_nat h) - 1 in
  let right := inject_Z (Z.of_nat w) - 1 in
  (0 <= fst (center_of_mass an) /\ fst (center_of_mass an) <= top) /\
  (0 <= snd (center_of_mass an) /\ snd (center_of_mass an) <= right) /\
  (0 <= fst (weighted_center_of_mass an) /\ fst (weighted_center_of_mass an) <= top) /\
  (0 <= snd (weighted_center_of_mass an) /\ snd (weighted_center_of_mass an) <= right).
Proof.
  intros Hwf H Hs top right.
  destruct (beam_analysis_returns a R an H) as (m & h' & w' & Hm & Hs' & Hrest).
  cbv zeta in Hrest. destruct Hrest as (_ & Hne & ->).
  cbn [imageData2D center_of_mass weighted_center_of_mass] in *.
  rewrite Hs in Hs'. injection Hs' as <- <-.
  set (img := reduce_loop (ndim a) a) in *.
  set (lab := data (label_above (threshold_of m) (apply_mask img (labeled_foreground_of img)))) in *.
  assert (Hlen : length (data img) = (h * w)%nat).
  { pose proof (reduce_loop_wf (ndim a) a Hwf) as Hw. fold img in Hw.
    unfold well_formed in Hw. rewrite Hs in Hw. cbn in Hw. lia. }
  assert (Hpix : forall px, In px (pixels (region_of w lab (data img) 1)) ->
            (0 <= row_of px /\ row_of px <= top) /\
            (0 <= col_of px /\ col_of px <= right) /\ 0 < weight_of px).
  { intros [[r c] x] Hin.
    destruct (region_of_pixels_in _ _ _ _ r c x Hin) as (p & Hp & Hl & -> & -> & ->).
    assert (Hp' : (p < length (data img))%nat).
    { subst lab. cbn [label_above data] in Hp.
      rewrite length_map, apply_mask_length in Hp. exact Hp. }
    assert (Hw0 : w <> 0%nat) by nia.
    cbn [row_of col_of weight_of fst snd].
    split; [apply coordinate_bounds; apply Nat.Div0.div_lt_upper_bound; lia|].
    split; [apply coordinate_bounds; now apply Nat.mod_upper_bound|].
    destruct (foreground_pixels_valid img (threshold_of m) p) as (_ & _ & Hgt);
      [apply Q.le_max_l | exact Hp' | exact Hl |].
    eapply Qlt_trans; [|exact Hgt]. reflexivity. }
  unfold centroid, weighted_centroid. cbn [fst snd].
  split; [apply mean_bounds; [exact Hne | intros px Hin; apply (Hpix px Hin)]|].
  split; [apply mean_bounds; [exact Hne | intros px Hin; apply (Hpix px Hin)]|].
  split; apply weighted_mean_bounds; try exact Hne; intros px Hin; apply (Hpix px Hin).
Qed.

(** X8.  In every successful run on a well-formed input, the stored centre
    of mass and the weighted centre used for the flux both lie inside the
    frame: between 0 and height - 1 in the row coordinate, between 0 and
    width - 1 in the column coordinate. *)
Theorem centroids_in_frame (a : ndarray Q) (R : Z) (an : analysis) (h w : nat) :
  well_formed a -> beam_analysis a R = Returns an ->
  shape (imageData2D an) = [h; w] ->
  let top := inject_Z (Z.of_nat h) - 1 in
  let right := inject_Z (Z.of_nat w) - 1 in
  (0 <= fst (center_of_mass an) /\ fst (center_of_mass an) <= top) /\
  (0 <= snd (center_of_mass an) /\ snd (center_of_mass an) <= right) /\
  (0 <= fst (weighted_center_of_mass an) /\ fst (weighted_center_of_mass an) <= top) /\
  (0 <= snd (weighted_center_of_mass an) /\ snd (weighted_center_of_mass an) <= right).
Proof. exact (beam_analysis_centroid_bounds a R an h w). Qed.

Lemma centroids_in_frame_witness :
  exists an : analysis,
    beam_analysis frame_2x3 1 = Returns an /\
    0 <= fst (weighted_center_of_mass an) /\
    fst (weighted_center_of_mass an) <= inject_Z (Z.of_nat 2) - 1.
Proof.
  eexists. split; [vm_compute; reflexivity|].
  exact (proj1 (proj2 (proj2
    (centroids_in_frame frame_2x3 1 _ 2 3 eq_refl eq_refl eq_refl)))).
Defined.

(** ** Bounds on the integrated intensity *)

Lemma masked_pixel_range (img : ndarray Q) (x : Q) :
  In x (data (apply_mask img (labeled_foreground_of img))) -> 0 <= x /\ x <= 1000000.
Proof.
  intros Hx. destruct (In_nth _ _ 0 Hx) as (p & Hp & <-).
  rewrite apply_mask_length in Hp.
  rewrite apply_mask_nth, labeled_foreground_nth by exact Hp.
  destruct (in_valid_range (nth p (data img) 0)) eqn:E.
  - apply in_valid_range_spec in E.
    assert (He : nth p (data img) 0 * inject_Z 1 == nth p (data img) 0) by ring.
    rewrite He. exact E.
  - assert (He : nth p (data img) 0 * inject_Z 0 == 0) by ring.
    rewrite He. split; discriminate.
Qed.

Lemma concat_chunks {A : Type} (len n : nat) : forall l : list A,
  length l = (n * len)%nat -> concat (chunks n len l) = l.
Proof.
  induction n as [|n IH]; intros l Hl; simpl.
  - symmetry. apply length_zero_iff_nil. exact Hl.
  - rewrite IH by (rewrite length_skipn; lia). apply firstn_skipn.
Qed.

(** The sum over a slice of a list of parts is at most the sum over all
    parts, when each part contributes at most its full, non-negative
    share. *)
Lemma np_sum_slice_le {A : Type} (f g : A -> Q) (l : list A) (s n : nat) :
  (forall x, In x l -> 0 <= f x /\ f x <= g x) ->
  0 <= np_sum (map f (firstn n (skipn s l))) /\
  np_sum (map f (firstn n (skipn s l))) <= np_sum (map g l).
Proof.
  intros H.
  assert (Hmid : forall x, In x (firstn n (skipn s l)) -> In x l).
  { intros x Hx. rewrite <- (firstn_skipn s l). apply in_or_app. right.
    rewrite <- (firstn_skipn n (skipn s l)). apply in_or_app. now left. }
  assert (Hg : forall l', (forall x, In x l' -> In x l) -> 0 <= np_sum (map g l')).
  { intros l' Hl'. apply np_sum_nonneg. intros y Hy. apply in_map_iff in Hy.
    destruct Hy as (x & <- & Hx). destruct (H x (Hl' x Hx)) as [H0 H1].
    eapply Qle_trans; eassumption. }
  split.
  - apply np_sum_nonneg. intros y Hy. apply in_map_iff in Hy.
    destruct Hy as (x & <- & Hx). apply (H x (Hmid x Hx)).
  - rewrite <- (firstn_skipn s l) at 2. rewrite map_app, np_sum_app.
    rewrite <- (firstn_skipn n (skipn s l)) at 2. rewrite map_app, np_sum_app.
    apply (Qle_trans _ (0 + (np_sum (map g (firstn n (skipn s l))) + 0))).
    + rewrite Qplus_0_l, Qplus_0_r. apply np_sum_le. intros x Hx. apply (H x (Hmid x Hx)).
    + apply Qplus_le_compat.
      * apply Hg. intros x Hx. rewrite <- (firstn_skipn s l). apply in_or_app. now left.
      * apply Qplus_le_compat; [apply Qle_refl|].
        apply Hg. intros x Hx. rewrite <- (firstn_skipn s l). apply in_or_app. right.
        rewrite <- (firstn_skipn n (skipn s l)). apply in_or_app. now right.
Qed.





(** ** The integrated intensity as a function of ROI_SIZE *)

Lemma py_int_floor (q : Q) : 0 <= q -> py_int q = Qfloor q.
Proof.
  destruct q as [n d]. unfold Qle, py_int, Qfloor. simpl. intros Hn.
  apply Z.quot_div_nonneg; lia.
Qed.

Lemma py_int_ceiling (q : Q) : q <= 0 -> py_int q = Qceiling q.
Proof.
  destruct q as [n d]. unfold Qle, py_int, Qceiling, Qfloor, Qopp. simpl. intros Hn.
  rewrite <- (Z.opp_involutive n) at 1. rewrite Z.quot_opp_l by lia.
  rewrite Z.quot_div_nonneg by lia. reflexivity.
Qed.

Lemma py_int_nonpos (q : Q) : q <= 0 -> (py_int q <= 0)%Z.
Proof.
  intros Hq. rewrite py_int_ceiling by exact Hq.
  change 0%Z with (Qceiling 0). now apply Qceiling_resp_le.
Qed.

(** [int] is monotone and depends on the value only. *)
Lemma py_int_mono (p q : Q) : p <= q -> (py_int p <= py_int q)%Z.
Proof.
  intros Hpq. destruct (Qlt_le_dec p 0) as [Hp|Hp].
  - destruct (Qlt_le_dec 0 q) as [Hq|Hq].
    + pose proof (py_int_nonpos p (Qlt_le_weak _ _ Hp)).
      pose proof (py_int_nonneg q (Qlt_le_weak _ _ Hq)). lia.
    + rewrite (py_int_ceiling p (Qlt_le_weak _ _ Hp)), (py_int_ceiling q Hq).
      now apply Qceiling_resp_le.
  - assert (Hq : 0 <= q) by (eapply Qle_trans; eassumption).
    rewrite (py_int_floor p Hp), (py_int_floor q Hq). now apply Qfloor_resp_le.
Qed.

Lemma py_int_comp (p q : Q) : p == q -> py_int p = py_int q.
Proof.
  intros E. apply Z.le_antisymm; apply py_int_mono; rewrite E; apply Qle_refl.
Qed.

Lemma py_int_at_least (q : Q) (n : Z) : inject_Z n <= q -> (n <= py_int q)%Z.
Proof.
  intros H. pose proof (py_int_above q) as Ha.
  assert (Hlt : inject_Z n - 1 < inject_Z (py_int q)).
  { eapply Qle_lt_trans; [|exact Ha]. apply Qplus_le_compat; [exact H | apply Qle_refl]. }
  unfold Qlt, Qminus, Qplus, Qopp, inject_Z in Hlt. simpl in Hlt. lia.
Qed.

Lemma range_sum_mono (F G : nat -> Q) (s e s' e' : nat) :
  (forall i, 0 <= F i /\ F i <= G i) -> (s' <= s)%nat -> (e <= e')%nat ->
  np_sum (map F (seq s (e - s))) <= np_sum (map G (seq s' (e' - s'))).
Proof.
  intros H Hs He.
  destruct (Nat.le_gt_cases e s) as [Hes|Hes].
  - replace (e - s)%nat with 0%nat by lia. simpl.
    apply np_sum_nonneg. intros y Hy. apply in_map_iff in Hy.
    destruct Hy as (i & <- & _). destruct (H i) as [H0 H1]. eapply Qle_trans; eassumption.
  - assert (Hseq : seq s (e - s) = firstn (e - s) (skipn (s - s') (seq s' (e' - s')))).
    { rewrite skipn_seq, take_seq. f_equal; lia. }
    rewrite Hseq. apply np_sum_slice_le. intros i _. apply H.
Qed.

Lemma pixel_nonneg (w : nat) (d : list Q) (i j : nat) :
  (forall x, In x d -> 0 <= x) -> 0 <= pixel w d i j.
Proof.
  intros H. unfold pixel.
  destruct (Nat.lt_ge_cases (i * w + j) (length d)) as [Hlt|Hge].
  - apply H. now apply nth_In.
  - rewrite nth_overflow by exact Hge. apply Qle_refl.
Qed.

(** A window that contains another one sums to at least as much, on a
    frame of non-negative pixels. *)
Lemma window_sum_mono (w : nat) (d : list Q) (r0 r1 c0 c1 r0' r1' c0' c1' : nat) :
  (forall x, In x d -> 0 <= x) ->
  (r0' <= r0)%nat -> (r1 <= r1')%nat -> (c0' <= c0)%nat -> (c1 <= c1')%nat ->
  np_sum (map np_sum (window_pixels w d r0 r1 c0 c1)) <=
  np_sum (map np_sum (window_pixels w d r0' r1' c0' c1')).
Proof.
  intros Hpos Hr0 Hr1 Hc0 Hc1. unfold window_pixels. rewrite !map_map.
  apply range_sum_mono; [|exact Hr0 | exact Hr1].
  intros i. split.
  - apply np_sum_nonneg. intros y Hy. apply in_map_iff in Hy.
    destruct Hy as (j & <- & _). now apply pixel_nonneg.
  - apply range_sum_mono; [|exact Hc0 | exact Hc1].
    intros j. split; [now apply pixel_nonneg | apply Qle_refl].
Qed.

Lemma seq_offset (s n : nat) : seq s n = map (Nat.add s) (seq 0 n).
Proof.
  induction s as [|s IH]; [now rewrite map_id|].
  rewrite <- seq_shift, IH, map_map. reflexivity.
Qed.

Lemma window_pixels_full (w h : nat) (d : list Q) :
  length d = (h * w)%nat -> concat (window_pixels w d 0 h 0 w) = d.
Proof.
  intros Hlen. unfold window_pixels. rewrite !Nat.sub_0_r.
  transitivity (concat (chunks h w d)); [f_equal | now apply concat_chunks].
  pose proof (firstn_skipn_seq [] (chunks h w d) 0 (length (chunks h w d))
                (or_intror (Nat.le_refl _))) as Hrows.
  change (skipn 0 (chunks h w d)) with (chunks h w d) in Hrows.
  rewrite firstn_all, chunks_length in Hrows. rewrite Hrows. apply map_ext_in. intros i Hi. apply in_seq in Hi.
  rewrite chunks_nth by lia. unfold pixel.
  rewrite (firstn_skipn_seq 0 d (i * w) w) by (right; nia).
  rewrite (seq_offset (i * w) w), map_map. reflexivity.
Qed.

(** The frame, centroid and window data of a successful run. *)
Lemma beam_analysis_window (a : ndarray Q) (R : Z) (an : analysis) (h w : nat) :
  well_formed a -> beam_analysis a R = Returns an ->
  shape (imageData2D an) = [h; w] ->
  let masked := apply_mask (reduce_loop (ndim a) a)
                           (labeled_foreground_of (reduce_loop (ndim a) a)) in
  exists cr cc : Q,
    maskedTwoDImage an = masked /\
    weighted_center_of_mass an = (cr, cc) /\
    shape masked = [h; w] /\ well_formed masked /\
    (forall x, In x (data masked) -> 0 <= x) /\
    (0 <= cr /\ cr <= inject_Z (Z.of_nat h) - 1) /\
    (0 <= cc /\ cc <= inject_Z (Z.of_nat w) - 1) /\
    ITotal_region an = roi_sum masked (cr, cc) R.
Proof.
  intros Hwf H Hs masked.
  destruct (beam_analysis_centroid_bounds a R an h w Hwf H Hs) as (_ & _ & Hr & Hc).
  destruct (beam_analysis_returns a R an H) as (m & h' & w' & _ & _ & Hrest).
  cbv zeta in Hrest. destruct Hrest as (_ & _ & Han).
  rewrite Han in *. cbn [imageData2D maskedTwoDImage weighted_center_of_mass
                         ITotal_region] in *.
  destruct (weighted_centroid _) as [cr cc] eqn:Ewc. cbn [fst snd] in Hr, Hc.
  exists cr, cc. split; [reflexivity|]. split; [reflexivity|].
  split; [exact Hs|].
  split; [apply apply_mask_wf; now apply reduce_loop_wf|].
  split; [intros x Hx; now apply masked_pixel_range in Hx|].
  split; [exact Hr|]. split; [exact Hc | reflexivity].
Qed.

Lemma roi_empty_at_zero (c : Q) (len : nat) :
  0 <= c ->
  (Z.to_nat (roi_stop c 0 len) - Z.to_nat (roi_start c 0) = 0)%nat.
Proof.
  intros Hc. unfold roi_start, roi_stop.
  assert (E1 : py_int (c - inject_Z 0) = py_int c) by (apply py_int_comp; ring).
  assert (E2 : py_int (c + inject_Z 0) = py_int c) by (apply py_int_comp; ring).
  rewrite E1, E2. pose proof (py_int_nonneg c Hc). lia.
Qed.

Lemma roi_full_when_large (c : Q) (R : Z) (len : nat) :
  0 <= c -> c <= inject_Z (Z.of_nat len) - 1 -> (Z.of_nat len <= R)%Z ->
  roi_start c R = 0%Z /\ roi_stop c R len = Z.of_nat len.
Proof.
  intros H0 H1 HR. unfold roi_start, roi_stop.
  assert (HRq : inject_Z (Z.of_nat len) <= inject_Z R) by now rewrite <- Zle_Qle.
  assert (Hlo : (py_int (c - inject_Z R) <= 0)%Z).
  { apply py_int_nonpos. revert H1 HRq.
    generalize (inject_Z (Z.of_nat len)) (inject_Z R). intros L Rq H1 HRq. lra. }
  assert (Hhi : (Z.of_nat len <= py_int (c + inject_Z R))%Z).
  { apply py_int_at_least. revert H0 HRq.
    generalize (inject_Z (Z.of_nat len)) (inject_Z R). intros L Rq H0 HRq. lra. }
  lia.
Qed.

(** X10.  The two extremes of ROI_SIZE, in a successful run on a
    well-formed input: with ROI_SIZE 0 the window is empty and the
    integrated intensity is 0; with ROI_SIZE at least the height and the
    width of the frame the window is the whole frame and the integrated
    intensity is the sum of all masked pixels. *)
Theorem roi_size_extremes (a : ndarray Q) (R : Z) (an : analysis) (h w : nat) :
  well_formed a -> beam_analysis a R = Returns an ->
  shape (imageData2D an) = [h; w] ->
  (R = 0%Z -> ITotal_region an == 0) /\
  ((Z.of_nat h <= R)%Z -> (Z.of_nat w <= R)%Z ->
   ITotal_region an == np_sum (data (maskedTwoDImage an))).
Proof.
  intros Hwf H Hs.
  destruct (beam_analysis_window a R an h w Hwf H Hs)
    as (cr & cc & -> & _ & Hsm & Hwfm & _ & [Hr0 Hr1] & [Hc0 Hc1] & ->).
  set (masked := apply_mask _ _) in *.
  split.
  - intros ->.
    destruct (roi_sum_window masked h w cr cc 0 Hsm Hwfm Hr0 Hc0) as [_ Hsum]; [lia|].
    rewrite Hsum. unfold window_pixels. rewrite (roi_empty_at_zero cr h Hr0).
    reflexivity.
  - intros Hh Hw.
    assert (HR : (0 <= R)%Z) by lia.
    destruct (roi_sum_window masked h w cr cc R Hsm Hwfm Hr0 Hc0 HR) as [Hd _].
    destruct (roi_full_when_large cr R h Hr0 Hr1 Hh) as [Es Ee].
    destruct (roi_full_when_large cc R w Hc0 Hc1 Hw) as [Es' Ee'].
    unfold roi_sum, shape_at. rewrite Hsm. cbn [nth fst snd].
    rewrite Hd, Es, Ee, Es', Ee', !Nat2Z.id. change (Z.to_nat 0) with 0%nat.
    rewrite window_pixels_full; [reflexivity|].
    unfold well_formed in Hwfm. rewrite Hsm in Hwfm. rewrite Hwfm. cbn. lia.
Qed.

Lemma roi_size_extremes_witness :
  exists an : analysis,
    beam_analysis spot_3x3 3 = Returns an /\
    ITotal_region an == np_sum (data (maskedTwoDImage an)).
Proof.
  eexists. split; [vm_compute; reflexivity|].
  apply (proj2 (roi_size_extremes spot_3x3 3 _ 3 3 eq_refl eq_refl eq_refl)); lia.
Defined.

Lemma roi_bounds_mono (c : Q) (R R' : Z) (len : nat) :
  (R <= R')%Z ->
  (roi_start c R' <= roi_start c R)%Z /\ (roi_stop c R len <= roi_stop c R' len)%Z.
Proof.
  intros HR. unfold roi_start, roi_stop.
  assert (HRq : inject_Z R <= inject_Z R') by now rewrite <- Zle_Qle.
  assert (H1 : (py_int (c - inject_Z R') <= py_int (c - inject_Z R))%Z).
  { apply py_int_mono. revert HRq. generalize (inject_Z R) (inject_Z R').
    intros q q' HRq. lra. }
  assert (H2 : (py_int (c + inject_Z R) <= py_int (c + inject_Z R'))%Z).
  { apply py_int_mono. revert HRq. generalize (inject_Z R) (inject_Z R').
    intros q q' HRq. lra. }
  lia.
Qed.

(** X11.  The integrated intensity never decreases when ROI_SIZE grows:
    for 0 <= ROI_SIZE <= ROI_SIZE', two successful runs on the same
    well-formed input give integrated intensities in that order. *)
Theorem integrated_intensity_monotone (a : ndarray Q) (R R' : Z) (an an' : analysis) :
  well_formed a -> (0 <= R)%Z -> (R <= R')%Z ->
  beam_analysis a R = Returns an -> beam_analysis a R' = Returns an' ->
  ITotal_region an <= ITotal_region an'.
Proof.
  intros Hwf H0 HR H H'.
  destruct (beam_analysis_returns a R an H) as (m & h & w & _ & Hs & Hrest).
  cbv zeta in Hrest. destruct Hrest as (_ & _ & Han).
  assert (Hs1 : shape (imageData2D an) = [h; w]) by (rewrite Han; exact Hs).
  destruct (beam_analysis_returns a R' an' H') as (m' & h' & w' & _ & Hs' & Hrest').
  cbv zeta in Hrest'. destruct Hrest' as (_ & _ & Han').
  assert (Hs2 : shape (imageData2D an') = [h; w]).
  { rewrite Han'. cbn [imageData2D]. exact Hs. }
  destruct (beam_analysis_window a R an h w Hwf H Hs1)
    as (cr & cc & _ & Hwc & Hsm & Hwfm & Hpos & [Hr0 _] & [Hc0 _] & ->).
  destruct (beam_analysis_window a R' an' h w Hwf H' Hs2)
    as (cr' & cc' & _ & Hwc' & _ & _ & _ & _ & _ & ->).
  assert (Ewc : weighted_center_of_mass an = weighted_center_of_mass an').
  { pose proof (beam_analysis_cases a R) as Hc. pose proof (beam_analysis_cases a R') as Hc'.
    cbv zeta in Hc, Hc'.
    destruct (np_max _) as [m0|e]; [|destruct Hc as [Hc _]; congruence].
    destruct Hc as [_ Hc]. destruct Hc' as [_ Hc'].
    destruct (regionprops _ _) as [[|p0 ps]|e];
      [congruence | | destruct Hc as [Hc _]; congruence].
    rewrite H in Hc. rewrite H' in Hc'. injection Hc as ->. injection Hc' as ->.
    reflexivity. }
  rewrite Hwc, Hwc' in Ewc. injection Ewc as <- <-.
  set (masked := apply_mask _ _) in *.
  destruct (roi_sum_window masked h w cr cc R Hsm Hwfm Hr0 Hc0 H0) as [_ ->].
  destruct (roi_sum_window masked h w cr cc R' Hsm Hwfm Hr0 Hc0) as [_ ->]; [lia|].
  destruct (roi_bounds_mono cr R R' h HR) as [Hrs Hre].
  destruct (roi_bounds_mono cc R R' w HR) as [Hcs Hce].
  apply window_sum_mono; [exact Hpos|..]; lia.
Qed.

Lemma integrated_intensity_monotone_witness :
  exists an an' : analysis,
    beam_analysis spot_3x3 0 = Returns an /\
    beam_analysis spot_3x3 1 = Returns an' /\
    ITotal_region an <= ITotal_region an'.
Proof.
  eexists. eexists. split; [vm_compute; reflexivity|].
  split; [vm_compute; reflexivity|].
  apply (integrated_intensity_monotone spot_3x3 0 1 _ _ eq_refl); try lia;
    vm_compute; reflexivity.
Defined.

(** ** Window bounds within 64 bits *)

Lemma py_int_inject_Z (n : Z) : py_int (inject_Z n) = n.
Proof. unfold py_int, inject_Z. simpl. apply Z.quot_1_r. Qed.

Lemma in_int64_between (q : Q) (B : Z) :
  (B < 2 ^ 63)%Z -> - inject_Z B <= q -> q <= inject_Z B ->
  Float64.in_int64 (py_int q) = true.
Proof.
  intros HB Hlo Hhi.
  assert (H1 : (- B <= py_int q)%Z).
  { rewrite <- (py_int_inject_Z (- B)). apply py_int_mono. now rewrite inject_Z_opp. }
  assert (H2 : (py_int q <= B)%Z).
  { rewrite <- (py_int_inject_Z B). now apply py_int_mono. }
  unfold Float64.in_int64. apply andb_true_iff. split; [apply Z.leb_le | apply Z.ltb_lt]; lia.
Qed.

(** With a centroid coordinate and a ROI_SIZE of magnitude at most 2^60,
    the two truncated bounds fit into 64 bits. *)
Lemma roi_bounds_fit (c : Q) (R : Z) :
  0 <= c -> c <= inject_Z (2 ^ 60) -> (Z.abs R <= 2 ^ 60)%Z ->
  Float64.in_int64 (py_int (Float64.subtract c R)) = true /\
  Float64.in_int64 (py_int (Float64.add c R)) = true.
Proof.
  intros Hc0 Hc1 HR.
  assert (HRq : Qabs (inject_Z R) <= inject_Z (2 ^ 60)).
  { apply Qabs_Qle_condition. rewrite <- inject_Z_opp, <- !Zle_Qle. lia. }
  destruct (round_double (inject_Z R)) as [Hr0 Hr1].
  set (r := Float64.round (inject_Z R)) in *.
  assert (Habs : forall x : Q, - (3 * inject_Z (2 ^ 60)) <= x -> x <= 3 * inject_Z (2 ^ 60) ->
                  Qabs x <= 3 * inject_Z (2 ^ 60)).
  { intros x H0 H1. now apply Qabs_Qle_condition. }
  assert (Hfit : forall x : Q, Qabs x <= 3 * inject_Z (2 ^ 60) ->
                  Float64.in_int64 (py_int (Float64.round x)) = true).
  { intros x Hx. destruct (round_double x) as [H0 H1].
    apply (in_int64_between _ (6 * 2 ^ 60)); [reflexivity|..];
      rewrite inject_Z_mult; change (inject_Z 6) with 6;
      revert Hx H0 H1; generalize (Qabs x) (Float64.round x) (inject_Z (2 ^ 60));
      intros ax rx B Hx H0 H1; lra. }
  unfold Float64.subtract, Float64.add. fold r.
  split; apply Hfit, Habs;
    revert Hc0 Hc1 HRq Hr0 Hr1;
    generalize (Qabs (inject_Z R)) r (inject_Z (2 ^ 60));
    intros aR r' B Hc0 Hc1 HRq Hr0 Hr1; lra.
Qed.

(** The Flux Integrator returns when the four bounds fit into 64 bits. *)
Lemma flux_integrator_returns (masked : ndarray Q) (c : Q * Q) (R : Z) (t : Q) :
  Float64.in_int64 (py_int (Float64.subtract (fst c) R)) = true ->
  Float64.in_int64 (py_int (Float64.add (fst c) R)) = true ->
  Float64.in_int64 (py_int (Float64.subtract (snd c) R)) = true ->
  Float64.in_int64 (py_int (Float64.add (snd c) R)) = true ->
  exists I : Q, flux_integrator masked c R t = Returns (I, np_divide I t).
Proof.
  intros H1 H2 H3 H4.
  unfold flux_integrator, Float64.roi_start, Float64.roi_stop, Float64.int64.
  rewrite H1, H2, H3, H4. cbn [mbind py_bind]. eexists. reflexivity.
Qed.

(** X7.  Once ROI_SIZE is read, [main] raises IndexError for a non-empty
    2-D frame of finite values exactly when no pixel has an intensity above
    1 and at most 1e6 (an all-ones frame, for instance).  When there is
    such a pixel, the frame is well formed with sides of at most 2^60
    pixels and ROI_SIZE has a magnitude of at most 2^60, [main] returns,
    and the bounds of the window around the weighted centroid fit into 64
    bits: the Flux Integrator returns as well. *)
Theorem main_returns_iff_bright_pixel (a : ndarray Q) (h w : nat) (t : Q)
    (kv : option (gmap string string)) (R : Z) :
  roi_size_of kv = Returns R -> shape a = [h; w] -> data a <> [] ->
  (main a t kv = Raises IndexError <->
   ~ exists x : Q, In x (data a) /\ 1 < x /\ x <= 1000000) /\
  ((exists x : Q, In x (data a) /\ 1 < x /\ x <= 1000000) ->
   well_formed a ->
   (Z.of_nat h <= 2 ^ 60)%Z -> (Z.of_nat w <= 2 ^ 60)%Z -> (Z.abs R <= 2 ^ 60)%Z ->
   exists (els : list TranslationElement) (an : analysis) (I : Q),
     main a t kv = Returns els /\
     beam_analysis a R = Returns an /\
     flux_integrator (maskedTwoDImage an) (weighted_center_of_mass an) R t
     = Returns (I, np_divide I t)).
Proof.
  intros HR Hs Hne.
  destruct (exact_main_returns_iff_bright a h w t kv R HR Hs) as [Hiff Hidx].
  split.
  - split.
    + intros E Hb. apply Hiff in Hb. rewrite E in Hb. discriminate.
    + intros Hnb. apply Hidx; [exact Hne|].
      destruct (returns (main a t kv)) eqn:E; [|reflexivity].
      exfalso. apply Hnb. now apply Hiff.
  - intros Hb Hwf Hh Hw HRb. apply Hiff in Hb.
    destruct (main a t kv) as [els|e] eqn:Em; [|discriminate].
    destruct (main_returns a t kv els Em) as (R' & an & HR' & HB & _).
    assert (R' = R) by congruence. subst R'.
    assert (Hs2 : shape (imageData2D an) = [h; w]).
    { destruct (beam_analysis_returns a R an HB) as (m & h' & w' & _ & _ & Hrest).
      cbv zeta in Hrest. destruct Hrest as (_ & _ & ->). cbn [imageData2D].
      rewrite reduce_loop_small; [exact Hs|]. unfold ndim. rewrite Hs. simpl. lia. }
    pose proof (beam_analysis_centroid_bounds a R an h w Hwf HB Hs2) as Hcb.
    cbv zeta in Hcb. destruct Hcb as (_ & _ & [Hr0 Hr1] & [Hc0 Hc1]).
    assert (Hrb : fst (weighted_center_of_mass an) <= inject_Z (2 ^ 60)).
    { rewrite Zle_Qle in Hh. revert Hr1 Hh.
      generalize (fst (weighted_center_of_mass an)) (inject_Z (Z.of_nat h))
        (inject_Z (2 ^ 60)). intros c H B Hr1 Hh. lra. }
    assert (Hcb' : snd (weighted_center_of_mass an) <= inject_Z (2 ^ 60)).
    { rewrite Zle_Qle in Hw. revert Hc1 Hw.
      generalize (snd (weighted_center_of_mass an)) (inject_Z (Z.of_nat w))
        (inject_Z (2 ^ 60)). intros c W B Hc1 Hw. lra. }
    destruct (roi_bounds_fit _ R Hr0 Hrb HRb) as [F1 F2].
    destruct (roi_bounds_fit _ R Hc0 Hcb' HRb) as [F3 F4].
    destruct (flux_integrator_returns (maskedTwoDImage an) (weighted_center_of_mass an)
                R t F1 F2 F3 F4) as (I & HI).
    exists els, an, I. split; [reflexivity|]. split; [exact HB | exact HI].
Qed.

Lemma main_returns_iff_bright_pixel_witness :
  main (ones 4 4) 1 None = Raises IndexError /\
  exists (els : list TranslationElement) (an : analysis) (I : Q),
    main spot_3x3 1 None = Returns els /\
    beam_analysis spot_3x3 25 = Returns an /\
    flux_integrator (maskedTwoDImage an) (weighted_center_of_mass an) 25 1
    = Returns (I, np_divide I 1).
Proof.
  split.
  - apply (proj1 (main_returns_iff_bright_pixel (ones 4 4) 4 4 1 None 25
                    eq_refl eq_refl ltac:(discriminate))).
    intros (x & Hx & Hgt & _). vm_compute in Hx.
    repeat (destruct Hx as [<-|Hx]; [discriminate Hgt|]). exact Hx.
  - apply (proj2 (main_returns_iff_bright_pixel spot_3x3 3 3 1 None 25
                    eq_refl eq_refl ltac:(discriminate))).
    + exists 1000. split; [simpl; tauto|]. split; reflexivity || discriminate.
    + reflexivity.
    + vm_compute. discriminate.
    + vm_compute. discriminate.
    + vm_compute. discriminate.
Defined.

(** ** Thresholds and weights *)

(** With a threshold between 1 and 100, on a frame of finite values:
    valid pixels of more than 100 counts belong to the peak, pixels of at
    most 1 count do not. *)
Lemma peak_between_thresholds (img : ndarray Q) (tq : Q) :
  1 <= tq -> tq <= 100 ->
  forall p : nat,
    (p < length (data img))%nat ->
    let x := nth p (data img) 0 in
    let peak := nth p (data (label_above tq (snd (validity_masker img)))) 0%Z in
    (100 < x -> x <= 1000000 -> peak = 1%Z) /\ (x <= 1 -> peak = 0%Z).
Proof.
  cbn [validity_masker snd]. intros Ht1 Ht100 p Hp. cbv zeta.
  rewrite label_above_nth by (rewrite apply_mask_length; exact Hp).
  rewrite apply_mask_nth, labeled_foreground_nth by exact Hp.
  set (x := nth p (data img) 0). split.
  - intros Hx Hle.
    assert (Hv : in_valid_range x = true) by (apply in_valid_range_spec; split; lra).
    rewrite Hv.
    assert (Hg : Qgtb (x * inject_Z 1) tq = true).
    { apply Qgtb_spec. assert (E : x * inject_Z 1 == x) by ring. rewrite E. lra. }
    now rewrite Hg.
  - intros Hx.
    assert (Hg : forall k : Z, (k = 0 \/ k = 1)%Z -> Qgtb (x * inject_Z k) tq = false).
    { intros k Hk. destruct (Qgtb _ _) eqn:E; [|reflexivity].
      apply Qgtb_spec in E. exfalso.
      destruct Hk as [-> | ->].
      - assert (E0 : x * inject_Z 0 == 0) by ring. rewrite E0 in E. lra.
      - assert (E1 : x * inject_Z 1 == x) by ring. rewrite E1 in E. lra. }
    destruct (in_valid_range x); rewrite Hg; auto.
Qed.

(** The rounded product of 0.0001 and a maximum of at most 1e6 is at
    most 100. *)
Lemma rounded_threshold_le_100 (mq : Q) :
  0 <= mq -> mq <= 1000000 -> Float64.round (Float64.point_0001 * mq) <= 100.
Proof.
  intros H0 H1.
  assert (E : Float64.round (Float64.point_0001 * 1000000) == 100)
    by (vm_compute; reflexivity).
  rewrite <- E. apply round_mono_nonneg.
  - apply Qmult_le_0_compat; [discriminate | exact H0].
  - assert (Hk : 0 <= Float64.point_0001) by discriminate.
    revert Hk. generalize Float64.point_0001. intros k Hk. nra.
Qed.

Lemma all_finite_map (l : list npfloat) :
  Forall (fun x => Float64.is_finite x = true) l -> exists d : list Q, l = map Finite d.
Proof.
  induction 1 as [|x l Hx _ (d & ->)]; [now exists []|].
  destruct x as [q| | |]; try discriminate. now exists (q :: d).
Qed.

Lemma Float64_masker_nth (img : ndarray npfloat) (p : nat) :
  (p < length (data img))%nat ->
  let x := nth p (data img) NaN in
  let m := nth p (data (fst (Float64.validity_masker img))) 0%Z in
  m = (if Float64.in_valid_range x then 1%Z else 0%Z) /\
  nth p (data (snd (Float64.validity_masker img))) NaN
  = Float64.multiply x (Finite (inject_Z m)).
Proof.
  intros Hp x m.
  cbn [Float64.validity_masker fst snd Float64.labeled_foreground_of Float64.apply_mask
         data] in *.
  split.
  - exact (nth_map_lt (fun x => if Float64.in_valid_range x then 1%Z else 0%Z)
             NaN 0%Z _ _ Hp).
  - apply (nth_zip_with (fun (x : npfloat) (m : Z) =>
                           Float64.multiply x (Finite (inject_Z m))) NaN 0%Z NaN);
      [exact Hp | now rewrite length_map].
Qed.

(** A pixel that is not finite leaves a nan in the masked frame. *)
Lemma masked_has_nan (img : ndarray npfloat) :
  Exists (fun x => Float64.is_finite x = false) (data img) ->
  In NaN (data (snd (Float64.validity_masker img))).
Proof.
  intros Hex. apply List.Exists_exists in Hex. destruct Hex as (x & Hin & Hx).
  destruct (In_nth _ _ NaN Hin) as (p & Hp & Hnth).
  destruct (Float64_masker_nth img p Hp) as [Hm Hy]. cbv zeta in Hm, Hy.
  rewrite Hnth in Hm, Hy.
  assert (E : Float64.in_valid_range x = false) by (destruct x; [discriminate|reflexivity..]).
  rewrite E in Hm. rewrite Hm in Hy.
  assert (E' : Float64.multiply x (Finite (inject_Z 0)) = NaN)
    by (destruct x; [discriminate|reflexivity..]).
  rewrite E' in Hy. rewrite <- Hy. apply nth_In.
  cbn [Float64.validity_masker snd Float64.apply_mask Float64.labeled_foreground_of data].
  rewrite length_zip_with, length_map. lia.
Qed.

(** X12.  For every frame with at least one pixel, whatever floats it
    holds.  When all pixels are finite, the largest masked intensity lies
    in [0, 1e6] and the threshold therefore in [1, 100]: valid pixels of
    more than 100 counts always belong to the peak, pixels of at most 1
    count never do.  When a pixel is an infinity or nan, the largest masked
    intensity and the threshold are nan, and no pixel belongs to the
    peak. *)
Theorem threshold_range (img : ndarray npfloat) (m : npfloat) :
  Float64.np_max (snd (Float64.validity_masker img)) = Returns m ->
  let t := Float64.threshold_of m in
  let lp := Float64.label_above t (snd (Float64.validity_masker img)) in
  (Forall (fun x => Float64.is_finite x = true) (data img) ->
   exists mq tq : Q,
     m = Finite mq /\ 0 <= mq /\ mq <= 1000000 /\
     t = Finite tq /\ 1 <= tq /\ tq <= 100 /\
     forall (p : nat) (x : Q),
       (p < length (data img))%nat -> nth p (data img) NaN = Finite x ->
       (100 < x -> x <= 1000000 -> nth p (data lp) 0%Z = 1%Z) /\
       (x <= 1 -> nth p (data lp) 0%Z = 0%Z)) /\
  (Exists (fun x => Float64.is_finite x = false) (data img) ->
   m = NaN /\ t = NaN /\ forall l : Z, In l (data lp) -> l = 0%Z).
Proof.
  intros Hm t lp. split.
  - intros Hfin. destruct (all_finite_map _ Hfin) as (d & Hd).
    assert (Eimg : img = Float64.of_finite (NdArray (shape img) d)).
    { destruct img as [sh dd]. cbn [data] in Hd. subst dd. reflexivity. }
    set (a := NdArray (shape img) d) in *.
    assert (Emask : snd (Float64.validity_masker img)
                    = Float64.of_finite (snd (validity_masker a))).
    { rewrite Eimg, validity_masker_finite. reflexivity. }
    rewrite Emask, np_max_finite in Hm.
    destruct (np_max (snd (validity_masker a))) as [mq|e] eqn:Emq; [|discriminate].
    injection Hm as <-.
    assert (Hin : In mq (data (apply_mask a (labeled_foreground_of a)))).
    { cbn [validity_masker snd] in Emq. unfold np_max in Emq.
      destruct (data _) as [|x xs] eqn:E; [discriminate|].
      injection Emq as <-. apply fold_Qmax_spec. }
    pose proof (masked_pixel_range a mq Hin) as [Hm0 Hm1].
    set (tq := Qmax 1 (Float64.round (Float64.point_0001 * mq))).
    assert (Et : t = Finite tq) by (subst t; apply threshold_of_finite).
    assert (Ht0 : 1 <= tq) by apply Q.le_max_l.
    assert (Ht1 : tq <= 100).
    { apply Q.max_lub; [discriminate | now apply rounded_threshold_le_100]. }
    exists mq, tq.
    split; [reflexivity|]. split; [exact Hm0|]. split; [exact Hm1|].
    split; [exact Et|]. split; [exact Ht0|]. split; [exact Ht1|].
    intros p x Hp Hx.
    assert (Elp : lp = label_above tq (snd (validity_masker a))).
    { subst lp. rewrite Et, Emask. apply label_above_finite. }
    rewrite Elp.
    assert (Hpa : (p < length (data a))%nat).
    { rewrite Hd in Hp. rewrite length_map in Hp. exact Hp. }
    pose proof (peak_between_thresholds a tq Ht0 Ht1 p Hpa) as Hpk. cbv zeta in Hpk.
    assert (Ex : nth p (data a) 0 = x).
    { rewrite Hd in Hx.
      rewrite (nth_map_lt Finite 0 NaN p d Hpa) in Hx. now injection Hx. }
    rewrite Ex in Hpk. exact Hpk.
  - intros Hex. pose proof (masked_has_nan img Hex) as Hnan.
    assert (Em : m = NaN).
    { unfold Float64.np_max in Hm.
      destruct (data (snd (Float64.validity_masker img))) as [|x xs]; [discriminate|].
      injection Hm as <-. now apply fold_maximum_nan. }
    assert (Et : t = NaN) by (subst t; now rewrite Em).
    split; [exact Em|]. split; [exact Et|].
    intros l. subst lp. cbn [Float64.label_above data]. rewrite in_map_iff.
    intros (y & <- & _). now rewrite Et, greater_nan.
Qed.

Lemma threshold_range_witness :
  (exists mq tq : Q,
     Float64.np_max (snd (Float64.validity_masker (Float64.of_finite frame_2x3)))
     = Returns (Finite mq) /\
     0 <= mq /\ mq <= 1000000 /\
     Float64.threshold_of (Finite mq) = Finite tq /\ 1 <= tq /\ tq <= 100) /\
  (Float64.np_max (snd (Float64.validity_masker row_inf_nan)) = Returns NaN /\
   forall l : Z,
     In l (data (Float64.label_above (Float64.threshold_of NaN)
                   (snd (Float64.validity_masker row_inf_nan)))) ->
     l = 0%Z).
Proof.
  split.
  - assert (Hfin : Forall (fun x => Float64.is_finite x = true)
                     (data (Float64.of_finite frame_2x3))) by (repeat constructor).
    destruct (Float64.np_max (snd (Float64.validity_masker (Float64.of_finite frame_2x3))))
      as [m|e] eqn:E; [|vm_compute in E; discriminate].
    destruct (proj1 (threshold_range _ m E) Hfin)
      as (mq & tq & -> & H0 & H1 & Ht & Ht0 & Ht1 & _).
    exists mq, tq. repeat split; assumption.
  - assert (Hex : Exists (fun x => Float64.is_finite x = false) (data row_inf_nan))
      by (apply Exists_cons_hd; reflexivity).
    assert (E : Float64.np_max (snd (Float64.validity_masker row_inf_nan)) = Returns NaN)
      by reflexivity.
    destruct (proj2 (threshold_range _ NaN E) Hex) as (_ & _ & Hl).
    split; [exact E | exact Hl].
Defined.

Lemma region_weighted_sums (w : nat) (lab : list Z) (i1 i2 : list Q)
    (coord : nat * nat * Q -> Q) :
  (forall r c x y, coord (r, c, x) = coord (r, c, y)) ->
  (forall p, (p < length lab)%nat -> nth p lab 0%Z = 1%Z -> nth p i1 0 == nth p i2 0) ->
  np_sum (map (fun px => coord px * weight_of px) (pixels (region_of w lab i1 1))) ==
  np_sum (map (fun px => coord px * weight_of px) (pixels (region_of w lab i2 1))) /\
  np_sum (map weight_of (pixels (region_of w lab i1 1))) ==
  np_sum (map weight_of (pixels (region_of w lab i2 1))).
Proof.
  intros Hcoord Hsame. cbn [region_of pixels]. rewrite !map_map. cbn [weight_of snd].
  split; apply np_sum_map_ext; intros p Hp; apply filter_In in Hp;
    destruct Hp as [Hp Hl]; apply in_seq in Hp; apply Z.eqb_eq in Hl.
  - rewrite (Hcoord _ _ _ (nth p i2 0)). rewrite (Hsame p) by (lia || exact Hl).
    reflexivity.
  - apply Hsame; [lia | exact Hl].
Qed.


(** At the Region Analyzer the intensity image matters: over two labelled
    pixels with raw intensities 2e6 and 1 the weighted centroid lies at
    column 1 / 2000001 with the raw frame, and at column 1 with the frame
    in which the pixel beyond the valid range is set to 0. *)
Lemma raw_intensity_weights_example :
  (exists c wc : Q * Q,
     region_analyzer (NdArray [1; 2]%nat [1; 1]%Z) (NdArray [1; 2]%nat [2000000; 1])
     = Returns (c, wc) /\ snd wc == 1 # 2000001) /\
  (exists c wc : Q * Q,
     region_analyzer (NdArray [1; 2]%nat [1; 1]%Z) (NdArray [1; 2]%nat [0; 1])
     = Returns (c, wc) /\ snd wc == 1).
Proof.
  split; eexists; eexists; (split; [reflexivity|]); vm_compute; reflexivity.
Qed.



(** X13.  The choice of intensity image does not matter: in every
    successful run, every pixel of the peak is a valid pixel, so calling
    [regionprops] with the masked frame instead of the unmasked one finds
    the same region and the same weighted centroid. *)
Theorem weighted_centroid_same_with_masked (a : ndarray Q) (R : Z) (an : analysis) :
  beam_analysis a R = Returns an ->
  exists p0 p0' : RegionProperties,
    regionprops (labeled_peak an) (imageData2D an) = Returns [p0] /\
    regionprops (labeled_peak an) (maskedTwoDImage an) = Returns [p0'] /\
    map fst (pixels p0') = map fst (pixels p0) /\
    fst (weighted_centroid p0') == fst (weighted_center_of_mass an) /\
    snd (weighted_centroid p0') == snd (weighted_center_of_mass an).
Proof.
  intros H. destruct (beam_analysis_returns a R an H) as (m & h & w & Hm & Hs & Hrest).
  cbv zeta in Hrest. destruct Hrest as (Hrp & Hne & ->).
  cbn [labeled_peak imageData2D maskedTwoDImage weighted_center_of_mass].
  set (img := reduce_loop (ndim a) a) in *.
  set (masked := apply_mask img (labeled_foreground_of img)) in *.
  set (lp := label_above (threshold_of m) masked) in *.
  exists (region_of w (data lp) (data img) 1), (region_of w (data lp) (data masked) 1).
  split; [exact Hrp|].
  assert (Hfst : map fst (pixels (region_of w (data lp) (data masked) 1))
                 = map fst (pixels (region_of w (data lp) (data img) 1))).
  { cbn [region_of pixels]. rewrite !map_map. reflexivity. }
  split.
  { rewrite (regionprops_binary lp masked h w Hs) by apply label_above_01.
    destruct (pixels (region_of w (data lp) (data masked) 1)) eqn:E; [|reflexivity].
    exfalso. apply Hne. simpl in Hfst.
    symmetry in Hfst. apply map_eq_nil in Hfst. exact Hfst. }
  split; [exact Hfst|].
  assert (Hsame : forall p, (p < length (data lp))%nat -> nth p (data lp) 0%Z = 1%Z ->
            nth p (data masked) 0 == nth p (data img) 0).
  { intros p Hp Hl.
    assert (Hp' : (p < length (data img))%nat).
    { subst lp masked. cbn [label_above data] in Hp.
      rewrite length_map, apply_mask_length in Hp. exact Hp. }
    destruct (foreground_pixels_valid img (threshold_of m) p) as (_ & He & _);
      [apply Q.le_max_l | exact Hp' | exact Hl | exact He]. }
  unfold weighted_centroid. cbn [fst snd].
  destruct (region_weighted_sums w (data lp) (data masked) (data img) row_of
              (fun _ _ _ _ => eq_refl) Hsame) as [Hr Ht].
  destruct (region_weighted_sums w (data lp) (data masked) (data img) col_of
              (fun _ _ _ _ => eq_refl) Hsame) as [Hc _].
  split; [now rewrite Hr, Ht | now rewrite Hc, Ht].
Qed.

Lemma weighted_centroid_same_with_masked_witness :
  exists p0' : RegionProperties,
    regionprops (label_above 1 (snd (validity_masker frame_2x3)))
                (snd (validity_masker frame_2x3)) = Returns [p0'] /\
    fst (weighted_centroid p0') == 100 # 105.
Proof.
  destruct (weighted_centroid_same_with_masked frame_2x3 1
              (Analysis frame_2x3 (labeled_foreground_of frame_2x3)
                 (snd (validity_masker frame_2x3)) 1
                 (label_above 1 (snd (validity_masker frame_2x3)))
                 (1 # 2, 2 # 2) (100 # 105, 105 # 105) 5))
    as (p0 & p0' & _ & Hrp & _ & Hr & _).
  { vm_compute. reflexivity. }
  exists p0'. split; [exact Hrp | exact Hr].
Defined.

(** ** The reduction of a stack as one average *)

Lemma size_of_app (l1 l2 : list nat) : size_of (l1 ++ l2) = (size_of l1 * size_of l2)%nat.
Proof.
  induction l1 as [|n l1 IH]; simpl; [lia|].
  change (fold_right Nat.mul 1%nat (l1 ++ l2)) with (size_of (l1 ++ l2)).
  change (fold_right Nat.mul 1%nat l1) with (size_of l1). rewrite IH. lia.
Qed.

Lemma size_of_pos (l : list nat) : Forall (fun n => (0 < n)%nat) l -> (0 < size_of l)%nat.
Proof.
  induction 1 as [|n l Hn _ IH]; simpl; [lia|].
  change (fold_right Nat.mul 1%nat l) with (size_of l). nia.
Qed.

Lemma np_sum_div {A : Type} (F : A -> Q) (c : Q) (l : list A) :
  np_sum (map (fun x => F x / c) l) == np_sum (map F l) / c.
Proof.
  induction l as [|x l IH]; simpl.
  - unfold np_sum, Qdiv. simpl. ring.
  - rewrite !np_sum_cons, IH. unfold Qdiv. ring.
Qed.

Lemma np_sum_plus {A : Type} (F G : A -> Q) (l : list A) :
  np_sum (map (fun x => F x + G x) l) == np_sum (map F l) + np_sum (map G l).
Proof.
  induction l as [|x l IH]; simpl.
  - unfold np_sum. simpl. ring.
  - rewrite !np_sum_cons, IH. ring.
Qed.

Lemma np_sum_exchange {A B : Type} (f : A -> B -> Q) (la : list A) (lb : list B) :
  np_sum (map (fun b => np_sum (map (fun a => f a b) la)) lb) ==
  np_sum (map (fun a => np_sum (map (fun b => f a b) lb)) la).
Proof.
  induction lb as [|b lb IH]; simpl.
  - rewrite (np_sum_map_ext _ (fun _ => 0)).
    + rewrite np_sum_const. unfold np_sum at 1. simpl. ring.
    + intros a _. reflexivity.
  - rewrite np_sum_cons, IH. rewrite <- np_sum_plus.
    apply np_sum_map_ext. intros a _. rewrite np_sum_cons. reflexivity.
Qed.

(** A sum over [n * m] consecutive indices, in [n] groups of [m]. *)
Lemma np_sum_groups (g : nat -> Q) (m n : nat) :
  np_sum (map g (seq 0 (n * m))) ==
  np_sum (map (fun i => np_sum (map (fun k => g (i * m + k)%nat) (seq 0 m))) (seq 0 n)).
Proof.
  induction n as [|n IH].
  - reflexivity.
  - replace (S n * m)%nat with (n * m + m)%nat by lia.
    rewrite seq_app, map_app, np_sum_app, IH.
    rewrite seq_S, map_app, np_sum_app. cbn [map Nat.add].
    rewrite (np_sum_cons _ []). change (np_sum []) with 0.
    rewrite (seq_offset (n * m) m), map_map. ring.
Qed.

Lemma reduce_stack_mean (tail : list nat) (j : nat) :
  length tail = 2%nat -> (j < size_of tail)%nat ->
  forall (ns : list nat) (d : list Q),
  Forall (fun n => (0 < n)%nat) ns ->
  length d = size_of (ns ++ tail) ->
  let a := NdArray (ns ++ tail) d in
  shape (reduce_loop (ndim a) a) = tail /\
  nth j (data (reduce_loop (ndim a) a)) 0 ==
  np_sum (map (fun k => nth (k * size_of tail + j) d 0) (seq 0 (size_of ns)))
  / inject_Z (Z.of_nat (size_of ns)).
Proof.
  intros Htail Hj. induction ns as [|n0 ns IH]; intros d Hpos Hlen; cbv zeta.
  - cbn [app]. rewrite reduce_loop_small by (unfold ndim; cbn [shape]; lia).
    cbn [shape data size_of fold_right seq map Nat.mul Nat.add].
    split; [reflexivity|]. rewrite (np_sum_cons _ []). unfold np_sum. cbn [fold_left].
    unfold Qdiv. change (/ inject_Z (Z.of_nat 1)) with 1. ring.
  - inversion Hpos as [|? ? Hn0 Hns]; subst.
    rewrite reduce_loop_unfold.
    assert (Hnd : (2 <? ndim (NdArray ((n0 :: ns) ++ tail) d))%nat = true).
    { apply Nat.ltb_lt. unfold ndim. cbn [shape app length]. rewrite length_app. lia. }
    rewrite Hnd.
    set (rest := ns ++ tail) in *.
    assert (Hlen' : length d = size_of (n0 :: rest)) by exact Hlen.
    assert (Hmean : np_mean_axis0 (NdArray ((n0 :: ns) ++ tail) d)
                    = NdArray rest (data (np_mean_axis0 (NdArray (n0 :: rest) d))))
      by reflexivity.
    rewrite Hmean.
    set (d' := data (np_mean_axis0 (NdArray (n0 :: rest) d))) in *.
    assert (Hwf' : length d' = size_of rest).
    { exact (np_mean_axis0_wf (NdArray (n0 :: rest) d) Hlen'). }
    destruct (IH d' Hns Hwf') as [IHs IHv]. cbv zeta in IHs, IHv.
    split; [exact IHs|]. rewrite IHv.
    assert (Hrest : size_of rest = (size_of ns * size_of tail)%nat) by apply size_of_app.
    pose proof (size_of_pos ns Hns) as HP.
    change (size_of (n0 :: ns)) with (n0 * size_of ns)%nat.
    set (P := size_of ns) in *. set (T := size_of tail) in *.
    set (G := fun K : nat => nth (K * T + j) d 0).
    assert (HA : np_sum (map (fun k => nth (k * T + j) d' 0) (seq 0 P)) ==
                 np_sum (map (fun k => np_sum (map (fun i => G (i * P + k)%nat) (seq 0 n0))
                                       / inject_Z (Z.of_nat n0)) (seq 0 P))).
    { apply np_sum_map_ext. intros k Hk. apply in_seq in Hk.
      destruct (np_mean_axis0_spec n0 rest d (k * T + j) Hlen') as (_ & _ & Hv);
        [rewrite Hrest; nia|].
      fold d' in Hv. rewrite Hv. apply Qmult_comp; [|reflexivity].
      apply np_sum_map_ext. intros i _. unfold G. rewrite Hrest.
      replace (i * (P * T) + (k * T + j))%nat with ((i * P + k) * T + j)%nat by nia.
      reflexivity. }
    rewrite HA, np_sum_div.
    rewrite (np_sum_exchange (fun i k => G (i * P + k)%nat) (seq 0 n0) (seq 0 P)).
    rewrite (np_sum_groups G P n0).
    rewrite Nat2Z.inj_mul, inject_Z_mult.
    field. split; intros E.
    + apply (Qeq_bool_neq (inject_Z (Z.of_nat P)) 0); [|exact E].
      unfold Qeq_bool, inject_Z. simpl. apply Z.eqb_neq. lia.
    + apply (Qeq_bool_neq (inject_Z (Z.of_nat n0)) 0); [|exact E].
      unfold Qeq_bool, inject_Z. simpl. apply Z.eqb_neq. lia.
Qed.

(** X14.  Reducing a stack with any number of leading axes, none of them
    empty, gives at every pixel the arithmetic mean of that pixel over all
    the 2-D slices of the stack: averaging axis by axis is one average over
    all repeats. *)
Theorem frame_reducer_is_one_average (ns : list nat) (h w : nat) (d : list Q) (j : nat) :
  Forall (fun n => (0 < n)%nat) ns ->
  length d = (size_of ns * (h * w))%nat -> (j < h * w)%nat ->
  exists r : ndarray Q,
    frame_reducer (NdArray (ns ++ [h; w]) d) = Returns r /\
    shape r = [h; w] /\
    nth j (data r) 0 ==
    np_sum (map (fun k => nth (k * (h * w) + j) d 0) (seq 0 (size_of ns)))
    / inject_Z (Z.of_nat (size_of ns)).
Proof.
  intros Hpos Hlen Hj.
  assert (Hhw : size_of [h; w] = (h * w)%nat) by (cbn; lia).
  destruct (reduce_stack_mean [h; w] j eq_refl) with (ns := ns) (d := d) as [Hs Hv].
  - rewrite Hhw. exact Hj.
  - exact Hpos.
  - rewrite size_of_app, Hhw. exact Hlen.
  - cbv zeta in Hs, Hv. rewrite Hhw in Hv.
    eexists. split; [reflexivity|]. split; [exact Hs | exact Hv].
Qed.

Lemma frame_reducer_is_one_average_witness :
  exists r : ndarray Q,
    frame_reducer stack_2x1x2 = Returns r /\ shape r = [1; 2]%nat /\
    nth 0 (data r) 0 ==
    np_sum (map (fun k => nth (k * (1 * 2) + 0) [1; 2; 3; 4] 0) (seq 0 (size_of [2%nat])))
    / inject_Z (Z.of_nat (size_of [2%nat])).
Proof.
  refine (frame_reducer_is_one_average [2%nat] 1 2 [1; 2; 3; 4] 0 _ eq_refl _).
  - repeat constructor.
  - lia.
Defined.

Lemma uniform_weights_mean {A : Type} (f wgt : A -> Q) (c0 : Q) (l : list A) :
  l <> [] -> ~ c0 == 0 -> (forall x, In x l -> wgt x == c0) ->
  np_sum (map (fun x => f x * wgt x) l) / np_sum (map wgt l) ==
  np_sum (map f l) / inject_Z (Z.of_nat (length l)).
Proof.
  intros Hne Hc Hw.
  assert (H1 : np_sum (map (fun x => f x * wgt x) l) == c0 * np_sum (map f l)).
  { rewrite <- np_sum_scale. apply np_sum_map_ext. intros x Hx. rewrite (Hw x Hx). ring. }
  assert (H2 : np_sum (map wgt l) == inject_Z (Z.of_nat (length l)) * c0).
  { rewrite <- np_sum_const. apply np_sum_map_ext. exact Hw. }
  assert (Hn : ~ inject_Z (Z.of_nat (length l)) == 0).
  { intros E. apply (Qeq_bool_neq (inject_Z (Z.of_nat (length l))) 0); [|exact E].
    unfold Qeq_bool, inject_Z. simpl. apply Z.eqb_neq.
    destruct l; [congruence | simpl; lia]. }
  rewrite H1, H2. field. split; assumption.
Qed.

(** X15.  When all pixels of the peak have the same intensity, the
    weighted centroid used for the flux and the unweighted centre of mass
    that is stored coincide; a peak of a single pixel is the simplest
    case. *)
Theorem centroids_agree_on_uniform_peak (a : ndarray Q) (R : Z) (an : analysis) (c0 : Q) :
  beam_analysis a R = Returns an ->
  (forall p : nat,
      (p < length (data (labeled_peak an)))%nat ->
      nth p (data (labeled_peak an)) 0%Z = 1%Z ->
      nth p (data (imageData2D an)) 0 == c0) ->
  fst (weighted_center_of_mass an) == fst (center_of_mass an) /\
  snd (weighted_center_of_mass an) == snd (center_of_mass an).
Proof.
  intros H Hu. destruct (beam_analysis_returns a R an H) as (m & h & w & _ & _ & Hrest).
  cbv zeta in Hrest. destruct Hrest as (_ & Hne & ->).
  cbn [labeled_peak imageData2D center_of_mass weighted_center_of_mass] in *.
  set (img := reduce_loop (ndim a) a) in *.
  set (lab := data (label_above (threshold_of m) (apply_mask img (labeled_foreground_of img)))) in *.
  assert (Hw : forall px, In px (pixels (region_of w lab (data img) 1)) ->
            weight_of px == c0 /\ 1 < weight_of px).
  { intros [[r c] x] Hin.
    destruct (region_of_pixels_in _ _ _ _ r c x Hin) as (p & Hp & Hl & _ & _ & ->).
    cbn [weight_of snd]. split; [now apply Hu|].
    assert (Hp' : (p < length (data img))%nat).
    { subst lab. cbn [label_above data] in Hp.
      rewrite length_map, apply_mask_length in Hp. exact Hp. }
    destruct (foreground_pixels_valid img (threshold_of m) p) as (_ & _ & Hgt);
      [apply Q.le_max_l | exact Hp' | exact Hl | exact Hgt]. }
  assert (Hc0 : ~ c0 == 0).
  { destruct (pixels (region_of w lab (data img) 1)) as [|px pxs] eqn:E; [congruence|].
    destruct (Hw px (or_introl eq_refl)) as [He Hgt]. intros Ez.
    rewrite He, Ez in Hgt. discriminate. }
  unfold weighted_centroid, centroid. cbn [fst snd].
  split; apply (uniform_weights_mean _ _ c0); try assumption;
    intros px Hin; apply (Hw px Hin).
Qed.

Lemma centroids_agree_on_uniform_peak_witness :
  exists an : analysis,
    beam_analysis spot_3x3 1 = Returns an /\
    fst (weighted_center_of_mass an) == fst (center_of_mass an).
Proof.
  eexists. split; [vm_compute; reflexivity|].
  refine (proj1 (centroids_agree_on_uniform_peak spot_3x3 1 _ 1000 eq_refl _)).
  intros p Hp Hl. cbn [labeled_peak imageData2D] in *.
  do 9 (destruct p as [|p]; [try discriminate Hl; try reflexivity|]).
  vm_compute in Hp. lia.
Defined.
